(** * Hero guitar game: the simulation engine of [src/main.ts]

    A shallow embedding of the pure part of [src/main.ts]: the state record,
    the physics step [tick] and the six action classes
    ([ButtonClick], [ButtonRelease], [TickGame], [GameEnd], [NextNote],
    [RandomiseNotes]) with the reducer [applyAction].

    Numbers.  A JavaScript [number] that the engine only ever counts with
    (ids, columns, positions, the combo and bonus counters, the decay
    counter, the seed) is a [Z]; a [number] that carries a fraction (chart
    timestamps, tail extents, the score accumulators) is an exact rational
    [Q].  [~~x] is [toInt32]: truncation towards zero followed by the
    wrap-around to a signed 32-bit integer.  [State.scoreGained] is written
    only through [~~], so the field is a [Z].

    The score accumulators of [ButtonClick] and [ButtonRelease] are
    doubles whose integer part [~~] reads, so their arithmetic is the
    arithmetic of binary64: every sum, difference, product and quotient
    is rounded to the nearest double, ties to even ([round64]), and the
    literal [0.2] is the double nearest to one fifth.  A double is carried
    as the rational it stands for.  The exponent is bounded below (gradual
    underflow) and not above: the counters are integers of any size here,
    and a score beyond the largest double needs a combo beyond [10 ^ 300].

    The generator [RNG] lives in [util.ts], which is not part of the sources
    at hand: the engine is parameterised by its two functions.

    Around the engine, the streams and the subscriber of [main] are
    embedded as functions on lists: the chart grouping
    [scheduleVisualNotes$], the scan of [delayedGroupNotes$] and the
    stream [nextNote$] with its pause filter; the sampler calls of
    [playNotes] and [suppressNotes]; the note elements that [render],
    [removeNotes] and the restart listeners add to and remove from the
    canvas.  The CSV parser, the text fields and the high score are not
    embedded. *)

From Stdlib Require Import ZArith QArith Qround Qabs Qpower.
From Stdlib Require Import List Bool String Lia Lqa.
From Stdlib Require Import Permutation SpecFloat.
Import ListNotations.

Local Open Scope Z_scope.

(** ** JavaScript number helpers *)

Module JS.

(** The signed 32-bit wrap-around of ToInt32. *)
Definition wrap32 (z : Z) : Z := (z + 2 ^ 31) mod 2 ^ 32 - 2 ^ 31.

(** Truncation towards zero of a rational. *)
Definition Qtrunc (q : Q) : Z := Z.quot (Qnum q) (Zpos (Qden q)).

(** [~~x]. *)
Definition toInt32 (q : Q) : Z := wrap32 (Qtrunc q).

(** [Math.floor(x)]. *)
Definition Math_floor (q : Q) : Z := Qfloor q.

(** *** The arithmetic of doubles

    [pow2 e] is [2 ^ e]; [ilog2 q] is the integer part of the binary
    logarithm of a positive [q]; [roundEven] rounds to the nearest integer,
    a tie going to the even one.  [round64 x] is the double nearest to
    [x], ties to even: with [2 ^ e] the unit in the last place of [x]
    (53-bit significands; [2 ^ -1074] in the subnormal range), [x] is
    rounded to the nearest multiple of [2 ^ e]. *)
Definition pow2 (e : Z) : Q :=
  if 0 <=? e then inject_Z (2 ^ e) else 1 # Z.to_pos (2 ^ (- e)).

Definition ilog2 (q : Q) : Z :=
  let e := Z.log2 (Qnum q) - Z.log2 (Zpos (Qden q)) in
  if Qle_bool (pow2 e) q then e else e - 1.

Definition roundEven (q : Q) : Z :=
  let f := Qfloor q in
  match (q - inject_Z f ?= 1 # 2)%Q with
  | Lt => f
  | Gt => f + 1
  | Eq => if Z.even f then f else f + 1
  end.

Definition round64 (x : Q) : Q :=
  let q := Qred x in
  if Qeq_bool q 0 then 0%Q
  else
    let e := Z.max (ilog2 (Qabs q)) (- 1022) - 52 in
    Qred (inject_Z (roundEven (q / pow2 e)) * pow2 e).

(** [a + b], [a - b], [a * b] and [a / b] on doubles. *)
Definition fadd (a b : Q) : Q := round64 (a + b).
Definition fsub (a b : Q) : Q := round64 (a - b).
Definition fmul (a b : Q) : Q := round64 (a * b).
Definition fdiv (a b : Q) : Q := round64 (a / b).

(** [a < b] on rationals, as a boolean. *)
Definition Qltb (a b : Q) : bool := negb (Qle_bool b a).

(** Truthiness of a field that may be absent ([undefined]). *)
Definition truthy (b : option bool) : bool :=
  match b with Some true => true | _ => false end.

End JS.

(** ** The Standard Library's IEEE 754 model

    [SpecFloat] gives the operations of IEEE 754 on significand and
    exponent; at precision 53 and maximal exponent 1024 they are those of
    binary64.  [round64] is compared with them below. *)

Module IEEE.

Definition ofZ (z : Z) : spec_float := binary_normalize 53 1024 z 0 false.

Definition toQ (f : spec_float) : Q :=
  match f with
  | S754_finite s m e =>
      Qred (inject_Z (if s then Z.neg m else Z.pos m) * JS.pow2 e)
  | _ => 0%Q
  end.

Definition add : spec_float -> spec_float -> spec_float := SFadd 53 1024.
Definition sub : spec_float -> spec_float -> spec_float := SFsub 53 1024.
Definition mul : spec_float -> spec_float -> spec_float := SFmul 53 1024.
Definition div : spec_float -> spec_float -> spec_float := SFdiv 53 1024.

(** [1 + 0.2 * k], the literal [0.2] being one fifth rounded. *)
Definition multiplier (k : Z) : spec_float :=
  add (ofZ 1) (mul (div (ofZ 1) (ofZ 5)) (ofZ k)).

End IEEE.

(** ** Constants *)

Module Constants.
Definition TICK_UNIT_INCREMENT : Z := 1.
Definition TICK_RATE_MS : Z := 7.
Definition POSITION_THRESHOLD : Z := 40.
Definition BOTTOM_ROW : Z := 350.
Definition BONUS_NOTES_PERCENTAGE : Z := 90.
End Constants.

(** ** Data model *)

(** [Tail].  [NextNote] builds a tail without a [dead] field; the engine
    reads the field through truthiness tests only, so the field is an
    [option bool] with [None] for the absent value. *)
Record Tail := mkTail {
  tailStart : Q;
  tailEnd : Q;
  dead : option bool
}.

Record Note := mkNote {
  id : Z;
  special : bool;
  visual : bool;
  position : Z;
  column : Z;
  instrumentName : string;
  velocity : Z;
  pitch : Z;
  start : Q;
  end_ : Q;
  tail : option Tail
}.

Record State := mkState {
  gameEnd : bool;
  allNotesProcessed : bool;
  bonusActive : Z;
  tickInterval : Z;
  hash : Z;
  noteCount : Z;
  scoreGained : Z;
  currentNotes : list Note;
  RIPNotes : list Note;
  playableNotes : list Note
}.

(** Object spreads [{ ...note, field: v }]. *)
Definition with_position (n : Note) (p : Z) : Note :=
  mkNote (id n) (special n) (visual n) p (column n) (instrumentName n)
         (velocity n) (pitch n) (start n) (end_ n) (tail n).

Definition with_visual (n : Note) (v : bool) : Note :=
  mkNote (id n) (special n) v (position n) (column n) (instrumentName n)
         (velocity n) (pitch n) (start n) (end_ n) (tail n).

Definition with_tail (n : Note) (t : option Tail) : Note :=
  mkNote (id n) (special n) (visual n) (position n) (column n)
         (instrumentName n) (velocity n) (pitch n) (start n) (end_ n) t.

Definition with_special (n : Note) (b : bool) : Note :=
  mkNote (id n) b (visual n) (position n) (column n) (instrumentName n)
         (velocity n) (pitch n) (start n) (end_ n) (tail n).

Definition with_column (n : Note) (c : Z) : Note :=
  mkNote (id n) (special n) (visual n) (position n) c (instrumentName n)
         (velocity n) (pitch n) (start n) (end_ n) (tail n).

Definition with_dead (t : Tail) (d : option bool) : Tail :=
  mkTail (tailStart t) (tailEnd t) d.

(** ** The physics step [tick] *)

Definition TickSound : Type := option Note * option Note.

(** [updateTail], the local helper of [updateNotePosition]. *)
Definition updateTail (positionIncrement bottomRow : Z)
    (t : Tail) (vis : bool) : Tail :=
  mkTail (tailStart t + inject_Z positionIncrement)%Q
         (if vis then (tailEnd t + inject_Z positionIncrement)%Q
          else inject_Z bottomRow)
         (if vis then Some false else dead t).

Definition updateNotePosition (positionIncrement bottomRow : Z)
    (note : Note) : TickSound :=
  let newY := position note + positionIncrement in
  match tail note with
  | Some t =>
      let updatedTail :=
        updateTail positionIncrement bottomRow t (visual note) in
      let updatedNote :=
        with_tail (with_position note newY) (Some updatedTail) in
      if visual note then
        if Qeq_bool (tailEnd updatedTail) (inject_Z bottomRow) then
          if JS.Qltb (tailStart updatedTail) (inject_Z bottomRow)
          then (Some (with_tail (with_visual updatedNote false)
                                (Some (with_dead updatedTail (Some true)))),
                None)
          else (None, None)
        else
          if JS.Qltb (tailStart updatedTail) (inject_Z bottomRow)
          then (Some updatedNote, None)
          else (None, None)
      else
        if newY =? bottomRow then (Some updatedNote, Some updatedNote)
        else
          if JS.Qltb (tailStart updatedTail) (inject_Z bottomRow)
          then (Some updatedNote, None)
          else (None, None)
  | None =>
      if newY <=? bottomRow then
        if visual note then
          if newY <? bottomRow then (Some (with_position note newY), None)
          else if newY =? bottomRow then (None, None)
          else (None, None)
        else
          if newY <? bottomRow then (Some (with_position note newY), None)
          else if newY =? bottomRow then (None, Some (with_position note newY))
          else (None, None)
      else (None, None)
  end.

Definition updatePositionForGame : Note -> TickSound :=
  updateNotePosition Constants.TICK_UNIT_INCREMENT Constants.BOTTOM_ROW.

Record AccNoteSound := mkAcc {
  newCurrentNotes : list Note;
  newPlayableNotes : list Note
}.

Definition initAccNoteSound : AccNoteSound := mkAcc [] [].

(** The callback of the [reduce] over [s.currentNotes]. *)
Definition tickStep (acc : AccNoteSound) (note : Note) : AccNoteSound :=
  let '(updatedNote, playableNote) := updatePositionForGame note in
  mkAcc (match updatedNote with
         | Some u => newCurrentNotes acc ++ [u]
         | None => newCurrentNotes acc
         end)
        (match playableNote with
         | Some p => newPlayableNotes acc ++ [p]
         | None => newPlayableNotes acc
         end).

Definition tickNotes (l : list Note) : AccNoteSound :=
  fold_left tickStep l initAccNoteSound.

Definition filterCheck (note : Note) : bool :=
  (position note + 1 =? Constants.BOTTOM_ROW) && visual note.

Definition tick (s : State) : State :=
  let acc := tickNotes (currentNotes s) in
  {| gameEnd :=
       allNotesProcessed s
       && (List.length (newCurrentNotes acc) =? 0)%nat
       && (List.length (newPlayableNotes acc) =? 0)%nat
       && (List.length (RIPNotes s) =? 0)%nat;
     allNotesProcessed := allNotesProcessed s;
     bonusActive := bonusActive s;
     tickInterval := tickInterval s;
     hash := hash s;
     noteCount :=
       if (List.length (filter filterCheck (newCurrentNotes acc)) =? 0)%nat
       then noteCount s else bonusActive s;
     scoreGained := scoreGained s;
     currentNotes := newCurrentNotes acc;
     RIPNotes := currentNotes s;
     playableNotes := newPlayableNotes acc |}.

(** ** The action set

    One constructor per class that implements [Action]; the [apply]
    methods follow below. *)

Inductive Action : Type :=
| ButtonClick (c : Z)
| ButtonRelease (c : Z)
| TickGame
| GameEnd
| NextNote (batch : list Note)
| RandomiseNotes.

(** ** The generator

    [RNG] is imported from [util.ts], which is not among the sources.  The
    engine below takes [RNG.hash] and [RNG.scale] as parameters; the
    instance here serves to run the engine on concrete inputs. *)

Module SampleRNG.

Definition m : Z := 2 ^ 31.

(** Modelled from the spec: [RNG.hash] of [util.ts] (absent).  The spec
    (4.1) asks that [hash] advance a seed deterministically; this is a
    linear congruential step. *)
Definition hash (seed : Z) : Z := (1103515245 * seed + 12345) mod m.

(** Modelled from the spec: [RNG.scale] of [util.ts] (absent).  The spec
    (4.1) asks that [scale] map a seed to a value in [[0,1)] without
    advancing it. *)
Definition scale (h : Z) : Q := Qmake (h mod m) (Z.to_pos m).

End SampleRNG.

(** ** Sample charts and states *)

Module Examples.

(** A chart record as the parser emits it: position 0. *)
Definition chartNote (i : Z) (vis : bool) (col : Z) (from to : Q) : Note :=
  {| id := i; special := false; visual := vis; position := 0; column := col;
     instrumentName := "piano"; velocity := 64; pitch := 60 + col;
     start := from; end_ := to; tail := None |}.

(** A tap in column 0, a sustain of 1500 ms in column 0, and a background
    (non-visual) note of 1500 ms in column 1. *)
Definition tap : Note := chartNote 1 true 0 0 0.
Definition sustain : Note := chartNote 2 true 0 0 1500.
Definition background : Note := chartNote 3 false 1 0 1500.

Definition stateOf (bonus ticks combo score : Z) (notes : list Note) : State :=
  {| gameEnd := false; allNotesProcessed := false; bonusActive := bonus;
     tickInterval := ticks; hash := 1; noteCount := combo;
     scoreGained := score; currentNotes := notes; RIPNotes := notes;
     playableNotes := [] |}.

(** A tap inside the hit window; ten taps have been hit before it. *)
Definition tapInWindow : Note :=
  {| id := 1; special := false; visual := true; position := 340; column := 0;
     instrumentName := "piano"; velocity := 64; pitch := 60;
     start := 0; end_ := 0; tail := None |}.

Definition comboTen : State := stateOf 0 0 10 10 [tapInWindow].

(** The same tap with the combo at 0. *)
Definition comboZero : State := stateOf 0 0 0 0 [tapInWindow].

(** A sustain that is being held (hit, not yet released) in column 0, with
    the combo and the score at 11. *)
Definition heldSustain : Note :=
  {| id := 2; special := false; visual := false; position := 345; column := 0;
     instrumentName := "piano"; velocity := 64; pitch := 60;
     start := 0; end_ := 1500;
     tail := Some {| tailStart := 915 # 7; tailEnd := 350;
                     dead := Some false |} |}.

Definition holding : State := stateOf 0 0 11 11 [heldSustain].

(** The sustain of the chart one step after it has been spawned. *)
Definition spawnedSustain : Note :=
  {| id := 2; special := false; visual := true; position := 1; column := 0;
     instrumentName := "piano"; velocity := 64; pitch := 60;
     start := 0; end_ := 1500;
     tail := Some {| tailStart := - 1493 # 7; tailEnd := 1;
                     dead := Some false |} |}.

(** A bonus pool of 100 at the end of a decay cycle. *)
Definition decaying : State := stateOf 100 285 200 0 [].

(** Three notes without tail: one far from the bottom row, a non-visual
    one and a visual one a single increment above it. *)
Definition falling : Note :=
  {| id := 4; special := false; visual := true; position := 10; column := 2;
     instrumentName := "flute"; velocity := 50; pitch := 62;
     start := 0; end_ := 200; tail := None |}.

Definition autoPlayed : Note :=
  {| id := 5; special := false; visual := false; position := 349; column := 1;
     instrumentName := "violin"; velocity := 50; pitch := 61;
     start := 0; end_ := 200; tail := None |}.

Definition missed : Note :=
  {| id := 6; special := false; visual := true; position := 349; column := 3;
     instrumentName := "flute"; velocity := 50; pitch := 63;
     start := 0; end_ := 200; tail := None |}.

Definition nearMiss : Note :=
  {| id := 7; special := false; visual := true; position := 348; column := 3;
     instrumentName := "flute"; velocity := 50; pitch := 63;
     start := 0; end_ := 200; tail := None |}.

Definition bottomRow : State :=
  stateOf 100 3 250 0 [falling; autoPlayed; missed].

Definition closeCall : State := stateOf 100 3 250 0 [falling; nearMiss].

(** Scripts for the reducer.  [holdAndLetGo]: a sustain is spawned, falls
    into the hit window, is hit and is released early. *)
Definition holdAndLetGo : list Action :=
  NextNote [sustain] :: repeat TickGame 320
  ++ [ButtonClick 0; ButtonRelease 0].

(** A whole game with one tap that is never pressed. *)
Definition oneTapGame : list Action :=
  NextNote [tap] :: GameEnd :: repeat TickGame 400.

(** Three taps of column 0 inside the hit window, with the combo and the
    score at 19; five sustains held in column 0, with the combo at 10 and
    the score at 40. *)
Definition tapAt (i : Z) : Note :=
  {| id := i; special := false; visual := true; position := 340; column := 0;
     instrumentName := "piano"; velocity := 64; pitch := 60;
     start := 0; end_ := 0; tail := None |}.

Definition threeTaps : State := stateOf 0 0 19 19 (map tapAt [31; 32; 33]).

Definition heldAt (i : Z) : Note :=
  {| id := i; special := false; visual := false; position := 345; column := 0;
     instrumentName := "piano"; velocity := 64; pitch := 60;
     start := 0; end_ := 1500;
     tail := Some {| tailStart := 915 # 7; tailEnd := 350;
                     dead := Some false |} |}.

Definition fiveHeld : State :=
  stateOf 0 0 10 40 (map heldAt [41; 42; 43; 44; 45]).

End Examples.

(** ** The actions *)

Section Engine.

Variable RNG_hash : Z -> Z.
Variable RNG_scale : Z -> Q.

Definition initialState : State :=
  {| gameEnd := false;
     allNotesProcessed := false;
     bonusActive := 0;
     tickInterval := 0;
     hash := RNG_hash 3847589;
     noteCount := 0;
     scoreGained := 0;
     currentNotes := [];
     RIPNotes := [];
     playableNotes := [] |}.

(** *** [ButtonRelease] *)

(** The test that [ButtonRelease.apply] repeats in its three passes:
    [note.tail !== undefined && note.column === this.column &&
     !note.visual && !note.tail.dead]. *)
Definition heldTail (c : Z) (note : Note) : bool :=
  match tail note with
  | Some t => (column note =? c) && negb (visual note)
              && negb (JS.truthy (dead t))
  | None => false
  end.

(** [1 + 0.2 * Math.floor(s.noteCount / 10)]. *)
Definition releasePenalty (s : State) : Q :=
  JS.fadd 1
    (JS.fmul (JS.round64 0.2)
       (inject_Z (JS.Math_floor (JS.fdiv (inject_Z (noteCount s)) 10)))).

Definition releaseNote (c : Z) (note : Note) : Note :=
  match tail note with
  | Some t =>
      if (column note =? c) && negb (visual note) && negb (JS.truthy (dead t))
      then with_tail note (Some (with_dead t (Some true)))
      else note
  | None => note
  end.

Definition ButtonRelease_apply (c : Z) (s : State) : State :=
  let scoreGainedModified : Q :=
    fold_left (fun acc note =>
                 if heldTail c note then JS.fsub acc (releasePenalty s)
                 else acc)
              (currentNotes s) (inject_Z (scoreGained s)) in
  let noteCountModification : Z :=
    fold_left (fun acc note =>
                 if heldTail c note then bonusActive s else acc)
              (currentNotes s) (noteCount s) in
  let currentNotes' := map (releaseNote c) (currentNotes s) in
  {| gameEnd := gameEnd s;
     allNotesProcessed := allNotesProcessed s;
     bonusActive := bonusActive s;
     tickInterval := tickInterval s;
     hash := hash s;
     noteCount := noteCountModification;
     scoreGained := JS.toInt32 scoreGainedModified;
     currentNotes := currentNotes';
     RIPNotes := currentNotes s;
     playableNotes := playableNotes s |}.

(** *** [ButtonClick] *)

Record Accumulator := mkAccumulator {
  triggered : bool;
  accScoreGained : Q;
  notePressed : Z;
  specialGained : Z
}.

(** The hit test that [ButtonClick.apply] repeats in its two passes. *)
Definition inHitWindow (c : Z) (note : Note) : bool :=
  (Constants.BOTTOM_ROW - Constants.POSITION_THRESHOLD <=? position note)
  && (position note <? Constants.BOTTOM_ROW)
  && (column note =? c)
  && visual note.

Definition pressStep (c : Z) (acc : Accumulator) (note : Note) : Accumulator :=
  if inHitWindow c note then
    if special note then
      {| triggered := true;
         accScoreGained := accScoreGained acc;
         notePressed := notePressed acc + 100;
         specialGained := specialGained acc + 100 |}
    else
      {| triggered := true;
         accScoreGained :=
           JS.fadd (accScoreGained acc)
             (JS.fadd 1
                (JS.fmul (JS.round64 0.2)
                   (inject_Z
                      (JS.toInt32
                         (JS.fdiv (inject_Z (notePressed acc)) 10)))));
         notePressed := notePressed acc + 1;
         specialGained := specialGained acc |}
  else acc.

Definition pressNote (c : Z) (note : Note) : Note :=
  if inHitWindow c note then with_visual note false else note.

Definition instrumentList : list string :=
  ["piano"; "violin"; "flute"; "saxophone"; "trumpet"; "bass-electric"]%string.

(** [instrumentList[i]]; an index outside the array reads [undefined]. *)
Definition instrumentAt (i : Z) : string :=
  if (0 <=? i) && (i <? Z.of_nat (List.length instrumentList))
  then nth (Z.to_nat i) instrumentList "undefined"%string
  else "undefined"%string.

(** The synthetic note of a wrong press.  The source object has the five
    playback fields only; the fields it leaves out are never read by the
    engine and stand here at [0], [false] and [None]. *)
Definition wrongNote (h : Z) : Note :=
  {| id := 0;
     special := false;
     visual := false;
     position := 0;
     column := 0;
     instrumentName :=
       instrumentAt
         (JS.toInt32
            (RNG_scale h * inject_Z (Z.of_nat (List.length instrumentList)))%Q);
     velocity := JS.toInt32 (RNG_scale h * 90)%Q;
     pitch := JS.toInt32 (RNG_scale h * 70)%Q;
     start := 0%Q;
     end_ := inject_Z (JS.toInt32 (RNG_scale h * 500)%Q);
     tail := None |}.

Definition sustainedIn (c : Z) (note : Note) : bool :=
  (column note =? c) && negb (visual note)
  && match tail note with Some _ => true | None => false end.

Definition ButtonClick_apply (c : Z) (s : State) : State :=
  let initialAcc :=
    {| triggered := false;
       accScoreGained := inject_Z (scoreGained s);
       notePressed := noteCount s;
       specialGained := bonusActive s |} in
  let trig := fold_left (pressStep c) (currentNotes s) initialAcc in
  let currentNotes' := map (pressNote c) (currentNotes s) in
  let checkWrongPress :=
    negb (triggered trig)
    && (List.length (filter (sustainedIn c) currentNotes') =? 0)%nat in
  {| gameEnd := gameEnd s;
     allNotesProcessed := allNotesProcessed s;
     bonusActive := specialGained trig;
     tickInterval := tickInterval s;
     hash := RNG_hash (hash s);
     noteCount := if checkWrongPress then bonusActive s else notePressed trig;
     scoreGained := JS.toInt32 (accScoreGained trig);
     currentNotes := currentNotes';
     RIPNotes := currentNotes s;
     playableNotes :=
       if checkWrongPress then playableNotes s ++ [wrongNote (hash s)]
       else playableNotes s |}.

(** *** [TickGame] and [GameEnd] *)

(** [~~(2000 / Constants.TICK_RATE_MS)]. *)
Definition decayPeriod : Z :=
  JS.toInt32 (2000 / inject_Z Constants.TICK_RATE_MS)%Q.

Definition TickGame_apply (s : State) : State :=
  let bonusFlag :=
    (0 <? bonusActive s)
    && negb (tickInterval s =? 0)
    && (Z.rem (tickInterval s) decayPeriod =? 0) in
  let updatedStat := tick s in
  {| gameEnd := gameEnd updatedStat;
     allNotesProcessed := allNotesProcessed updatedStat;
     bonusActive := if bonusFlag then bonusActive s - 50 else bonusActive s;
     tickInterval :=
       if (0 <? bonusActive s)
          && ((tickInterval s =? 0)
              || negb (Z.rem (tickInterval s) decayPeriod =? 0))
       then tickInterval s + 1 else 0;
     hash := hash updatedStat;
     noteCount :=
       if bonusFlag then noteCount updatedStat - 50 else noteCount updatedStat;
     scoreGained := scoreGained updatedStat;
     currentNotes := currentNotes updatedStat;
     RIPNotes := RIPNotes updatedStat;
     playableNotes := playableNotes updatedStat |}.

Definition with_allNotesProcessed (s : State) (b : bool) : State :=
  {| gameEnd := gameEnd s;
     allNotesProcessed := b;
     bonusActive := bonusActive s;
     tickInterval := tickInterval s;
     hash := hash s;
     noteCount := noteCount s;
     scoreGained := scoreGained s;
     currentNotes := currentNotes s;
     RIPNotes := RIPNotes s;
     playableNotes := playableNotes s |}.

Definition GameEnd_apply (s : State) : State :=
  tick (with_allNotesProcessed s true).

(** *** [NextNote] *)

(** The callback of the [map] over the spawned batch. *)
Definition spawnNote (h : Z) (note : Note) : Note :=
  let duration := (end_ note - start note)%Q in
  if visual note && JS.Qltb 1000%Q duration then
    let tailLength := (duration / inject_Z Constants.TICK_RATE_MS)%Q in
    with_tail note
      (Some {| tailStart := (inject_Z (position note) - tailLength)%Q;
               tailEnd := inject_Z (position note);
               dead := None |})
  else
    with_tail
      (with_special note
         (JS.toInt32 (RNG_scale h * 100)%Q
          >=? Constants.BONUS_NOTES_PERCENTAGE))
      None.

Definition NextNote_apply (batch : list Note) (s : State) : State :=
  let notesWithTail := map (spawnNote (hash s)) batch in
  tick {| gameEnd := gameEnd s;
          allNotesProcessed := allNotesProcessed s;
          bonusActive := bonusActive s;
          tickInterval := tickInterval s;
          hash := RNG_hash (hash s);
          noteCount := noteCount s;
          scoreGained := scoreGained s;
          currentNotes := currentNotes s ++ notesWithTail;
          RIPNotes := RIPNotes s;
          playableNotes := playableNotes s |}.

(** *** [RandomiseNotes] *)

(** [Array.prototype.map] with the element's index, counted from [idx]. *)
Fixpoint mapi_from {A B : Type} (f : A -> Z -> B) (idx : Z) (l : list A)
  : list B :=
  match l with
  | [] => []
  | x :: l' => f x idx :: mapi_from f (idx + 1) l'
  end.

Definition mapi {A B : Type} (f : A -> Z -> B) (l : list A) : list B :=
  mapi_from f 0 l.

Definition randomiseNote (h : Z) (note : Note) (idx : Z) : Note :=
  if visual note
  then with_column note (JS.toInt32 (RNG_scale (RNG_hash (h + idx)) * 4)%Q)
  else note.

Definition RandomiseNotes_apply (s : State) : State :=
  {| gameEnd := gameEnd s;
     allNotesProcessed := allNotesProcessed s;
     bonusActive := bonusActive s;
     tickInterval := tickInterval s;
     hash := RNG_hash (hash s);
     noteCount := noteCount s;
     scoreGained := scoreGained s;
     currentNotes := mapi (randomiseNote (hash s)) (currentNotes s);
     RIPNotes := RIPNotes s;
     playableNotes := playableNotes s |}.

(** *** The reducer *)

Definition apply (a : Action) (s : State) : State :=
  match a with
  | ButtonClick c => ButtonClick_apply c s
  | ButtonRelease c => ButtonRelease_apply c s
  | TickGame => TickGame_apply s
  | GameEnd => GameEnd_apply s
  | NextNote batch => NextNote_apply batch s
  | RandomiseNotes => RandomiseNotes_apply s
  end.

Definition applyAction (s : State) (a : Action) : State := apply a s.

(** [scan(applyAction, initialState)]: the state after a list of actions. *)
Definition run (actions : list Action) : State :=
  fold_left applyAction actions initialState.

(** The driver of [main]: it folds the actions through [applyAction] and
    unsubscribes as soon as a state has [gameEnd] set, so no action is
    applied to an ended state. *)
Definition driveStep (s : State) (a : Action) : State :=
  if gameEnd s then s else apply a s.

Definition drive (actions : list Action) : State :=
  fold_left driveStep actions initialState.


(** *** The chart scheduler [delayedGroupNotes$]

    The [scan] callback is embedded as written.  Reading the first note of
    an empty group throws; the scan then stops with what it has emitted.
    [concatMap] with [delay] emits the batches one after the other, each
    [delayIt] after the one before; RxJS's [timer] takes a negative due
    time as 0. *)

Record DelayedNotes := mkDelayedNotes {
  delayIt : Q;
  storeStart : option Q;
  group : list Note
}.

(** The seed of the scan. *)
Definition initialStore (initialStart : option Q) : DelayedNotes :=
  {| delayIt := 0; storeStart := initialStart; group := [] |}.

(** The callback of the scan; [None] is the [TypeError] of
    [currentNote[0].start] on an empty group. *)
Definition delayStep (store : DelayedNotes) (currentNote : list Note)
  : option DelayedNotes :=
  match currentNote with
  | [] => None
  | first :: _ =>
      Some {| storeStart := Some (start first);
              delayIt := match storeStart store with
                         | None => 0
                         | Some previous => start first - previous
                         end;
              group := currentNote |}
  end.

(** The values the scan emits, and whether it ran to the end. *)
Fixpoint scanDelayed (store : DelayedNotes) (groups : list (list Note))
  : list DelayedNotes * bool :=
  match groups with
  | [] => ([], true)
  | g :: rest =>
      match delayStep store g with
      | None => ([], false)
      | Some d =>
          let '(out, ok) := scanDelayed d rest in (d :: out, ok)
      end
  end.

Definition delayedGroupNotes (initialStart : option Q)
    (groups : list (list Note)) : list DelayedNotes * bool :=
  scanDelayed (initialStore initialStart) groups.

(** The time of each emission, counted from [t]: the delays add up. *)
Fixpoint emissionTimes (t : Q) (emitted : list DelayedNotes) : list Q :=
  match emitted with
  | [] => []
  | d :: rest =>
      let due := if JS.Qltb (delayIt d) 0 then 0%Q else delayIt d in
      (t + due)%Q :: emissionTimes (t + due) rest
  end.


(** *** The audio of the subscriber: [playNotes] and [suppressNotes]

    The two functions are embedded as the list of calls they make on the
    samplers, in order.  [samples] tells which instrument names are keys
    of the sampler table: a call on a missing sampler throws and ends the
    [forEach].  [Tone.Frequency(pitch, "midi").toNote()] is kept as the
    MIDI number. *)

Inductive AudioCall : Type :=
| triggerAttack (instrument : string) (midi : Z) (vel : Q)
| releaseAfter (instrument : string) (midi : Z) (timeout : Q)
| triggerAttackRelease (instrument : string) (midi : Z) (duration vel : Q)
| triggerRelease (instrument : string) (midi : Z).

(** The calls for one playable note; [None] when the sampler is missing. *)
Definition playNote (samples : string -> bool) (note : Note)
  : option (list AudioCall) :=
  if samples (instrumentName note) then
    match tail note with
    | Some _ =>
        Some [triggerAttack (instrumentName note) (pitch note)
                (inject_Z (velocity note) / 127);
              releaseAfter (instrumentName note) (pitch note)
                (end_ note - start note)]
    | None =>
        Some [triggerAttackRelease (instrumentName note) (pitch note)
                ((end_ note - start note) / 1000)
                (inject_Z (velocity note) / 127)]
    end
  else None.

Definition suppressNote (samples : string -> bool) (note : Note)
  : option (list AudioCall) :=
  if samples (instrumentName note)
  then Some [triggerRelease (instrumentName note) (pitch note)]
  else None.

(** [forEach] with a callback that may throw: the calls made, and whether
    the loop ran to the end. *)
Fixpoint forEachCall (f : Note -> option (list AudioCall)) (l : list Note)
  : list AudioCall * bool :=
  match l with
  | [] => ([], true)
  | note :: rest =>
      match f note with
      | None => ([], false)
      | Some calls =>
          let '(more, ok) := forEachCall f rest in (calls ++ more, ok)
      end
  end.

Definition playNotes (samples : string -> bool) (s : State)
  : list AudioCall * bool :=
  if (0 <? List.length (playableNotes s))%nat
  then forEachCall (playNote samples) (playableNotes s)
  else ([], true).

(** The filter of [suppressNotes]:
    [!note.visual && note.tail !== undefined && note.tail.dead]. *)
Definition deadSustain (note : Note) : bool :=
  negb (visual note)
  && match tail note with
     | Some t => JS.truthy (dead t)
     | None => false
     end.

Definition suppressNotes (samples : string -> bool) (s : State)
  : list AudioCall * bool :=
  forEachCall (suppressNote samples) (filter deadSustain (currentNotes s)).

(** *** The canvas of the subscriber: [removeNotes] and [render]

    The children of the svg element are embedded as the list of their
    ids, in document order: a note with id [i] owns the elements with the
    ids [i], [i-effect], [i-gloss], [i-tail] and [i-starElementId].  The
    attributes of the elements, the text fields and the high score are
    left out.  [getElementById] finds the first element with an id; the
    note elements are taken to be the only elements of the document with
    such ids. *)

Inductive Part : Type := Body | Effect | Gloss | TailRect | Star.

Definition Element : Type := (Z * Part)%type.

Definition Part_eqb (p q : Part) : bool :=
  match p, q with
  | Body, Body | Effect, Effect | Gloss, Gloss
  | TailRect, TailRect | Star, Star => true
  | _, _ => false
  end.

Definition Element_eqb (e f : Element) : bool :=
  (fst e =? fst f) && Part_eqb (snd e) (snd f).

(** [const v = document.getElementById(x); if (v) svg.removeChild(v)]. *)
Fixpoint removeById (e : Element) (svg : list Element) : list Element :=
  match svg with
  | [] => []
  | x :: rest => if Element_eqb x e then rest else x :: removeById e rest
  end.

(** The callback of the [forEach] in [removeNotes]. *)
Definition removeNote (svg : list Element) (o : Note) : list Element :=
  removeById (id o, Star)
    (removeById (id o, TailRect)
       (removeById (id o, Gloss)
          (removeById (id o, Effect)
             (removeById (id o, Body) svg)))).

Definition removeNotes (s : State) (svg : list Element) : list Element :=
  fold_left removeNote (RIPNotes s) svg.

Definition createRealisticDonutCircle (note : Note) (svg : list Element)
  : list Element :=
  svg ++ [(id note, Body); (id note, Effect); (id note, Gloss)].

(** The callback of the [forEach] over [s.currentNotes] in [render]. *)
Definition renderNote (svg : list Element) (note : Note) : list Element :=
  if visual note then
    let svg' :=
      match tail note with
      | Some _ => svg ++ [(id note, TailRect)]
      | None => svg
      end in
    if special note then svg' ++ [(id note, Star)]
    else createRealisticDonutCircle note svg'
  else
    match tail note with
    | Some _ =>
        createRealisticDonutCircle note (svg ++ [(id note, TailRect)])
    | None => svg
    end.

Definition render (s : State) (svg : list Element) : list Element :=
  fold_left renderNote (currentNotes s) (removeNotes s svg).

(** The subscriber renders every state that the scan emits, and
    unsubscribes after a state with [gameEnd] set. *)
Fixpoint renderRun (actions : list Action) (s : State) (svg : list Element)
  : list Element :=
  match actions with
  | [] => svg
  | a :: rest =>
      let s' := apply a s in
      let svg' := render s' svg in
      if gameEnd s' then svg' else renderRun rest s' svg'
  end.

(** The subscriber goes on from [render(s)] to [playNotes(s, samples)] and
    [suppressNotes(s, samples)], and only then to [restartSubscription(s)]
    and to the test of [s.gameEnd]: a call on a missing sampler throws out
    of the subscriber, which then has neither subscribed a restart
    listener for [s] nor unsubscribed.  RxJS (7.2 or later, as the
    operators are imported from the root of the package) reports an error
    thrown by an observer and keeps the subscription. *)
Definition audible (samples : string -> bool) (s : State) : bool :=
  snd (playNotes samples s) && snd (suppressNotes samples s).

(** The states for which a restart listener is subscribed. *)
Fixpoint listeners (samples : string -> bool) (actions : list Action)
    (s : State) : list State :=
  match actions with
  | [] => []
  | a :: rest =>
      let s' := apply a s in
      if audible samples s'
      then s' :: (if gameEnd s' then [] else listeners samples rest s')
      else listeners samples rest s'
  end.

(** Each call of [restartSubscription(s)] subscribes a listener of its own
    to the restart button: a press runs [removeNotes(s)] for every state
    with a listener, in that order. *)
Definition restartPress (states : list State) (svg : list Element)
  : list Element :=
  fold_left (fun canvas s => removeNotes s canvas) states svg.


(** *** The chart grouping [scheduleVisualNotes$] and the stream [nextNote$]

    [groupBy(note => note.start)] keeps its groups in a [Map] keyed by the
    start time, in the order in which the keys first occur, and pushes a
    note to the group of its key; [mergeMap] with [toArray] then emits
    every group as an array when the source completes, in that order.
    [nextNote$] wraps every batch that [delayedGroupNotes$] emits in a
    [NextNote] and ends with [GameEnd]; an error of the scan ends the
    stream without it.

    [pauseKey$] starts with [false] and flips at every press of the space
    bar; [filterWhenNotPaused] lets a value of its source through when the
    latest value of [pauseKey$] is [false], and drops it otherwise.  The
    timers of [delayedGroupNotes$] run on during a pause: [spaces i] is
    the number of presses of the space bar before the [i]-th value of the
    source is due. *)

Definition pauseKey (spaces : nat) : bool := Nat.iter spaces negb false.

Fixpoint filterWhenNotPaused {A : Type} (spaces : nat -> nat) (i : nat)
    (source : list A) : list A :=
  match source with
  | [] => []
  | x :: rest =>
      if pauseKey (spaces i) then filterWhenNotPaused spaces (S i) rest
      else x :: filterWhenNotPaused spaces (S i) rest
  end.

Fixpoint groupInsert (note : Note) (groups : list (Q * list Note))
  : list (Q * list Note) :=
  match groups with
  | [] => [(start note, [note])]
  | (key, g) :: rest =>
      if Qeq_bool key (start note) then (key, g ++ [note]) :: rest
      else (key, g) :: groupInsert note rest
  end.

Definition groupBy (notes : list Note) : list (Q * list Note) :=
  fold_left (fun groups note => groupInsert note groups) notes [].

Definition scheduleVisualNotes (notes : list Note) : list (list Note) :=
  map snd (groupBy notes).

Definition nextNote (spaces : nat -> nat) (notes : list Note)
  : list Action :=
  let '(batches, completed) :=
    delayedGroupNotes None (scheduleVisualNotes notes) in
  map (fun d => NextNote (group d)) (filterWhenNotPaused spaces 0 batches)
  ++ (if completed then [GameEnd] else []).

(** ** Specification vocabulary *)

(** *** The driver *)

(** The chart scheduler spawns notes at position 0 (the parser writes
    [position: 0] into every record). *)
Definition chartAction (a : Action) : Prop :=
  match a with
  | NextNote batch => Forall (fun n => position n = 0) batch
  | _ => True
  end.

Definition chartActionb (a : Action) : bool :=
  match a with
  | NextNote batch => forallb (fun n => position n =? 0) batch
  | _ => true
  end.

(** The states the driver can reach: from [initialState], one chart-fed
    action at a time, and never past a state with [gameEnd] set. *)
Inductive reachable : State -> Prop :=
| reach_init : reachable initialState
| reach_step (s : State) (a : Action) :
    reachable s -> gameEnd s = false -> chartAction a ->
    reachable (apply a s).

(** The emptiness that [gameEnd] stands for. *)
Definition drained (s : State) : Prop :=
  allNotesProcessed s = true
  /\ currentNotes s = []
  /\ playableNotes s = []
  /\ RIPNotes s = [].

(** What every run keeps of the counters: the bonus pool is a non-negative
    multiple of 50 that the combo never falls below, and the score is a
    signed 32-bit integer. *)
Definition countersOk (s : State) : Prop :=
  0 <= bonusActive s <= noteCount s
  /\ (50 | bonusActive s)
  /\ - 2 ^ 31 <= scoreGained s < 2 ^ 31.

(** *** The physics step *)

(** The two halves of the partition that one physics step computes. *)
Definition survivors (l : list Note) : list Note :=
  newCurrentNotes (tickNotes l).

Definition sounds (l : list Note) : list Note :=
  newPlayableNotes (tickNotes l).

(** What one note contributes to each half. *)
Definition keptOf (n : Note) : list Note :=
  match fst (updatePositionForGame n) with Some u => [u] | None => [] end.

Definition soundOf (n : Note) : list Note :=
  match snd (updatePositionForGame n) with Some p => [p] | None => [] end.

(** A visual note one increment above the bottom row. *)
Definition aboutToMiss (n : Note) : Prop :=
  position n + 1 = Constants.BOTTOM_ROW /\ visual n = true.

Definition hasTail (n : Note) : Prop := tail n <> None.

(** *** Presses and releases *)

(** The notes that a press of column [c] hits, in array order. *)
Definition hitsOf (c : Z) (s : State) : list Note :=
  filter (inHitWindow c) (currentNotes s).

Definition countSpecial (l : list Note) : Z :=
  Z.of_nat (List.length (filter special l)).

Definition countNormal (l : list Note) : Z :=
  Z.of_nat (List.length (filter (fun n => negb (special n)) l)).

(** [1 + 0.2 * k] as the doubles compute it. *)
Definition multiplier (k : Z) : Q :=
  JS.fadd 1 (JS.fmul (JS.round64 0.2) (inject_Z k)).

(** The double that a score [score] has become after a run of hit notes,
    added one by one in the order of the run, when the combo stands at
    [combo] before the first of them: a special note adds nothing and
    lifts the combo by 100, a normal note adds
    [1 + 0.2 * ~~(combo / 10)] and lifts the combo by 1. *)
Fixpoint hitScore (score : Q) (combo : Z) (hits : list Note) : Q :=
  match hits with
  | [] => score
  | n :: rest =>
      if special n then hitScore score (combo + 100) rest
      else hitScore
             (JS.fadd score
                (multiplier (JS.toInt32 (JS.fdiv (inject_Z combo) 10))))
             (combo + 1) rest
  end.

(** The same sum with the multiplier written [floor(combo / 10)]. *)
Fixpoint floorScore (score : Q) (combo : Z) (hits : list Note) : Q :=
  match hits with
  | [] => score
  | n :: rest =>
      if special n then floorScore score (combo + 100) rest
      else floorScore (JS.fadd score (multiplier (combo / 10)))
             (combo + 1) rest
  end.

(** The double that a score has become after [k] penalties were taken
    off it one by one. *)
Definition penalised (k : nat) (penalty score : Q) : Q :=
  Nat.iter k (fun acc => JS.fsub acc penalty) score.

(** *** Notes compared field by field *)

(** Every field but [position], [visual] and [tail] is the same. *)
Definition sameEvent (n n' : Note) : Prop :=
  id n' = id n /\ special n' = special n /\ column n' = column n
  /\ instrumentName n' = instrumentName n /\ velocity n' = velocity n
  /\ pitch n' = pitch n /\ start n' = start n /\ end_ n' = end_ n.

(** [n'] is [n] moved [d] rows down. *)
Definition moved (d : Z) (n n' : Note) : Prop :=
  position n' = position n + d /\ visual n' = visual n
  /\ tail n' = tail n /\ sameEvent n n'.

(** [n'] is [n] with its visual flag cleared. *)
Definition consumed (n n' : Note) : Prop :=
  visual n' = false /\ position n' = position n
  /\ tail n' = tail n /\ sameEvent n n'.

(** [n'] is [n] with its tail marked dead: the tail keeps its extent. *)
Definition silenced (n n' : Note) : Prop :=
  (exists t t', tail n = Some t /\ tail n' = Some t'
                /\ dead t' = Some true
                /\ tailStart t' = tailStart t /\ tailEnd t' = tailEnd t)
  /\ position n' = position n /\ visual n' = visual n /\ sameEvent n n'.

(** The number of sustains that a release of column [c] ends early. *)
Definition heldCount (c : Z) (s : State) : nat :=
  List.length (filter (heldTail c) (currentNotes s)).

(** Ending a sustain: the tail is marked dead, nothing else changes. *)
Definition markDead (n : Note) : Note :=
  match tail n with
  | Some t => with_tail n (Some (with_dead t (Some true)))
  | None => n
  end.

(** *** Decay and spawning *)

(** The decay cycle of [TickGame] is due: the bonus pool is not empty and
    the decay counter is a non-zero multiple of [decayPeriod], the 285
    ticks that make up 2000 ms. *)
Definition decayDue (s : State) : Prop :=
  0 < bonusActive s /\ tickInterval s <> 0
  /\ (decayPeriod | tickInterval s).

(** A chart note that [NextNote] turns into a sustain: visual, and longer
    than the threshold of 1000 ms. *)
Definition sustainEvent (n : Note) : Prop :=
  visual n = true /\ (1000 < end_ n - start n)%Q.

(** The flag that [NextNote] draws for the notes of a batch without tail. *)
Definition specialDraw (h : Z) : bool :=
  JS.toInt32 (RNG_scale h * 100) >=? Constants.BONUS_NOTES_PERCENTAGE.


(** *** Runs of ticks *)

(** An upper bound on the number of physics steps a note can survive: the
    steps its head needs to reach the bottom row, plus the steps the start
    of its tail needs. *)
Definition ticksToLive (n : Note) : nat :=
  (match tail n with
   | Some t =>
       Z.to_nat (Qceiling (inject_Z Constants.BOTTOM_ROW - tailStart t))
   | None => 0
   end
   + Z.to_nat (Constants.BOTTOM_ROW - position n))%nat.

(** The number of physics steps after which a list of notes is empty for
    sure: 0 for the empty list. *)
Definition lifetime (l : list Note) : nat :=
  list_max (map (fun n => S (ticksToLive n)) l).

(** The actions that run the physics step, and the lists of actions
    without a spawn. *)
Definition isTick (a : Action) : bool :=
  match a with TickGame | GameEnd => true | _ => false end.

Definition isSpawn (a : Action) : bool :=
  match a with NextNote _ => true | _ => false end.

Definition countTicks (actions : list Action) : nat :=
  List.length (filter isTick actions).

(** The number of ticks the end of the game is away at most, once the
    chart is exhausted. *)
Definition ticksToEnd (s : State) : nat :=
  match currentNotes s with
  | _ :: _ => lifetime (currentNotes s) + 2
  | [] =>
      match RIPNotes s with
      | _ :: _ => 2
      | [] => if gameEnd s then 0 else 1
      end
  end.

(** The ids of the live notes are pairwise distinct. *)
Definition uniqueIds (l : list Note) : Prop := NoDup (map id l).


(** The notes an action brings in. *)
Definition batchOf (a : Action) : list Note :=
  match a with NextNote batch => batch | _ => [] end.


(** *** The generator's contract *)

(** [RNG.scale] yields values in [[0,1)]. *)
Definition scaleInUnit : Prop :=
  forall h : Z, (0 <= RNG_scale h)%Q /\ (RNG_scale h < 1)%Q.

(** Every note is in one of the four lanes. *)
Definition inLanes (l : list Note) : Prop :=
  Forall (fun n => 0 <= column n < 4) l.


(** *** Sustains that still sound *)

(** The note has a tail that is not dead. *)
Definition liveTail (n : Note) : Prop :=
  exists t, tail n = Some t /\ JS.truthy (dead t) = false.

(** No visual note carries a dead tail. *)
Definition noDeadVisual (l : list Note) : Prop :=
  forall n t, In n l -> visual n = true -> tail n = Some t ->
              JS.truthy (dead t) = false.


(** *** The chart *)

(** The groups of a chart are not empty and their start times do not
    decrease. *)
Definition groupStart (g : list Note) : option Q :=
  match g with first :: _ => Some (start first) | [] => None end.

Fixpoint ascendingFrom (previous : Q) (groups : list (list Note)) : Prop :=
  match groups with
  | [] => True
  | g :: rest =>
      match groupStart g with
      | Some t => (previous <= t)%Q /\ ascendingFrom t rest
      | None => False
      end
  end.

Definition ascendingChart (groups : list (list Note)) : Prop :=
  match groups with
  | [] => True
  | g :: rest =>
      match groupStart g with
      | Some t => ascendingFrom t rest
      | None => False
      end
  end.

(** Each time of [times] is the start of the matching group, counted from
    [origin]. *)
Definition onSchedule (origin : Q) (times : list Q)
    (groups : list (list Note)) : Prop :=
  Forall2 (fun time g =>
             exists t, groupStart g = Some t /\ (time == t - origin)%Q)
          times groups.


(** *** The canvas *)

(** The elements that [render] draws for a list of notes on an empty
    canvas. *)
Definition drawn (l : list Note) : list Element :=
  fold_left renderNote l [].

(** Along the run every batch brings ids that no live note has. *)
Fixpoint freshRun (s : State) (actions : list Action) : Prop :=
  match actions with
  | [] => True
  | a :: rest =>
      uniqueIds (currentNotes s ++ batchOf a) /\ freshRun (apply a s) rest
  end.

Definition isRandomise (a : Action) : bool :=
  match a with RandomiseNotes => true | _ => false end.


(** The ids of the live notes are among the ids of the removal report. *)
Definition reportCovers (s : State) : Prop :=
  incl (map id (currentNotes s)) (map id (RIPNotes s)).


(** The start times of a chart do not decrease. *)
Fixpoint ascendingStarts (previous : Q) (notes : list Note) : Prop :=
  match notes with
  | [] => True
  | n :: rest => (previous <= start n)%Q /\ ascendingStarts (start n) rest
  end.

Definition sortedByStart (notes : list Note) : Prop :=
  match notes with
  | [] => True
  | n :: rest => ascendingStarts (start n) rest
  end.

(** The keys of the groups rise strictly, and the last one is at most
    [x]. *)
Fixpoint rising (groups : list (Q * list Note)) (x : Q) : Prop :=
  match groups with
  | [] => True
  | (key, _) :: rest =>
      match rest with
      | [] => (key <= x)%Q
      | (key', _) :: _ => (key < key')%Q /\ rising rest x
      end
  end.

(** Every group is not empty and holds notes that start at its key. *)
Definition keyed (groups : list (Q * list Note)) : Prop :=
  Forall (fun kg => snd kg <> []
                    /\ forall n, In n (snd kg) -> (start n == fst kg)%Q)
         groups.

(** *** Pauses and samplers *)

(** The values of a source that fall due during a pause. *)
Fixpoint heldBack {A : Type} (spaces : nat -> nat) (i : nat)
    (source : list A) : list A :=
  match source with
  | [] => []
  | x :: rest =>
      if pauseKey (spaces i) then x :: heldBack spaces (S i) rest
      else heldBack spaces (S i) rest
  end.

(** No value falls due during a pause. *)
Definition neverPaused (spaces : nat -> nat) : Prop :=
  forall i, pauseKey (spaces i) = false.

(** Along the run the sampler calls of every state run to the end. *)
Fixpoint soundRun (samples : string -> bool) (s : State)
    (actions : list Action) : Prop :=
  match actions with
  | [] => True
  | a :: rest =>
      audible samples (apply a s) = true
      /\ soundRun samples (apply a s) rest
  end.


(** *** The doubles of the file against the Standard Library's

    [chainAgrees n up m mf a af]: the doubles [a] and [m] of the file
    stand for the floats [af] and [mf], and so do the [n] sums (or
    differences) reached from [a] by adding (subtracting) [m] again and
    again. *)
Fixpoint chainAgrees (n : nat) (up : bool) (m : Q) (mf : spec_float)
    (a : Q) (af : spec_float) : bool :=
  Qeq_bool a (IEEE.toQ af)
  && match n with
     | O => true
     | S n' =>
         if up
         then chainAgrees n' up m mf (JS.fadd a m) (IEEE.add af mf)
         else chainAgrees n' up m mf (JS.fsub a m) (IEEE.sub af mf)
     end.

(** The scores from [lo] on, [count] of them, with the multipliers
    [1 + 0.2 * k] for [k] below [steps]: the quotient by 10, chains of
    [len] hits and of [len] penalties. *)
Definition gridAgrees (lo : Z) (count steps len : nat) : bool :=
  forallb
    (fun i =>
       forallb
         (fun k =>
            Qeq_bool (multiplier (Z.of_nat k))
                     (IEEE.toQ (IEEE.multiplier (Z.of_nat k)))
            && Qeq_bool (JS.fdiv (inject_Z (lo + Z.of_nat i)) 10)
                 (IEEE.toQ
                    (IEEE.div (IEEE.ofZ (lo + Z.of_nat i)) (IEEE.ofZ 10)))
            && chainAgrees len true
                 (multiplier (Z.of_nat k)) (IEEE.multiplier (Z.of_nat k))
                 (inject_Z (lo + Z.of_nat i)) (IEEE.ofZ (lo + Z.of_nat i))
            && chainAgrees len false
                 (multiplier (Z.of_nat k)) (IEEE.multiplier (Z.of_nat k))
                 (inject_Z (lo + Z.of_nat i)) (IEEE.ofZ (lo + Z.of_nat i)))
         (seq 0 steps))
    (seq 0 count).

(** ** Facts about the number helpers *)

Lemma wrap32_small (z : Z) :
  - 2 ^ 31 <= z < 2 ^ 31 -> JS.wrap32 z = z.
Proof.
  intros Hz. unfold JS.wrap32.
  rewrite Z.mod_small; lia.
Qed.

Lemma wrap32_range (z : Z) : - 2 ^ 31 <= JS.wrap32 z < 2 ^ 31.
Proof.
  unfold JS.wrap32.
  pose proof (Z.mod_pos_bound (z + 2 ^ 31) (2 ^ 32) ltac:(lia)). lia.
Qed.

Lemma Qtrunc_inject_Z (z : Z) : JS.Qtrunc (inject_Z z) = z.
Proof. unfold JS.Qtrunc. simpl. apply Z.quot_1_r. Qed.

Lemma toInt32_inject_Z (z : Z) :
  - 2 ^ 31 <= z < 2 ^ 31 -> JS.toInt32 (inject_Z z) = z.
Proof.
  intros Hz. unfold JS.toInt32. rewrite Qtrunc_inject_Z.
  now apply wrap32_small.
Qed.

(** Truncation is [floor] on the non-negative side and its mirror image on
    the negative side. *)
Lemma Qtrunc_floor (q : Q) :
  JS.Qtrunc q = if Qle_bool 0 q then Qfloor q else - Qfloor (- q).
Proof.
  destruct q as [n d]. unfold JS.Qtrunc, Qle_bool, Qfloor, Qopp. simpl.
  rewrite Z.mul_1_r.
  destruct (Z.leb_spec 0 n) as [Hn | Hn].
  - apply Z.quot_div_nonneg; lia.
  - rewrite <- (Z.opp_involutive n) at 1.
    rewrite Z.quot_opp_l by lia.
    rewrite Z.quot_div_nonneg by lia. reflexivity.
Qed.

Lemma Qtrunc_comp (p q : Q) : (p == q)%Q -> JS.Qtrunc p = JS.Qtrunc q.
Proof.
  intros E. rewrite !Qtrunc_floor.
  rewrite (Qleb_comp 0%Q 0%Q (Qeq_refl 0%Q) p q E).
  rewrite (Qfloor_comp p q E).
  rewrite (Qfloor_comp (- p) (- q)) by (now rewrite E).
  reflexivity.
Qed.

Lemma toInt32_comp (p q : Q) : (p == q)%Q -> JS.toInt32 p = JS.toInt32 q.
Proof. intros E. unfold JS.toInt32. now rewrite (Qtrunc_comp p q E). Qed.

Lemma Math_floor_div10 (n : Z) :
  JS.Math_floor (inject_Z n / 10) = n / 10.
Proof. unfold JS.Math_floor. symmetry. apply (Zdiv_Qdiv n 10). Qed.

Lemma Qtrunc_div10 (n : Z) : JS.Qtrunc (inject_Z n / 10) = Z.quot n 10.
Proof.
  unfold JS.Qtrunc, Qdiv, Qmult, Qinv, inject_Z. simpl.
  now rewrite Z.mul_1_r.
Qed.

Lemma toInt32_div10_nonneg (n : Z) :
  0 <= n < 2 ^ 31 -> JS.toInt32 (inject_Z n / 10) = n / 10.
Proof.
  intros Hn. unfold JS.toInt32. rewrite Qtrunc_div10.
  rewrite Z.quot_div_nonneg by lia.
  apply wrap32_small.
  assert (0 <= n / 10) by (apply Z.div_pos; lia).
  assert (n / 10 <= n) by (apply Z.div_le_upper_bound; lia).
  lia.
Qed.

(** Rounding sees the number, not the fraction that writes it. *)
Lemma round64_comp (x y : Q) : (x == y)%Q -> JS.round64 x = JS.round64 y.
Proof. intros E. unfold JS.round64. now rewrite (Qred_complete x y E). Qed.

Lemma roundEven_Z (x : Q) (m : Z) :
  (x == inject_Z m)%Q -> JS.roundEven x = m.
Proof.
  intros E. unfold JS.roundEven.
  rewrite (Qfloor_comp x (inject_Z m) E), Qfloor_Z.
  assert (H : (x - inject_Z m < 1 # 2)%Q) by (rewrite E; lra).
  now rewrite (proj1 (Qlt_alt _ _) H).
Qed.

Lemma Qred_inject_Z (z : Z) : Qred (inject_Z z) = inject_Z z.
Proof.
  unfold Qred, inject_Z.
  pose proof (Z.ggcd_gcd z 1) as Hg.
  pose proof (Z.ggcd_correct_divisors z 1) as Hd.
  destruct (Z.ggcd z 1) as [g [a b]]. cbn [fst snd] in *.
  rewrite Z.gcd_1_r in Hg. subst g. destruct Hd as [Ha Hb].
  replace a with z by lia. replace b with 1 by lia. reflexivity.
Qed.

Lemma ilog2_inject_Z (z : Z) :
  0 < z -> JS.ilog2 (inject_Z z) = Z.log2 z.
Proof.
  intros Hz. unfold JS.ilog2, inject_Z. cbn [Qnum Qden].
  change (Z.log2 1) with 0. rewrite Z.sub_0_r.
  pose proof (Z.log2_nonneg z) as H0.
  pose proof (Z.log2_spec z Hz) as [Hl _].
  unfold JS.pow2. replace (0 <=? Z.log2 z) with true
    by (symmetry; apply Z.leb_le; lia).
  replace (Qle_bool (inject_Z (2 ^ Z.log2 z)) (z # 1)) with true;
    [ reflexivity | ].
  symmetry. apply Qle_bool_iff. change (z # 1) with (inject_Z z).
  rewrite <- Zle_Qle. exact Hl.
Qed.

(** Integers below [2 ^ 53] are doubles: rounding leaves them alone. *)
Lemma round64_inject_Z (z : Z) :
  - 2 ^ 53 < z < 2 ^ 53 -> JS.round64 (inject_Z z) = inject_Z z.
Proof.
  intros Hz. unfold JS.round64. rewrite Qred_inject_Z.
  destruct (Z.eq_dec z 0) as [-> | Hne]; [ reflexivity | ].
  replace (Qeq_bool (inject_Z z) 0) with false.
  2:{ symmetry. apply not_true_iff_false. intros H.
      apply Qeq_bool_iff in H. apply Hne.
      unfold Qeq, inject_Z in H. cbn in H. lia. }
  assert (Ha : Qabs (inject_Z z) = inject_Z (Z.abs z)) by reflexivity.
  rewrite Ha, ilog2_inject_Z by lia.
  set (l := Z.log2 (Z.abs z)).
  assert (Hl : 0 <= l < 53).
  { split; [ apply Z.log2_nonneg | ].
    apply Z.log2_lt_pow2; lia. }
  replace (Z.max l (- 1022)) with l by lia.
  rewrite <- (Qred_inject_Z z) at 2. apply Qred_complete.
  assert (Hp : (JS.pow2 (l - 52) * inject_Z (2 ^ (52 - l)) == 1)%Q).
  { unfold JS.pow2. destruct (Z.leb_spec 0 (l - 52)) as [H | H].
    - replace l with 52 by lia. reflexivity.
    - replace (- (l - 52)) with (52 - l) by lia.
      assert (0 < 2 ^ (52 - l)) by (apply Z.pow_pos_nonneg; lia).
      unfold Qeq, Qmult, inject_Z. cbn [Qnum Qden].
      rewrite Pos.mul_1_r, Z2Pos.id by lia. lia. }
  assert (Hnz : ~ (JS.pow2 (l - 52) == 0)%Q).
  { intros H0. rewrite H0 in Hp. lra. }
  set (P := JS.pow2 (l - 52)) in *.
  set (K := inject_Z (2 ^ (52 - l))) in *.
  rewrite (roundEven_Z _ (z * 2 ^ (52 - l))).
  - rewrite inject_Z_mult. fold K.
    setoid_replace (inject_Z z * K * P)%Q with (inject_Z z * (P * K))%Q
      by ring.
    rewrite Hp. ring.
  - assert (HK : (/ P == K)%Q).
    { setoid_replace K with (P * K * / P)%Q by (field; exact Hnz).
      rewrite Hp. ring. }
    rewrite inject_Z_mult. fold K. unfold Qdiv. now rewrite HK.
Qed.

Lemma fadd_inject_Z (a b : Z) :
  - 2 ^ 53 < a + b < 2 ^ 53 ->
  JS.fadd (inject_Z a) (inject_Z b) = inject_Z (a + b).
Proof.
  intros H. unfold JS.fadd.
  rewrite (round64_comp _ (inject_Z (a + b)))
    by (now rewrite inject_Z_plus).
  now apply round64_inject_Z.
Qed.

Lemma fsub_inject_Z (a b : Z) :
  - 2 ^ 53 < a - b < 2 ^ 53 ->
  JS.fsub (inject_Z a) (inject_Z b) = inject_Z (a - b).
Proof.
  intros H. unfold JS.fsub.
  rewrite (round64_comp _ (inject_Z (a - b))).
  - now apply round64_inject_Z.
  - unfold Z.sub. rewrite inject_Z_plus, inject_Z_opp. reflexivity.
Qed.

Lemma pow2_Qpower (e : Z) : (JS.pow2 e == 2 ^ e)%Q.
Proof.
  unfold JS.pow2. destruct (Z.leb_spec 0 e) as [H | H].
  - exact (Zpower_Qpower 2 e H).
  - assert (Hp : 0 < 2 ^ (- e)) by (apply Z.pow_pos_nonneg; lia).
    replace e with (- - e) at 2 by lia. rewrite Qpower_opp.
    rewrite <- (Zpower_Qpower 2 (- e)) by lia.
    destruct (2 ^ (- e)) as [ | p | p ]; try lia. reflexivity.
Qed.

Lemma pow2_pos (e : Z) : (0 < JS.pow2 e)%Q.
Proof. rewrite pow2_Qpower. now apply Qpower_0_lt. Qed.

Lemma pow2_le (n m : Z) : n <= m -> (JS.pow2 n <= JS.pow2 m)%Q.
Proof.
  intros H. rewrite !pow2_Qpower. apply Qpower_le_compat_l; [ exact H | ].
  discriminate.
Qed.

Lemma pow2_plus (n m : Z) : (JS.pow2 (n + m) == JS.pow2 n * JS.pow2 m)%Q.
Proof. rewrite !pow2_Qpower. apply Qpower_plus. discriminate. Qed.

Lemma pow2_inject (e : Z) : 0 <= e -> JS.pow2 e = inject_Z (2 ^ e).
Proof.
  intros H. unfold JS.pow2.
  now replace (0 <=? e) with true by (symmetry; apply Z.leb_le; lia).
Qed.

(** [ilog2] does not overshoot. *)
Lemma ilog2_le (q : Q) : (0 < q)%Q -> (JS.pow2 (JS.ilog2 q) <= q)%Q.
Proof.
  intros Hq. unfold JS.ilog2.
  destruct (Qle_bool _ q) eqn:E; [ now apply Qle_bool_iff | clear E ].
  destruct q as [a b]. cbn [Qnum Qden].
  assert (Ha : 0 < a) by (unfold Qlt in Hq; cbn in Hq; lia).
  pose proof (Z.log2_spec a Ha) as [Hla _].
  pose proof (Z.log2_spec (Z.pos b) ltac:(lia)) as [_ Hlb].
  pose proof (Z.log2_nonneg a). pose proof (Z.log2_nonneg (Z.pos b)).
  set (la := Z.log2 a) in *. set (lb := Z.log2 (Z.pos b)) in *.
  assert (H1 : (JS.pow2 (la - lb - 1) * JS.pow2 (lb + 1) == JS.pow2 la)%Q).
  { rewrite <- pow2_plus. now replace (la - lb - 1 + (lb + 1)) with la by lia. }
  rewrite (pow2_inject la) in H1 by lia.
  rewrite (pow2_inject (lb + 1)) in H1 by lia.
  replace (Z.succ lb) with (lb + 1) in Hlb by lia.
  rewrite (Qmake_Qdiv a b).
  apply Qle_shift_div_l; [ reflexivity | ].
  apply Qle_trans with (JS.pow2 (la - lb - 1) * inject_Z (2 ^ (lb + 1)))%Q.
  - apply Qmult_le_l; [ apply pow2_pos | ].
    rewrite <- Zle_Qle. lia.
  - rewrite H1. rewrite <- Zle_Qle. exact Hla.
Qed.

Lemma ilog2_lt (q : Q) (k : Z) :
  (0 < q)%Q -> (q < JS.pow2 k)%Q -> JS.ilog2 q < k.
Proof.
  intros Hq Hk. pose proof (ilog2_le q Hq) as Hl.
  assert (H : (JS.pow2 (JS.ilog2 q) < JS.pow2 k)%Q) by lra.
  rewrite !pow2_Qpower in H.
  apply (Qpower_lt_compat_l_inv 2); [ exact H | reflexivity ].
Qed.

Lemma roundEven_near (y : Q) :
  (Qabs (inject_Z (JS.roundEven y) - y) <= 1 # 2)%Q.
Proof.
  pose proof (Qfloor_le y) as Hlo. pose proof (Qlt_floor y) as Hhi.
  rewrite inject_Z_plus in Hhi. change (inject_Z 1) with 1%Q in Hhi.
  unfold JS.roundEven. set (f := Qfloor y) in *.
  apply Qabs_Qle_condition.
  destruct (y - inject_Z f ?= 1 # 2)%Q eqn:E.
  - apply Qeq_alt in E. destruct (Z.even f).
    + split; lra.
    + rewrite inject_Z_plus. change (inject_Z 1) with 1%Q. split; lra.
  - apply Qlt_alt in E. split; lra.
  - apply Qgt_alt in E. rewrite inject_Z_plus.
    change (inject_Z 1) with 1%Q. split; lra.
Qed.

(** Below [2 ^ 50] a double is within a sixteenth of the number it
    rounds. *)
Lemma round64_near (x : Q) :
  (Qabs x < JS.pow2 50)%Q -> (Qabs (JS.round64 x - x) <= 1 # 16)%Q.
Proof.
  intros Hx. unfold JS.round64.
  pose proof (Qred_correct x) as Hq. set (q := Qred x) in *.
  destruct (Qeq_bool q 0) eqn:E.
  - apply Qeq_bool_iff in E. rewrite <- Hq, E. apply Qabs_Qle_condition.
    split; lra.
  - assert (Hne : ~ (q == 0)%Q)
      by (intros H; apply Qeq_bool_iff in H; congruence).
    assert (Hpos : (0 < Qabs q)%Q).
    { destruct q as [n d]. unfold Qeq in Hne. unfold Qabs, Qlt.
      cbn in *. lia. }
    assert (Hl : JS.ilog2 (Qabs q) < 50).
    { apply ilog2_lt; [ exact Hpos | ]. now rewrite Hq. }
    set (e := Z.max (JS.ilog2 (Qabs q)) (- 1022) - 52).
    assert (He : e <= - 3) by lia.
    pose proof (pow2_pos e) as HP0.
    pose proof (pow2_le e (- 3) He) as HP.
    change (JS.pow2 (- 3)) with (1 # 8)%Q in HP.
    set (P := JS.pow2 e) in *.
    pose proof (roundEven_near (q / P)) as Hm.
    set (m := inject_Z (JS.roundEven (q / P))) in *.
    rewrite Qred_correct, <- Hq.
    setoid_replace (m * P - q)%Q with ((m - q / P) * P)%Q
      by (field; lra).
    rewrite Qabs_Qmult, (Qabs_pos P) by lra.
    apply Qle_trans with ((1 # 2) * P)%Q.
    + apply Qmult_le_compat_r; [ exact Hm | lra ].
    + lra.
Qed.

(** The quotient of an integer that a double can hold by 10: rounding
    the quotient to a double changes neither its floor nor its integer
    part. *)
Lemma fdiv10 (n : Z) :
  - 2 ^ 53 < n < 2 ^ 53 ->
  Qfloor (JS.fdiv (inject_Z n) 10) = n / 10
  /\ JS.Qtrunc (JS.fdiv (inject_Z n) 10) = Z.quot n 10.
Proof.
  intros Hn. unfold JS.fdiv.
  pose proof (Z.div_mod n 10 ltac:(lia)) as Hdm.
  pose proof (Z.mod_pos_bound n 10 ltac:(lia)) as Hr.
  set (k := n / 10) in *. set (r := n mod 10) in *.
  assert (Hx : (inject_Z n / 10 == inject_Z k + inject_Z r / 10)%Q).
  { rewrite Hdm, inject_Z_plus, inject_Z_mult.
    change (inject_Z 10) with 10%Q. field. }
  destruct (Z.eq_dec r 0) as [H0 | H0].
  - rewrite (round64_comp _ (inject_Z k))
      by (rewrite Hx, H0; change (inject_Z 0) with 0%Q; field).
    rewrite round64_inject_Z by lia.
    split; [ apply Qfloor_Z | ].
    unfold JS.Qtrunc, inject_Z. cbn [Qnum Qden]. rewrite Z.quot_1_r.
    rewrite Hdm, H0, Z.add_0_r, Z.mul_comm. symmetry. apply Z.quot_mul. lia.
  - set (y := JS.round64 (inject_Z n / 10)).
    assert (Hy : (inject_Z k < y)%Q /\ (y < inject_Z k + 1)%Q).
    { assert (Hb : (Qabs (inject_Z n / 10) < JS.pow2 50)%Q).
      { apply Qabs_Qlt_condition. rewrite pow2_inject by lia.
        assert (H1 : (inject_Z (- 2 ^ 53) < inject_Z n)%Q)
          by (rewrite <- Zlt_Qlt; lia).
        assert (H2 : (inject_Z n < inject_Z (2 ^ 53))%Q)
          by (rewrite <- Zlt_Qlt; lia).
        change (inject_Z (- 2 ^ 53)) with (- 9007199254740992)%Q in H1.
        change (inject_Z (2 ^ 53)) with 9007199254740992%Q in H2.
        change (inject_Z (2 ^ 50)) with 1125899906842624%Q.
        split.
        - apply Qlt_shift_div_l; [ reflexivity | ]. lra.
        - apply Qlt_shift_div_r; [ reflexivity | ]. lra. }
      pose proof (round64_near _ Hb) as Hnear. fold y in Hnear.
      apply Qabs_Qle_condition in Hnear. rewrite Hx in Hnear.
      setoid_replace (inject_Z r / 10)%Q with (inject_Z r * (1 # 10))%Q
        in Hnear by reflexivity.
      assert (H1 : (1 <= inject_Z r)%Q)
        by (change 1%Q with (inject_Z 1); rewrite <- Zle_Qle; lia).
      assert (H9 : (inject_Z r <= 9)%Q)
        by (change 9%Q with (inject_Z 9); rewrite <- Zle_Qle; lia).
      split; lra. }
    destruct Hy as [Hlo Hhi].
    assert (Hfl : Qfloor y = k).
    { pose proof (Qfloor_le y) as F1. pose proof (Qlt_floor y) as F2.
      rewrite inject_Z_plus in F2. change (inject_Z 1) with 1%Q in F2.
      assert (A : (inject_Z k < inject_Z (Qfloor y) + 1)%Q) by lra.
      assert (B : (inject_Z (Qfloor y) < inject_Z k + 1)%Q) by lra.
      rewrite <- (inject_Z_plus _ 1), <- Zlt_Qlt in A.
      rewrite <- (inject_Z_plus _ 1), <- Zlt_Qlt in B. lia. }
    split; [ exact Hfl | ].
    unfold JS.Qtrunc.
    pose proof (Z.quot_rem' n 10) as Hqr.
    destruct (Z.le_gt_cases 0 n) as [Hpos | Hneg].
    + assert (Hy0 : (0 <= y)%Q).
      { assert (0 <= k) by (apply Z.div_pos; lia).
        assert ((0 <= inject_Z k)%Q)
          by (change 0%Q with (inject_Z 0); rewrite <- Zle_Qle; lia).
        lra. }
      rewrite (Z.quot_div_nonneg n 10) by lia. fold k.
      rewrite <- Hfl. unfold Qfloor. destruct y as [a b]. cbn [Qnum Qden].
      apply Z.quot_div_nonneg; [ | lia ].
      unfold Qle in Hy0. cbn in Hy0. lia.
    + assert (Hq1 : Z.quot n 10 = k + 1)
        by (pose proof (Z.rem_bound_pos_neg n 10 ltac:(lia) ltac:(lia));
            lia).
      rewrite Hq1.
      assert (Hy0 : (y < 0)%Q).
      { assert (k + 1 <= 0) by lia.
        assert ((inject_Z (k + 1) <= 0)%Q)
          by (change 0%Q with (inject_Z 0); rewrite <- Zle_Qle; lia).
        rewrite inject_Z_plus in *. change (inject_Z 1) with 1%Q in *. lra. }
      assert (Hfo : Qfloor (- y) = - k - 1).
      { pose proof (Qfloor_le (- y)) as F1.
        pose proof (Qlt_floor (- y)) as F2.
        rewrite inject_Z_plus in F2. change (inject_Z 1) with 1%Q in F2.
        assert (A : (inject_Z (- k - 1) < inject_Z (Qfloor (- y)) + 1)%Q).
        { unfold Z.sub. rewrite !inject_Z_plus, !inject_Z_opp.
          change (inject_Z 1) with 1%Q. lra. }
        assert (B : (inject_Z (Qfloor (- y)) < inject_Z (- k - 1) + 1)%Q).
        { unfold Z.sub. rewrite !inject_Z_plus, !inject_Z_opp.
          change (inject_Z 1) with 1%Q. lra. }
        rewrite <- (inject_Z_plus _ 1), <- Zlt_Qlt in A.
        rewrite <- (inject_Z_plus _ 1), <- Zlt_Qlt in B. lia. }
      destruct y as [a b]. unfold Qfloor, Qopp in Hfo. cbn [Qnum Qden] in *.
      unfold Qlt in Hy0. cbn in Hy0.
      rewrite <- (Z.opp_involutive a) at 1.
      rewrite Z.quot_opp_l by lia.
      rewrite Z.quot_div_nonneg by lia. lia.
Qed.

Lemma toInt32_fdiv10_nonneg (n : Z) :
  0 <= n < 2 ^ 31 -> JS.toInt32 (JS.fdiv (inject_Z n) 10) = n / 10.
Proof.
  intros Hn. unfold JS.toInt32.
  rewrite (proj2 (fdiv10 n ltac:(lia))).
  rewrite Z.quot_div_nonneg by lia.
  apply wrap32_small.
  assert (0 <= n / 10) by (apply Z.div_pos; lia).
  assert (n / 10 <= n) by (apply Z.div_le_upper_bound; lia).
  lia.
Qed.

Lemma Math_floor_fdiv10 (n : Z) :
  - 2 ^ 53 < n < 2 ^ 53 ->
  JS.Math_floor (JS.fdiv (inject_Z n) 10) = n / 10.
Proof. intros Hn. unfold JS.Math_floor. now apply fdiv10. Qed.

(** Below ten the multiplier term vanishes. *)
Lemma multiplier_0 : multiplier 0 = inject_Z 1.
Proof. vm_compute. reflexivity. Qed.

Lemma decayPeriod_value : decayPeriod = 285.
Proof. reflexivity. Qed.

Lemma Qltb_lt (a b : Q) : JS.Qltb a b = true <-> (a < b)%Q.
Proof.
  unfold JS.Qltb. rewrite negb_true_iff.
  split.
  - intros H. apply Qnot_le_lt. intros L.
    apply Qle_bool_iff in L. congruence.
  - intros H. destruct (Qle_bool b a) eqn:E; [ | reflexivity ].
    apply Qle_bool_iff in E. exfalso. apply (Qlt_not_le _ _ H E).
Qed.

(** ** The physics step as a partition of the live notes *)

Lemma tickStep_fold (l : list Note) (acc : AccNoteSound) :
  fold_left tickStep l acc =
  mkAcc (newCurrentNotes acc ++ flat_map keptOf l)
        (newPlayableNotes acc ++ flat_map soundOf l).
Proof.
  revert acc. induction l as [ | n l IH]; intros acc; simpl.
  - rewrite !app_nil_r. now destruct acc.
  - rewrite IH. unfold tickStep, keptOf, soundOf.
    destruct (updatePositionForGame n) as [[u | ] [p | ]]; simpl;
      rewrite <- ?app_assoc; reflexivity.
Qed.

Lemma survivors_flat_map (l : list Note) : survivors l = flat_map keptOf l.
Proof. unfold survivors, tickNotes. now rewrite tickStep_fold. Qed.

Lemma sounds_flat_map (l : list Note) : sounds l = flat_map soundOf l.
Proof. unfold sounds, tickNotes. now rewrite tickStep_fold. Qed.

Lemma survivors_app (l1 l2 : list Note) :
  survivors (l1 ++ l2) = survivors l1 ++ survivors l2.
Proof. rewrite !survivors_flat_map. apply flat_map_app. Qed.

Lemma sounds_app (l1 l2 : list Note) :
  sounds (l1 ++ l2) = sounds l1 ++ sounds l2.
Proof. rewrite !sounds_flat_map. apply flat_map_app. Qed.

Lemma survivors_cons (n : Note) (l : list Note) :
  survivors (n :: l) = keptOf n ++ survivors l.
Proof. now rewrite !survivors_flat_map. Qed.

Lemma sounds_cons (n : Note) (l : list Note) :
  sounds (n :: l) = soundOf n ++ sounds l.
Proof. now rewrite !sounds_flat_map. Qed.

Lemma tick_currentNotes (s : State) :
  currentNotes (tick s) = survivors (currentNotes s).
Proof. reflexivity. Qed.

Lemma tick_playableNotes (s : State) :
  playableNotes (tick s) = sounds (currentNotes s).
Proof. reflexivity. Qed.

Lemma survivors_length (l : list Note) :
  (List.length (survivors l) <= List.length l)%nat.
Proof.
  rewrite survivors_flat_map.
  induction l as [ | n l IH]; simpl; [ lia | ].
  rewrite length_app. unfold keptOf at 1.
  destruct (fst (updatePositionForGame n)); simpl; lia.
Qed.

(** The three outcomes of a note without a tail. *)
Lemma tailless_step (n : Note) :
  tail n = None ->
  updatePositionForGame n =
  if position n + 1 <? Constants.BOTTOM_ROW
  then (Some (with_position n (position n + 1)), None)
  else if position n + 1 =? Constants.BOTTOM_ROW
       then if visual n then (None, None)
            else (None, Some (with_position n (position n + 1)))
       else (None, None).
Proof.
  intros Ht.
  unfold updatePositionForGame, updateNotePosition,
    Constants.TICK_UNIT_INCREMENT.
  rewrite Ht.
  destruct (Z.ltb_spec (position n + 1) Constants.BOTTOM_ROW) as [Hlt | Hge].
  - replace (position n + 1 <=? Constants.BOTTOM_ROW) with true
      by (symmetry; apply Z.leb_le; lia).
    now destruct (visual n).
  - destruct (Z.eqb_spec (position n + 1) Constants.BOTTOM_ROW) as [He | Hne].
    + replace (position n + 1 <=? Constants.BOTTOM_ROW) with true
        by (symmetry; apply Z.leb_le; lia).
      now destruct (visual n).
    + replace (position n + 1 <=? Constants.BOTTOM_ROW) with false
        by (symmetry; apply Z.leb_gt; lia).
      reflexivity.
Qed.

(** ** Claims about the physics step *)

(** C7.  A note without a tail, one tick step: strictly above the bottom
    row after the increment it stays in [currentNotes], its position one
    increment larger and every other field as it was, and triggers no
    sound; exactly on the bottom row a non-visual note leaves
    [currentNotes] and is emitted in [playableNotes], on the bottom row
    and otherwise as it was, a visual note leaves [currentNotes] and is
    not emitted; the step never changes the score. *)
Theorem C7_tailless_note_step
    (s : State) (pre post : list Note) (n : Note) :
  currentNotes s = pre ++ n :: post ->
  tail n = None ->
  scoreGained (tick s) = scoreGained s
  /\ (position n + Constants.TICK_UNIT_INCREMENT < Constants.BOTTOM_ROW ->
      exists n',
        moved Constants.TICK_UNIT_INCREMENT n n'
        /\ currentNotes (tick s) = survivors pre ++ n' :: survivors post
        /\ playableNotes (tick s) = sounds pre ++ sounds post)
  /\ (position n + Constants.TICK_UNIT_INCREMENT = Constants.BOTTOM_ROW ->
      visual n = false ->
      exists n',
        moved Constants.TICK_UNIT_INCREMENT n n'
        /\ currentNotes (tick s) = survivors pre ++ survivors post
        /\ playableNotes (tick s) = sounds pre ++ n' :: sounds post)
  /\ (position n + Constants.TICK_UNIT_INCREMENT = Constants.BOTTOM_ROW ->
      visual n = true ->
      currentNotes (tick s) = survivors pre ++ survivors post
      /\ playableNotes (tick s) = sounds pre ++ sounds post).
Proof.
  intros Hs Ht.
  rewrite tick_currentNotes, tick_playableNotes, Hs.
  rewrite survivors_app, sounds_app, survivors_cons, sounds_cons.
  unfold keptOf, soundOf. rewrite (tailless_step n Ht).
  unfold Constants.TICK_UNIT_INCREMENT.
  assert (Hm : moved 1 n (with_position n (position n + 1)))
    by (unfold moved, sameEvent; repeat split).
  split; [ reflexivity | ].
  split; [ | split ].
  - intros Hlt. apply Z.ltb_lt in Hlt. rewrite Hlt.
    exists (with_position n (position n + 1)). simpl. auto.
  - intros He Hv.
    replace (position n + 1 <? Constants.BOTTOM_ROW) with false
      by (symmetry; apply Z.ltb_ge; lia).
    apply Z.eqb_eq in He. rewrite He, Hv.
    exists (with_position n (position n + 1)). simpl. auto.
  - intros He Hv.
    replace (position n + 1 <? Constants.BOTTOM_ROW) with false
      by (symmetry; apply Z.ltb_ge; lia).
    apply Z.eqb_eq in He. rewrite He, Hv. simpl. auto.
Qed.

Lemma filterCheck_spec (n : Note) :
  filterCheck n = true <-> aboutToMiss n.
Proof.
  unfold filterCheck, aboutToMiss.
  rewrite andb_true_iff, Z.eqb_eq. reflexivity.
Qed.

Lemma filter_length_zero {A : Type} (f : A -> bool) (l : list A) :
  (List.length (filter f l) =? 0)%nat = negb (existsb f l).
Proof.
  induction l as [ | x l IH]; simpl; [ reflexivity | ].
  destruct (f x); simpl; [ reflexivity | exact IH ].
Qed.

(** C10.  The implicit miss penalty of the physics step: when the updated
    [currentNotes] holds a visual note with [position + 1 = BOTTOM_ROW] the
    combo [noteCount] becomes the old [bonusActive]; when it holds none the
    step leaves [noteCount] as it was. *)
Theorem C10_miss_resets_combo (s : State) :
  (Exists aboutToMiss (currentNotes (tick s)) ->
   noteCount (tick s) = bonusActive s)
  /\ (~ Exists aboutToMiss (currentNotes (tick s)) ->
      noteCount (tick s) = noteCount s).
Proof.
  assert (E : noteCount (tick s) =
              if existsb filterCheck (currentNotes (tick s))
              then bonusActive s else noteCount s).
  { unfold tick at 1. cbn [noteCount]. rewrite filter_length_zero.
    rewrite tick_currentNotes. unfold survivors.
    now destruct (existsb filterCheck _). }
  split; intros H; rewrite E.
  - replace (existsb filterCheck (currentNotes (tick s))) with true;
      [ reflexivity | ].
    symmetry. apply existsb_exists. apply Exists_exists in H.
    destruct H as [n [Hin Hn]]. exists n. split; [ exact Hin | ].
    now apply filterCheck_spec.
  - destruct (existsb filterCheck (currentNotes (tick s))) eqn:Ex;
      [ | reflexivity ].
    exfalso. apply H. apply existsb_exists in Ex.
    destruct Ex as [n [Hin Hn]]. apply Exists_exists. exists n.
    split; [ exact Hin | ]. now apply filterCheck_spec.
Qed.

(** ** Claims about single actions *)

(** C8 (as amended).  [ButtonClick], [ButtonRelease], [TickGame] and
    [GameEnd] report exactly the prior live set in [RIPNotes]; [NextNote]
    reports the prior live set followed by the batch it has just prepared. *)
Theorem C8_RIPNotes_report (c : Z) (batch : list Note) (s : State) :
  RIPNotes (ButtonClick_apply c s) = currentNotes s
  /\ RIPNotes (ButtonRelease_apply c s) = currentNotes s
  /\ RIPNotes (TickGame_apply s) = currentNotes s
  /\ RIPNotes (GameEnd_apply s) = currentNotes s
  /\ RIPNotes (NextNote_apply batch s) =
       currentNotes s ++ map (spawnNote (hash s)) batch.
Proof. repeat split. Qed.

Lemma nth_error_mapi_from {A B : Type} (f : A -> Z -> B)
    (l : list A) (k : Z) (i : nat) :
  nth_error (mapi_from f k l) i =
  option_map (fun x => f x (k + Z.of_nat i)) (nth_error l i).
Proof.
  revert k i. induction l as [ | x l IH]; intros k i.
  - now destruct i.
  - destruct i as [ | i]; simpl.
    + now rewrite Z.add_0_r.
    + rewrite IH.
      replace (k + 1 + Z.of_nat i) with (k + Z.pos (Pos.of_succ_nat i))
        by lia.
      reflexivity.
Qed.

Lemma mapi_from_length {A B : Type} (f : A -> Z -> B) (l : list A) (k : Z) :
  List.length (mapi_from f k l) = List.length l.
Proof.
  revert k. induction l as [ | x l IH]; intros k; simpl;
    [ reflexivity | now rewrite IH ].
Qed.

(** C9.  [RandomiseNotes] advances the seed exactly once, keeps every other
    field of the state, and keeps the live notes position by position: the
    note at an index keeps its id, tail, special flag, position and visual
    flag, differs from the old one in its column at most, and is the old
    note itself when that one is not visual. *)
Theorem C9_randomise_frame (s : State) :
  hash (RandomiseNotes_apply s) = RNG_hash (hash s)
  /\ List.length (currentNotes (RandomiseNotes_apply s))
     = List.length (currentNotes s)
  /\ (forall (i : nat) (n : Note),
        nth_error (currentNotes s) i = Some n ->
        exists n',
          nth_error (currentNotes (RandomiseNotes_apply s)) i = Some n'
          /\ id n' = id n /\ tail n' = tail n /\ special n' = special n
          /\ position n' = position n /\ visual n' = visual n
          /\ n' = with_column n (column n')
          /\ (visual n = false -> n' = n))
  /\ gameEnd (RandomiseNotes_apply s) = gameEnd s
  /\ allNotesProcessed (RandomiseNotes_apply s) = allNotesProcessed s
  /\ bonusActive (RandomiseNotes_apply s) = bonusActive s
  /\ tickInterval (RandomiseNotes_apply s) = tickInterval s
  /\ noteCount (RandomiseNotes_apply s) = noteCount s
  /\ scoreGained (RandomiseNotes_apply s) = scoreGained s
  /\ RIPNotes (RandomiseNotes_apply s) = RIPNotes s
  /\ playableNotes (RandomiseNotes_apply s) = playableNotes s.
Proof.
  split; [ reflexivity | ].
  split; [ apply mapi_from_length | ].
  split; [ | repeat split ].
  intros i n Hn. cbn [RandomiseNotes_apply currentNotes]. unfold mapi.
  rewrite nth_error_mapi_from, Hn. cbn [option_map].
  eexists. split; [ reflexivity | ].
  unfold randomiseNote. destruct n as [i0 sp v p c nm ve pi st en tl].
  destruct v; cbn; repeat split; intros; congruence.
Qed.

Lemma rem_decayPeriod_divide (t : Z) :
  Z.rem t decayPeriod = 0 <-> (decayPeriod | t).
Proof. apply Z.rem_divide. rewrite decayPeriod_value. lia. Qed.

Lemma bonusFlag_spec (s : State) :
  (0 <? bonusActive s) && negb (tickInterval s =? 0)
  && (Z.rem (tickInterval s) decayPeriod =? 0) = true
  <-> decayDue s.
Proof.
  unfold decayDue.
  rewrite !andb_true_iff, negb_true_iff, Z.ltb_lt, Z.eqb_neq, Z.eqb_eq.
  rewrite rem_decayPeriod_divide. tauto.
Qed.

(** C3 (as amended).  [TickGame] drains 50 from [bonusActive] and from the
    [noteCount] that the physics step produced, and resets the decay
    counter, exactly when the decay cycle is due ([bonusActive > 0] and
    [tickInterval] a non-zero multiple of [~~(2000 / TICK_RATE_MS)], which
    is 285); otherwise it leaves [bonusActive] and the physics step's
    [noteCount] alone, and the decay counter goes up by one while the bonus
    pool is not empty and is held at 0 while it is empty. *)
Theorem C3_bonus_decay (s : State) :
  (decayDue s ->
     bonusActive (TickGame_apply s) = bonusActive s - 50
     /\ noteCount (TickGame_apply s) = noteCount (tick s) - 50
     /\ tickInterval (TickGame_apply s) = 0)
  /\ (~ decayDue s ->
     bonusActive (TickGame_apply s) = bonusActive s
     /\ noteCount (TickGame_apply s) = noteCount (tick s)
     /\ tickInterval (TickGame_apply s) =
          if 0 <? bonusActive s then tickInterval s + 1 else 0).
Proof.
  pose proof (bonusFlag_spec s) as Hflag.
  unfold TickGame_apply.
  cbn [bonusActive noteCount tickInterval].
  destruct ((0 <? bonusActive s) && negb (tickInterval s =? 0)
            && (Z.rem (tickInterval s) decayPeriod =? 0)) eqn:Eflag.
  - split; [ | intros Hn; exfalso; apply Hn; now apply Hflag ].
    intros _. repeat split.
    apply andb_true_iff in Eflag. destruct Eflag as [E1 E3].
    apply andb_true_iff in E1. destruct E1 as [E1 E2].
    rewrite E1, E3. apply negb_true_iff in E2. rewrite E2. reflexivity.
  - split; [ intros Hd; apply Hflag in Hd; discriminate | ].
    intros _. repeat split.
    destruct (0 <? bonusActive s); [ | reflexivity ].
    cbn [andb] in *.
    destruct (tickInterval s =? 0); [ reflexivity | ].
    cbn [negb andb orb] in *. rewrite Eflag. reflexivity.
Qed.

(** ** The end-of-game invariant *)

Lemma chartActionb_spec (a : Action) :
  chartActionb a = true -> chartAction a.
Proof.
  destruct a; simpl; auto.
  intros H. apply Forall_forall. intros n Hn.
  rewrite forallb_forall in H. apply Z.eqb_eq. now apply H.
Qed.

Lemma length_zero_nil {A : Type} (l : list A) :
  (List.length l =? 0)%nat = true -> l = [].
Proof. destruct l; [ reflexivity | discriminate ]. Qed.

Lemma tick_gameEnd (s : State) :
  gameEnd (tick s) = true ->
  allNotesProcessed s = true
  /\ survivors (currentNotes s) = []
  /\ sounds (currentNotes s) = []
  /\ RIPNotes s = [].
Proof.
  unfold tick. cbn [gameEnd]. rewrite !andb_true_iff.
  intros [[[H1 H2] H3] H4].
  repeat split; auto using length_zero_nil.
Qed.

(** Every action keeps the live set no longer than the removal report. *)
Lemma live_le_report_step (a : Action) (s : State) :
  (List.length (currentNotes s) <= List.length (RIPNotes s))%nat ->
  (List.length (currentNotes (apply a s))
   <= List.length (RIPNotes (apply a s)))%nat.
Proof.
  intros H. destruct a; simpl.
  - now rewrite length_map.
  - now rewrite length_map.
  - apply survivors_length.
  - apply (survivors_length (currentNotes s)).
  - apply (survivors_length (currentNotes s ++ _)).
  - unfold mapi. now rewrite mapi_from_length.
Qed.

(** A note spawned at position 0 survives the physics step that
    [NextNote] runs on it. *)
Lemma spawned_note_survives (h : Z) (n : Note) :
  position n = 0 -> keptOf (spawnNote h n) <> [].
Proof.
  intros Hp. unfold keptOf, spawnNote.
  destruct (visual n && JS.Qltb 1000 (end_ n - start n)) eqn:E.
  - apply andb_true_iff in E. destruct E as [Hv Hd].
    apply Qltb_lt in Hd.
    unfold updatePositionForGame, updateNotePosition. cbn.
    rewrite Hv, Hp. cbn.
    assert (Hs : JS.Qltb
              (inject_Z 0 - (end_ n - start n) / inject_Z Constants.TICK_RATE_MS
               + inject_Z Constants.TICK_UNIT_INCREMENT)
              (inject_Z Constants.BOTTOM_ROW) = true).
    { apply Qltb_lt.
      unfold Constants.TICK_RATE_MS, Constants.TICK_UNIT_INCREMENT,
        Constants.BOTTOM_ROW.
      change (inject_Z 0) with 0%Q. change (inject_Z 7) with 7%Q.
      change (inject_Z 1) with 1%Q. change (inject_Z 350) with 350%Q.
      unfold Qdiv. setoid_replace (/ 7)%Q with (1 # 7)%Q by reflexivity.
      lra. }
    rewrite Hs. discriminate.
  - rewrite (tailless_step (with_tail _ None)) by reflexivity.
    cbn. rewrite Hp. cbn. discriminate.
Qed.

Lemma spawned_batch_survives (h : Z) (batch : list Note) :
  Forall (fun n => position n = 0) batch ->
  survivors (map (spawnNote h) batch) = [] ->
  batch = [].
Proof.
  intros Hb Hs. destruct batch as [ | n batch]; [ reflexivity | ].
  exfalso. simpl in Hs. rewrite survivors_cons in Hs.
  apply app_eq_nil in Hs. destruct Hs as [Hs _].
  apply (spawned_note_survives h n); [ | exact Hs ].
  now inversion Hb.
Qed.

Lemma reachable_live_le_report (s : State) :
  reachable s ->
  (List.length (currentNotes s) <= List.length (RIPNotes s))%nat.
Proof.
  induction 1 as [ | s a Hr IH Hg Ha].
  - simpl. lia.
  - now apply live_le_report_step.
Qed.

Lemma drive_reachable_from (actions : list Action) (s : State) :
  forallb chartActionb actions = true ->
  reachable s ->
  reachable (fold_left driveStep actions s).
Proof.
  revert s. induction actions as [ | a l IH]; intros s Hall Hs.
  - exact Hs.
  - simpl in Hall. apply andb_true_iff in Hall. destruct Hall as [Ha Hl].
    simpl. apply IH; [ exact Hl | ].
    unfold driveStep. destruct (gameEnd s) eqn:Hg; [ exact Hs | ].
    apply reach_step; auto using chartActionb_spec.
Qed.

Lemma drive_reachable (actions : list Action) :
  forallb chartActionb actions = true -> reachable (drive actions).
Proof.
  intros H. apply drive_reachable_from; [ exact H | apply reach_init ].
Qed.

Lemma tick_drained (s : State) :
  gameEnd (tick s) = true -> currentNotes s = [] -> drained (tick s).
Proof.
  intros E Hc. apply tick_gameEnd in E. destruct E as (E1 & E2 & E3 & E4).
  unfold drained. rewrite tick_currentNotes, tick_playableNotes.
  repeat split; assumption.
Qed.

(** C1 (as amended).  In every state the driver can reach (chart batches
    spawn at position 0, and nothing is applied to an ended state),
    [gameEnd] implies that the chart is exhausted and that [currentNotes],
    [playableNotes] and [RIPNotes] are all empty. *)
Theorem C1_gameEnd_means_drained (s : State) :
  reachable s -> gameEnd s = true -> drained s.
Proof.
  intros Hr. destruct Hr as [ | s a Hr Hg Ha].
  - discriminate.
  - pose proof (reachable_live_le_report s Hr) as Hlen.
    assert (Hnil : RIPNotes s = [] -> currentNotes s = []).
    { intros E. rewrite E in Hlen. simpl in Hlen.
      destruct (currentNotes s); [ reflexivity | simpl in Hlen; lia ]. }
    destruct a; cbn [apply]; intros E.
    + cbn in E. congruence.
    + cbn in E. congruence.
    + change (gameEnd (tick s) = true) in E.
      change (drained (TickGame_apply s)) with (drained (tick s)).
      apply tick_drained; [ exact E | ].
      apply Hnil. now apply tick_gameEnd in E.
    + unfold GameEnd_apply in *.
      apply tick_drained; [ exact E | ].
      apply (Hnil). now apply tick_gameEnd in E.
    + unfold NextNote_apply in *.
      apply tick_drained; [ exact E | ].
      apply tick_gameEnd in E. cbn [currentNotes RIPNotes] in E.
      destruct E as (_ & E2 & _ & E4).
      cbn [currentNotes]. rewrite (Hnil E4) in *. simpl in E2 |- *.
      now apply (spawned_batch_survives (hash s)) in E2; [ subst batch | ].
    + cbn in E. congruence.
Qed.

(** ** [ButtonRelease] *)

Lemma release_score_fold (c : Z) (p : Q) (l : list Note) (a0 : Q) :
  fold_left (fun acc note => if heldTail c note then JS.fsub acc p else acc)
            l a0
  = penalised (List.length (filter (heldTail c) l)) p a0.
Proof.
  unfold penalised. revert a0.
  induction l as [ | n l IH]; intros a0; cbn [fold_left filter].
  - reflexivity.
  - destruct (heldTail c n); cbn [List.length].
    + rewrite IH. now rewrite Nat.iter_succ_r.
    + apply IH.
Qed.

(** At a penalty of 1 the score stays an integer. *)
Lemma penalised_one (k : nat) (z : Z) :
  - 2 ^ 53 < z - Z.of_nat k -> z < 2 ^ 53 ->
  penalised k (inject_Z 1) (inject_Z z) = inject_Z (z - Z.of_nat k).
Proof.
  unfold penalised. induction k as [ | k IH]; intros Hlo Hhi.
  - cbn [Nat.iter Z.of_nat]. now rewrite Z.sub_0_r.
  - rewrite Nat.iter_succ, IH by lia.
    rewrite fsub_inject_Z by lia. f_equal. lia.
Qed.

Lemma release_combo_fold (c b : Z) (l : list Note) (a0 : Z) :
  fold_left (fun acc note => if heldTail c note then b else acc) l a0 =
  if existsb (heldTail c) l then b else a0.
Proof.
  revert a0. induction l as [ | n l IH]; intros a0; simpl; [ reflexivity | ].
  destruct (heldTail c n) eqn:E; simpl.
  - rewrite IH. now destruct (existsb (heldTail c) l).
  - apply IH.
Qed.

Lemma releaseNote_markDead (c : Z) (n : Note) :
  releaseNote c n = if heldTail c n then markDead n else n.
Proof.
  unfold releaseNote, heldTail, markDead.
  destruct (tail n) as [t | ]; reflexivity.
Qed.

Lemma map_id_on {A : Type} (f : A -> A) (l : list A) :
  (forall x, In x l -> f x = x) -> map f l = l.
Proof.
  induction l as [ | x l IH]; intros H; simpl; [ reflexivity | ].
  rewrite H by (now left). rewrite IH; [ reflexivity | ].
  intros y Hy. apply H. now right.
Qed.

Lemma filter_nil_forall {A : Type} (f : A -> bool) (l : list A) :
  List.length (filter f l) = 0%nat -> forall x, In x l -> f x = false.
Proof.
  induction l as [ | y l IH]; intros H x Hx; [ contradiction | ].
  simpl in H. destruct (f y) eqn:E; [ discriminate | ].
  destruct Hx as [-> | Hx]; [ exact E | now apply IH ].
Qed.

Lemma releasePenalty_value (s : State) :
  - 2 ^ 53 < noteCount s < 2 ^ 53 ->
  releasePenalty s = multiplier (noteCount s / 10).
Proof.
  intros H. unfold releasePenalty, multiplier.
  now rewrite Math_floor_fdiv10.
Qed.

Lemma Forall2_map_r {A B : Type} (P : A -> B -> Prop) (f : A -> B)
    (l : list A) :
  (forall x, P x (f x)) -> Forall2 P l (map f l).
Proof. intros H. induction l; cbn [map]; constructor; auto. Qed.

Lemma sameEvent_refl (n : Note) : sameEvent n n.
Proof. unfold sameEvent. tauto. Qed.

Lemma releaseNote_silenced (c : Z) (n : Note) :
  if heldTail c n then silenced n (releaseNote c n)
  else releaseNote c n = n.
Proof.
  rewrite releaseNote_markDead. unfold heldTail, markDead, silenced.
  destruct (tail n) as [t | ] eqn:Et; [ | reflexivity ].
  destruct (_ && _); [ | reflexivity ].
  split; [ | repeat split ].
  exists t, (with_dead t (Some true)). repeat split.
Qed.

(** C5 (as amended).  [ButtonRelease(c)] marks dead the tail of every note
    of [currentNotes] that has a tail, is in column [c], is not visual and
    whose tail is not dead, changing no other field of it, and changes no
    other note; with [k] such notes the new score is [~~] (truncation
    towards zero, on 32 bits) of the double that is left after the penalty
    was taken off the old score [k] times, one by one, every difference
    rounded to the nearest double; the penalty is the double
    [1 + 0.2 * floor(noteCount / 10)] for every combo that a double can
    hold; with [k > 0] the combo becomes the current [bonusActive]; with
    [k = 0] the notes and the combo are unchanged, and so is a score that
    is a 32-bit integer.  At a combo from 0 to 9 the penalty is 1 and a
    score within the 32-bit range goes down by exactly [k]. *)
Theorem C5_release (c : Z) (s : State) :
  Forall2 (fun n n' => if heldTail c n then silenced n n' else n' = n)
          (currentNotes s) (currentNotes (ButtonRelease_apply c s))
  /\ scoreGained (ButtonRelease_apply c s) =
       JS.toInt32 (penalised (heldCount c s) (releasePenalty s)
                     (inject_Z (scoreGained s)))
  /\ (- 2 ^ 53 < noteCount s < 2 ^ 53 ->
      releasePenalty s = multiplier (noteCount s / 10))
  /\ noteCount (ButtonRelease_apply c s) =
       (if (heldCount c s =? 0)%nat then noteCount s else bonusActive s)
  /\ (heldCount c s = 0%nat ->
        currentNotes (ButtonRelease_apply c s) = currentNotes s
        /\ noteCount (ButtonRelease_apply c s) = noteCount s
        /\ (- 2 ^ 31 <= scoreGained s < 2 ^ 31 ->
            scoreGained (ButtonRelease_apply c s) = scoreGained s))
  /\ (0 <= noteCount s < 10 ->
      - 2 ^ 31 <= scoreGained s - Z.of_nat (heldCount c s) ->
      scoreGained s < 2 ^ 31 ->
      scoreGained (ButtonRelease_apply c s)
      = scoreGained s - Z.of_nat (heldCount c s)).
Proof.
  assert (Hnotes : currentNotes (ButtonRelease_apply c s) =
    map (fun n => if heldTail c n then markDead n else n) (currentNotes s)).
  { cbn [ButtonRelease_apply currentNotes]. apply map_ext.
    intros n. apply releaseNote_markDead. }
  assert (Hscore : scoreGained (ButtonRelease_apply c s) =
       JS.toInt32 (penalised (heldCount c s) (releasePenalty s)
                     (inject_Z (scoreGained s)))).
  { cbn [ButtonRelease_apply scoreGained].
    now rewrite release_score_fold. }
  assert (Hcombo : noteCount (ButtonRelease_apply c s) =
       (if (heldCount c s =? 0)%nat then noteCount s else bonusActive s)).
  { cbn [ButtonRelease_apply noteCount]. rewrite release_combo_fold.
    unfold heldCount. rewrite filter_length_zero.
    now destruct (existsb (heldTail c) (currentNotes s)). }
  split.
  { cbn [ButtonRelease_apply currentNotes]. apply Forall2_map_r.
    apply releaseNote_silenced. }
  split; [ exact Hscore | ].
  split; [ apply releasePenalty_value | ].
  split; [ exact Hcombo | ].
  split.
  - intros Hk. split; [ | split ].
    + rewrite Hnotes. apply map_id_on. intros n Hn.
      unfold heldCount in Hk.
      now rewrite (filter_nil_forall _ _ Hk n Hn).
    + rewrite Hcombo, Hk. reflexivity.
    + intros Hr. rewrite Hscore, Hk. now apply toInt32_inject_Z.
  - intros Hc Hlo Hhi. rewrite Hscore.
    rewrite releasePenalty_value by lia.
    rewrite (Z.div_small (noteCount s) 10) by lia.
    rewrite multiplier_0, penalised_one by lia.
    apply toInt32_inject_Z. lia.
Qed.

(** ** [ButtonClick] *)

Lemma press_triggered (c : Z) (l : list Note) (acc : Accumulator) :
  triggered (fold_left (pressStep c) l acc)
  = triggered acc || existsb (inHitWindow c) l.
Proof.
  revert acc. induction l as [ | n l IH]; intros acc; simpl.
  - now rewrite orb_false_r.
  - rewrite IH. unfold pressStep.
    destruct (inHitWindow c n); [ | reflexivity ].
    destruct (special n); simpl; now rewrite orb_true_r.
Qed.

Lemma press_specialGained (c : Z) (l : list Note) (acc : Accumulator) :
  specialGained (fold_left (pressStep c) l acc)
  = specialGained acc + 100 * countSpecial (filter (inHitWindow c) l).
Proof.
  unfold countSpecial.
  revert acc. induction l as [ | n l IH]; intros acc.
  - cbn [fold_left filter List.length]. lia.
  - cbn [fold_left filter]. rewrite IH. unfold pressStep.
    destruct (inHitWindow c n); [ | reflexivity ].
    cbn [filter]. destruct (special n);
      cbn [specialGained List.length]; lia.
Qed.

Lemma press_notePressed (c : Z) (l : list Note) (acc : Accumulator) :
  notePressed (fold_left (pressStep c) l acc)
  = notePressed acc
    + 100 * countSpecial (filter (inHitWindow c) l)
    + countNormal (filter (inHitWindow c) l).
Proof.
  unfold countSpecial, countNormal.
  revert acc. induction l as [ | n l IH]; intros acc.
  - cbn [fold_left filter List.length]. lia.
  - cbn [fold_left filter]. rewrite IH. unfold pressStep.
    destruct (inHitWindow c n); [ | reflexivity ].
    cbn [filter]. destruct (special n);
      cbn [notePressed negb List.length]; lia.
Qed.

Lemma press_score (c : Z) (l : list Note) (acc : Accumulator) :
  accScoreGained (fold_left (pressStep c) l acc)
  = hitScore (accScoreGained acc) (notePressed acc)
      (filter (inHitWindow c) l).
Proof.
  revert acc. induction l as [ | n l IH]; intros acc;
    cbn [fold_left filter]; [ reflexivity | ].
  rewrite IH. unfold pressStep.
  destruct (inHitWindow c n); [ | reflexivity ].
  cbn [hitScore]. destruct (special n); reflexivity.
Qed.

(** Below ten the multiplier term vanishes: a normal hit is worth 1. *)
Lemma hitScore_single (score combo : Z) (n : Note) :
  special n = false -> 0 <= combo < 10 ->
  - 2 ^ 53 < score + 1 < 2 ^ 53 ->
  hitScore (inject_Z score) combo [n] = inject_Z (score + 1).
Proof.
  intros Hs Hc Hr. cbn [hitScore]. rewrite Hs.
  rewrite toInt32_fdiv10_nonneg by lia.
  rewrite Z.div_small by lia. rewrite multiplier_0.
  now apply fadd_inject_Z.
Qed.

(** On a non-negative combo [~~(combo / 10)] is [floor(combo / 10)]. *)
Lemma hitScore_floorScore (hits : list Note) (score : Q) (combo : Z) :
  0 <= combo ->
  combo + 100 * Z.of_nat (List.length hits) < 2 ^ 31 ->
  hitScore score combo hits = floorScore score combo hits.
Proof.
  revert score combo.
  induction hits as [ | n rest IH]; intros score combo H0 Hb;
    [ reflexivity | ].
  cbn [List.length] in Hb. rewrite Nat2Z.inj_succ in Hb.
  cbn [hitScore floorScore]. destruct (special n).
  - apply IH; lia.
  - rewrite toInt32_fdiv10_nonneg by lia. apply IH; lia.
Qed.

Lemma pressNote_consumed (c : Z) (n : Note) :
  if inHitWindow c n then consumed n (pressNote c n)
  else pressNote c n = n.
Proof.
  unfold pressNote, consumed, sameEvent.
  destruct (inHitWindow c n); [ | reflexivity ]. repeat split.
Qed.

Lemma existsb_filter_nil {A : Type} (f : A -> bool) (l : list A) :
  existsb f l = false <-> filter f l = [].
Proof.
  induction l as [ | x l IH]; simpl; [ tauto | ].
  destruct (f x); simpl; [ split; discriminate | exact IH ].
Qed.

Lemma pressNote_no_hit (c : Z) (l : list Note) :
  existsb (inHitWindow c) l = false -> map (pressNote c) l = l.
Proof.
  intros H. apply map_id_on. intros n Hn. unfold pressNote.
  destruct (inHitWindow c n) eqn:E; [ | reflexivity ].
  assert (existsb (inHitWindow c) l = true)
    by (apply existsb_exists; eauto).
  congruence.
Qed.

Lemma heldTail_sustained (c : Z) (n : Note) :
  heldTail c n = true -> sustainedIn c n = true.
Proof.
  unfold heldTail, sustainedIn. destruct (tail n) as [t | ];
    [ | discriminate ].
  rewrite !andb_true_iff. intros [[H1 H2] _]. auto.
Qed.

(** The wrong-press test of [ButtonClick.apply], read on the old notes. *)
Lemma checkWrongPress_spec (c : Z) (s : State) :
  negb (triggered
          (fold_left (pressStep c) (currentNotes s)
             {| triggered := false;
                accScoreGained := inject_Z (scoreGained s);
                notePressed := noteCount s;
                specialGained := bonusActive s |}))
  && (List.length
        (filter (sustainedIn c) (map (pressNote c) (currentNotes s))) =? 0)%nat
  = negb (existsb (inHitWindow c) (currentNotes s))
    && negb (existsb (sustainedIn c) (currentNotes s)).
Proof.
  rewrite press_triggered. cbn [triggered orb].
  destruct (existsb (inHitWindow c) (currentNotes s)) eqn:E;
    [ reflexivity | ].
  rewrite (pressNote_no_hit c _ E), filter_length_zero. reflexivity.
Qed.

(** C4 (as amended).  [ButtonClick(c)] always advances the seed.  When no
    visual note of column [c] is in the hit window and no non-visual note
    with a tail (dead or not) is in column [c], it appends exactly one
    synthetic note to [playableNotes] and sets [noteCount] to the current
    [bonusActive].  When a non-visual note with a tail is in column [c] (a
    live sustain in particular) or when a note is hit, [playableNotes] is
    unchanged. *)
Theorem C4_wrong_press (c : Z) (s : State) :
  hash (ButtonClick_apply c s) = RNG_hash (hash s)
  /\ ((forall n, In n (currentNotes s) -> inHitWindow c n = false) ->
      (forall n, In n (currentNotes s) -> sustainedIn c n = false) ->
      playableNotes (ButtonClick_apply c s)
        = playableNotes s ++ [wrongNote (hash s)]
      /\ noteCount (ButtonClick_apply c s) = bonusActive s)
  /\ ((exists n, In n (currentNotes s) /\ sustainedIn c n = true) ->
      playableNotes (ButtonClick_apply c s) = playableNotes s)
  /\ ((exists n, In n (currentNotes s) /\ heldTail c n = true) ->
      playableNotes (ButtonClick_apply c s) = playableNotes s)
  /\ ((exists n, In n (currentNotes s) /\ inHitWindow c n = true) ->
      playableNotes (ButtonClick_apply c s) = playableNotes s).
Proof.
  pose proof (checkWrongPress_spec c s) as Hw.
  assert (Hsus : (exists n, In n (currentNotes s) /\ sustainedIn c n = true) ->
                 playableNotes (ButtonClick_apply c s) = playableNotes s).
  { intros Hex. apply existsb_exists in Hex.
    cbn [ButtonClick_apply playableNotes].
    rewrite Hw, Hex, andb_false_r. reflexivity. }
  split; [ reflexivity | ].
  split; [ | split; [ exact Hsus | split ] ].
  - intros Hhit Hsust.
    assert (E1 : existsb (inHitWindow c) (currentNotes s) = false).
    { destruct (existsb (inHitWindow c) (currentNotes s)) eqn:E;
        [ | reflexivity ].
      apply existsb_exists in E. destruct E as [n [Hn E]].
      rewrite (Hhit n Hn) in E. discriminate. }
    assert (E2 : existsb (sustainedIn c) (currentNotes s) = false).
    { destruct (existsb (sustainedIn c) (currentNotes s)) eqn:E;
        [ | reflexivity ].
      apply existsb_exists in E. destruct E as [n [Hn E]].
      rewrite (Hsust n Hn) in E. discriminate. }
    cbn [ButtonClick_apply playableNotes noteCount].
    rewrite Hw, E1, E2. split; reflexivity.
  - intros [n [Hn Hh]]. apply Hsus. exists n.
    split; [ exact Hn | now apply heldTail_sustained ].
  - intros Hex. apply existsb_exists in Hex.
    cbn [ButtonClick_apply playableNotes].
    rewrite Hw, Hex. reflexivity.
Qed.

(** C2 (as amended).  [ButtonClick(c)], with the notes it hits (visual,
    column [c], position in [[BOTTOM_ROW - POSITION_THRESHOLD, BOTTOM_ROW)])
    taken in array order: [bonusActive] grows by 100 per special hit; when
    at least one note is hit [noteCount] grows by 100 per special hit and
    by 1 per normal hit; the new score is [~~] (truncation towards zero, on
    32 bits) of [hitScore], the double that the old score has become after
    the gains of the hits were added to it one by one, every sum rounded
    to the nearest double: nothing for a special hit and the double
    [1 + 0.2 * ~~(combo / 10)] for a normal hit, [combo] being the combo
    before that note's own increment, and [~~(combo / 10)], taken of the
    double quotient, is [floor(combo / 10)] while the combo is not
    negative; every hit note
    has its visual flag cleared and no other field changed, and no other
    note changes.  A single normal hit at a combo below ten raises a score
    inside the 32-bit range by exactly 1. *)
Theorem C2_press_scoring (c : Z) (s : State) :
  bonusActive (ButtonClick_apply c s)
    = bonusActive s + 100 * countSpecial (hitsOf c s)
  /\ (hitsOf c s <> [] ->
      noteCount (ButtonClick_apply c s)
        = noteCount s + 100 * countSpecial (hitsOf c s)
          + countNormal (hitsOf c s))
  /\ scoreGained (ButtonClick_apply c s)
      = JS.toInt32 (hitScore (inject_Z (scoreGained s)) (noteCount s)
                      (hitsOf c s))
  /\ Forall2 (fun n n' => if inHitWindow c n then consumed n n' else n' = n)
             (currentNotes s) (currentNotes (ButtonClick_apply c s))
  /\ (0 <= noteCount s ->
      noteCount s + 100 * Z.of_nat (List.length (hitsOf c s)) < 2 ^ 31 ->
      scoreGained (ButtonClick_apply c s)
      = JS.toInt32 (floorScore (inject_Z (scoreGained s)) (noteCount s)
                      (hitsOf c s)))
  /\ (forall n : Note,
        hitsOf c s = [n] -> special n = false ->
        0 <= noteCount s < 10 ->
        - 2 ^ 31 <= scoreGained s + 1 < 2 ^ 31 ->
        scoreGained (ButtonClick_apply c s) = scoreGained s + 1).
Proof.
  assert (Hscore : scoreGained (ButtonClick_apply c s)
      = JS.toInt32 (hitScore (inject_Z (scoreGained s)) (noteCount s)
                      (hitsOf c s))).
  { cbn [ButtonClick_apply scoreGained]. now rewrite press_score. }
  split.
  { cbn [ButtonClick_apply bonusActive]. now rewrite press_specialGained. }
  split.
  { intros Hne. cbn [ButtonClick_apply noteCount].
    rewrite checkWrongPress_spec.
    destruct (existsb (inHitWindow c) (currentNotes s)) eqn:E.
    - cbn [negb andb]. now rewrite press_notePressed.
    - exfalso. apply Hne. now apply existsb_filter_nil. }
  split; [ exact Hscore | ].
  split.
  { cbn [ButtonClick_apply currentNotes]. apply Forall2_map_r.
    apply pressNote_consumed. }
  split.
  { intros H0 Hb. rewrite Hscore. now rewrite hitScore_floorScore. }
  intros n Hn Hsp Hcombo Hrange.
  rewrite Hscore, Hn.
  rewrite (hitScore_single _ _ n Hsp Hcombo) by lia.
  now apply toInt32_inject_Z.
Qed.

(** ** [NextNote] and the lifetime of tails *)

Lemma spawnNote_sustain (h : Z) (n : Note) :
  sustainEvent n ->
  exists t, spawnNote h n = with_tail n (Some t)
            /\ (tailEnd t - tailStart t
                == (end_ n - start n) / inject_Z Constants.TICK_RATE_MS)%Q.
Proof.
  intros [Hv Hd]. unfold spawnNote.
  apply Qltb_lt in Hd. rewrite Hv, Hd. cbn [andb].
  eexists. split; [ reflexivity | ]. cbn [tailEnd tailStart]. ring.
Qed.

Lemma spawnNote_plain (h : Z) (n : Note) :
  ~ sustainEvent n ->
  spawnNote h n = with_tail (with_special n (specialDraw h)) None.
Proof.
  intros Hn. unfold spawnNote.
  destruct (visual n && JS.Qltb 1000 (end_ n - start n)) eqn:E;
    [ | reflexivity ].
  exfalso. apply Hn. apply andb_true_iff in E. destruct E as [Hv Hd].
  split; [ exact Hv | now apply Qltb_lt ].
Qed.

Lemma sustainEvent_dec (n : Note) : sustainEvent n \/ ~ sustainEvent n.
Proof.
  unfold sustainEvent.
  destruct (visual n); [ | right; intros [H _]; discriminate ].
  destruct (JS.Qltb 1000 (end_ n - start n)) eqn:E.
  - left. split; [ reflexivity | now apply Qltb_lt ].
  - right. intros [_ H]. apply Qltb_lt in H. congruence.
Qed.

(** What the physics step keeps of a note: its id and special flag, the
    presence of its tail, and, while the note is visual, the extent of the
    tail. *)
Lemma kept_note_frame (m m' : Note) :
  fst (updatePositionForGame m) = Some m' ->
  id m' = id m
  /\ special m' = special m
  /\ (tail m' = None <-> tail m = None)
  /\ (forall t, tail m = Some t -> visual m = true ->
       exists t', tail m' = Some t'
                  /\ (tailEnd t' - tailStart t' == tailEnd t - tailStart t)%Q).
Proof.
  unfold updatePositionForGame, updateNotePosition.
  destruct m as [i sp v p c nm ve pi st en [t | ]]; cbn [tail visual position].
  - destruct v.
    + destruct (Qeq_bool _ _); destruct (JS.Qltb _ _); cbn [fst];
        intros E; inversion E; subst m'; cbn;
        (repeat split; try discriminate;
         intros t0 Ht _; inversion Ht; subst t0;
         eexists; (split; [ reflexivity | cbn; ring ])).
    + destruct (_ =? _); [ | destruct (JS.Qltb _ _) ]; cbn [fst];
        intros E; inversion E; subst m'; cbn;
        (repeat split; try discriminate).
  - destruct (_ <=? _); [ | discriminate ].
    destruct v; destruct (_ <? _); try destruct (_ =? _); cbn [fst];
      intros E; inversion E; subst m'; cbn;
      (repeat split; try discriminate; auto).
Qed.

Lemma In_survivors (m' : Note) (l : list Note) :
  In m' (survivors l) ->
  exists m, In m l /\ fst (updatePositionForGame m) = Some m'.
Proof.
  rewrite survivors_flat_map, in_flat_map.
  intros [m [Hm Hk]]. exists m. split; [ exact Hm | ].
  unfold keptOf in Hk.
  destruct (fst (updatePositionForGame m)) as [u | ]; [ | contradiction ].
  destruct Hk as [-> | []]. reflexivity.
Qed.

Lemma In_mapi_from {A B : Type} (f : A -> Z -> B) (l : list A) (k : Z)
    (y : B) :
  In y (mapi_from f k l) -> exists x i, In x l /\ y = f x i.
Proof.
  revert k. induction l as [ | x l IH]; intros k; simpl; [ contradiction | ].
  intros [<- | H].
  - exists x, k. auto.
  - destruct (IH _ H) as [x' [i [Hx Hy]]]. exists x', i. auto.
Qed.

Lemma pressNote_frame (c : Z) (m : Note) :
  id (pressNote c m) = id m /\ tail (pressNote c m) = tail m.
Proof. unfold pressNote. now destruct (inHitWindow c m). Qed.

Lemma releaseNote_frame (c : Z) (m : Note) :
  id (releaseNote c m) = id m
  /\ (tail (releaseNote c m) = None <-> tail m = None).
Proof.
  unfold releaseNote. destruct (tail m) as [t | ] eqn:Et.
  - destruct (_ && _); cbn; rewrite ?Et; split; auto;
      split; discriminate.
  - rewrite Et. tauto.
Qed.

Lemma randomiseNote_frame (h : Z) (m : Note) (i : Z) :
  id (randomiseNote h m i) = id m /\ tail (randomiseNote h m i) = tail m.
Proof. unfold randomiseNote. now destruct (visual m). Qed.

(** A live note with a tail descends from a live note with a tail. *)
Lemma tail_descends_tick (l : list Note) (m' : Note) :
  In m' (survivors l) -> hasTail m' ->
  exists m, In m l /\ id m = id m' /\ hasTail m.
Proof.
  intros Hin Ht. destruct (In_survivors _ _ Hin) as [m [Hm Hk]].
  destruct (kept_note_frame _ _ Hk) as (Hid & _ & Htl & _).
  exists m. repeat split; auto. unfold hasTail in *. tauto.
Qed.

(** No action gives a tail to a note that has none: a note with a tail in
    the new state has the id of a note with a tail in the old state, or of
    a sustain event of the batch just spawned. *)
Lemma tail_origin (a : Action) (s : State) (m' : Note) :
  In m' (currentNotes (apply a s)) -> hasTail m' ->
  (exists m, In m (currentNotes s) /\ id m = id m' /\ hasTail m)
  \/ (exists batch n, a = NextNote batch /\ In n batch
                      /\ id n = id m' /\ sustainEvent n).
Proof.
  intros Hin Ht. destruct a; cbn [apply] in Hin.
  - left. cbn [ButtonClick_apply currentNotes] in Hin.
    apply in_map_iff in Hin. destruct Hin as [m [<- Hm]].
    destruct (pressNote_frame c m) as [Hid Htl].
    exists m. unfold hasTail in *. rewrite Htl in Ht. auto.
  - left. cbn [ButtonRelease_apply currentNotes] in Hin.
    apply in_map_iff in Hin. destruct Hin as [m [<- Hm]].
    destruct (releaseNote_frame c m) as [Hid Htl].
    exists m. unfold hasTail in *. repeat split; auto. tauto.
  - left. now apply tail_descends_tick.
  - left. now apply (tail_descends_tick (currentNotes s)).
  - unfold NextNote_apply in Hin. rewrite tick_currentNotes in Hin.
    cbn [currentNotes] in Hin.
    destruct (tail_descends_tick _ _ Hin Ht) as [m [Hm [Hid Hm_t]]].
    apply in_app_or in Hm. destruct Hm as [Hm | Hm].
    + left. exists m. auto.
    + right. apply in_map_iff in Hm. destruct Hm as [n [<- Hn]].
      exists batch, n. split; [ reflexivity | ]. split; [ exact Hn | ].
      destruct (sustainEvent_dec n) as [Hs | Hs].
      * destruct (spawnNote_sustain (hash s) n Hs) as [t [E _]].
        rewrite E in Hid. auto.
      * exfalso. rewrite (spawnNote_plain (hash s) n Hs) in Hm_t.
        now apply Hm_t.
  - left. cbn [RandomiseNotes_apply currentNotes] in Hin. unfold mapi in Hin.
    apply In_mapi_from in Hin. destruct Hin as [m [i [Hm ->]]].
    destruct (randomiseNote_frame (hash s) m i) as [Hid Htl].
    exists m. unfold hasTail in *. rewrite Htl in Ht. auto.
Qed.


(** ** Consumed notes stay consumed *)

Lemma kept_note_visual (m m' : Note) :
  fst (updatePositionForGame m) = Some m' ->
  visual m' = true -> visual m = true.
Proof.
  unfold updatePositionForGame, updateNotePosition.
  destruct m as [i sp v p c nm ve pi st en [t | ]]; cbn [tail visual position].
  - destruct v; [ reflexivity | ].
    destruct (_ =? _); [ | destruct (JS.Qltb _ _) ]; cbn [fst];
      intros E; inversion E; subst m'; cbn; auto.
  - destruct (_ <=? _); [ | discriminate ].
    destruct v; [ reflexivity | ].
    destruct (_ <? _); try destruct (_ =? _); cbn [fst];
      intros E; inversion E; subst m'; cbn; auto.
Qed.

Lemma spawnNote_frame (h : Z) (n : Note) :
  id (spawnNote h n) = id n /\ visual (spawnNote h n) = visual n.
Proof. unfold spawnNote. now destruct (_ && _). Qed.

(** X2.  No action makes a consumed note visual again: a visual note of
    the new state has the id of a visual note of the old state, or of a
    visual note of the batch just spawned. *)
Theorem visual_origin (a : Action) (s : State) (m' : Note) :
  In m' (currentNotes (apply a s)) -> visual m' = true ->
  (exists m, In m (currentNotes s) /\ id m = id m' /\ visual m = true)
  \/ (exists batch n, a = NextNote batch /\ In n batch
                      /\ id n = id m' /\ visual n = true).
Proof.
  assert (Htick : forall l, In m' (survivors l) -> visual m' = true ->
            exists m, In m l /\ id m = id m' /\ visual m = true).
  { intros l Hin Hv. destruct (In_survivors _ _ Hin) as [m [Hm Hk]].
    exists m. split; [ exact Hm | ]. split.
    - now destruct (kept_note_frame _ _ Hk) as (-> & _).
    - now apply (kept_note_visual m m'). }
  intros Hin Hv. destruct a; cbn [apply] in Hin.
  - left. cbn [ButtonClick_apply currentNotes] in Hin.
    apply in_map_iff in Hin. destruct Hin as [m [<- Hm]].
    exists m. unfold pressNote in *.
    destruct (inHitWindow c m); [ discriminate | auto ].
  - left. cbn [ButtonRelease_apply currentNotes] in Hin.
    apply in_map_iff in Hin. destruct Hin as [m [<- Hm]].
    exists m. rewrite releaseNote_markDead in *.
    destruct (heldTail c m) eqn:E; [ | auto ].
    unfold heldTail in E. unfold markDead in *.
    destruct (tail m); [ | discriminate ]. cbn in Hv. auto.
  - left. now apply Htick.
  - left. now apply (Htick (currentNotes s)).
  - unfold NextNote_apply in Hin. rewrite tick_currentNotes in Hin.
    cbn [currentNotes] in Hin.
    destruct (Htick _ Hin Hv) as [m [Hm [Hid Hmv]]].
    apply in_app_or in Hm. destruct Hm as [Hm | Hm].
    + left. exists m. auto.
    + right. apply in_map_iff in Hm. destruct Hm as [n [<- Hn]].
      destruct (spawnNote_frame (hash s) n) as [Ei Ev].
      exists batch, n. rewrite <- Ei, <- Ev. auto.
  - left. cbn [RandomiseNotes_apply currentNotes] in Hin. unfold mapi in Hin.
    apply In_mapi_from in Hin. destruct Hin as [m [i [Hm ->]]].
    exists m. split; [ exact Hm | ].
    unfold randomiseNote in *. destruct (visual m) eqn:E; auto.
    rewrite E in Hv. discriminate.
Qed.

(** ** The counters along a run *)

Lemma tick_counters (s : State) :
  bonusActive (tick s) = bonusActive s
  /\ scoreGained (tick s) = scoreGained s
  /\ (noteCount (tick s) = noteCount s
      \/ noteCount (tick s) = bonusActive s).
Proof.
  unfold tick. cbn [bonusActive scoreGained noteCount].
  destruct (_ =? _)%nat; auto.
Qed.

Lemma tick_countersOk (s : State) : countersOk s -> countersOk (tick s).
Proof.
  unfold countersOk. intros (Hb & Hd & Hs).
  destruct (tick_counters s) as (-> & -> & [-> | ->]);
    repeat split; try assumption; lia.
Qed.

Lemma countSpecial_nonneg (l : list Note) : 0 <= countSpecial l.
Proof. unfold countSpecial. lia. Qed.

Lemma countNormal_nonneg (l : list Note) : 0 <= countNormal l.
Proof. unfold countNormal. lia. Qed.

Lemma countersOk_step (a : Action) (s : State) :
  countersOk s -> countersOk (apply a s).
Proof.
  intros Hok. pose proof Hok as (Hb & Hd & Hs).
  destruct a; cbn [apply].
  - (* ButtonClick *)
    unfold countersOk.
    cbn [ButtonClick_apply bonusActive noteCount scoreGained].
    rewrite checkWrongPress_spec, press_specialGained, press_notePressed.
    cbn [specialGained notePressed].
    pose proof (countSpecial_nonneg (filter (inHitWindow c) (currentNotes s))).
    pose proof (countNormal_nonneg (filter (inHitWindow c) (currentNotes s))).
    split; [ | split; [ | apply wrap32_range ] ].
    + destruct (existsb (inHitWindow c) (currentNotes s)) eqn:E;
        cbn [negb andb]; [ lia | ].
      apply existsb_filter_nil in E. rewrite E in *.
      unfold countSpecial; cbn.
      destruct (negb _); lia.
    + apply Z.divide_add_r; [ exact Hd | ].
      apply Z.divide_mul_l. now exists 2.
  - (* ButtonRelease *)
    unfold countersOk.
    cbn [ButtonRelease_apply bonusActive noteCount scoreGained].
    rewrite release_combo_fold.
    split; [ | split; [ exact Hd | apply wrap32_range ] ].
    destruct (existsb _ _); lia.
  - (* TickGame *)
    pose proof (tick_countersOk s Hok) as (Hb' & Hd' & Hs').
    destruct (tick_counters s) as (Eb & Es & En).
    unfold countersOk.
    cbn [TickGame_apply bonusActive noteCount scoreGained].
    destruct ((0 <? bonusActive s) && negb (tickInterval s =? 0)
              && (Z.rem (tickInterval s) decayPeriod =? 0)) eqn:Eflag.
    + apply bonusFlag_spec in Eflag. destruct Eflag as (Hpos & _).
      destruct Hd as [k Hk].
      split; [ lia | split; [ | exact Hs' ] ].
      exists (k - 1). lia.
    + rewrite Eb in *. auto.
  - (* GameEnd *)
    apply (tick_countersOk (with_allNotesProcessed s true)). exact Hok.
  - (* NextNote *)
    unfold NextNote_apply. apply tick_countersOk. exact Hok.
  - (* RandomiseNotes *)
    exact Hok.
Qed.

(** X1.  After every list of actions, applied from the initial state, the
    bonus pool is a non-negative multiple of 50, the combo is not below the
    bonus pool (so it is never negative), and the score is a signed 32-bit
    integer. *)
Theorem run_countersOk (actions : list Action) :
  countersOk (run actions).
Proof.
  unfold run.
  assert (H0 : countersOk (initialState)).
  { unfold countersOk. cbn. repeat split; try lia. now exists 0. }
  revert H0. generalize (initialState).
  induction actions as [ | a l IH]; intros s Hs; [ exact Hs | ].
  cbn [fold_left]. apply IH. unfold applyAction. now apply countersOk_step.
Qed.


(** ** What the physics step plays *)

Lemma sound_of_note (n p : Note) :
  snd (updatePositionForGame n) = Some p ->
  visual n = false
  /\ position n + 1 = Constants.BOTTOM_ROW
  /\ id p = id n /\ visual p = false
  /\ position p = Constants.BOTTOM_ROW.
Proof.
  unfold updatePositionForGame, updateNotePosition,
    Constants.TICK_UNIT_INCREMENT.
  destruct n as [i sp v ps c nm ve pi st en [t | ]];
    cbn [tail visual position].
  - destruct v.
    + destruct (Qeq_bool _ _); destruct (JS.Qltb _ _); discriminate.
    + destruct (Z.eqb_spec (ps + 1) Constants.BOTTOM_ROW) as [E | E].
      * intros H. inversion H; subst p. cbn. auto.
      * destruct (JS.Qltb _ _); discriminate.
  - destruct (_ <=? _); [ | discriminate ].
    destruct v.
    + destruct (_ <? _); [ discriminate | ].
      destruct (_ =? _); discriminate.
    + destruct (_ <? _); [ discriminate | ].
      destruct (Z.eqb_spec (ps + 1) Constants.BOTTOM_ROW) as [E | E];
        [ | discriminate ].
      intros H. inversion H; subst p. cbn. auto.
Qed.

Lemma note_sounds (n : Note) :
  visual n = false -> position n + 1 = Constants.BOTTOM_ROW ->
  exists p, snd (updatePositionForGame n) = Some p.
Proof.
  intros Hv Hp.
  unfold updatePositionForGame, updateNotePosition,
    Constants.TICK_UNIT_INCREMENT.
  destruct (tail n) as [t | ]; rewrite Hv, Hp; cbn; eauto.
Qed.

Lemma In_sounds (p : Note) (l : list Note) :
  In p (sounds l) <->
  exists n, In n l /\ snd (updatePositionForGame n) = Some p.
Proof.
  rewrite sounds_flat_map, in_flat_map. split.
  - intros [n [Hn Hp]]. exists n. split; [ exact Hn | ].
    unfold soundOf in Hp.
    destruct (snd (updatePositionForGame n)) as [q | ]; [ | contradiction ].
    destruct Hp as [-> | []]. reflexivity.
  - intros [n [Hn Hp]]. exists n. split; [ exact Hn | ].
    unfold soundOf. rewrite Hp. now left.
Qed.

(** X3.  The physics step plays exactly the consumed notes whose head
    reaches the bottom row: every note of [playableNotes] after [tick] is
    non-visual, stands on [BOTTOM_ROW] and comes from a non-visual live
    note one increment above it, and every such live note is played.  A
    visual note is never played by the step. *)
Theorem tick_plays_consumed_heads (s : State) :
  (forall p, In p (playableNotes (tick s)) ->
     visual p = false /\ position p = Constants.BOTTOM_ROW
     /\ exists n, In n (currentNotes s) /\ id n = id p
                  /\ visual n = false
                  /\ position n + 1 = Constants.BOTTOM_ROW)
  /\ (forall n, In n (currentNotes s) -> visual n = false ->
        position n + 1 = Constants.BOTTOM_ROW ->
        exists p, In p (playableNotes (tick s)) /\ id p = id n)
  /\ (forall n, In n (currentNotes s) -> visual n = true ->
        snd (updatePositionForGame n) = None).
Proof.
  rewrite tick_playableNotes. split; [ | split ].
  - intros p Hp. apply In_sounds in Hp. destruct Hp as [n [Hn Hs]].
    destruct (sound_of_note _ _ Hs) as (Hv & Hpos & Hid & Hvp & Hpp).
    repeat split; auto. exists n. auto.
  - intros n Hn Hv Hp. destruct (note_sounds n Hv Hp) as [p Hs].
    exists p. split; [ apply In_sounds; eauto | ].
    now destruct (sound_of_note _ _ Hs) as (_ & _ & Hid & _).
  - intros n Hn Hv.
    destruct (snd (updatePositionForGame n)) as [p | ] eqn:E;
      [ | reflexivity ].
    destruct (sound_of_note _ _ E) as (Hv' & _). congruence.
Qed.


(** ** Ids stay unique *)

Lemma keptOf_ids (n : Note) :
  map id (keptOf n) = [] \/ map id (keptOf n) = [id n].
Proof.
  unfold keptOf.
  destruct (fst (updatePositionForGame n)) as [u | ] eqn:E; [ | now left ].
  right. cbn. now destruct (kept_note_frame _ _ E) as (-> & _).
Qed.

Lemma survivors_ids_incl (l : list Note) (i : Z) :
  In i (map id (survivors l)) -> In i (map id l).
Proof.
  rewrite survivors_flat_map.
  induction l as [ | n l IH]; cbn [flat_map map]; [ auto | ].
  rewrite map_app, in_app_iff. intros [H | H].
  - destruct (keptOf_ids n) as [E | E]; rewrite E in H.
    + contradiction.
    + destruct H as [<- | []]. now left.
  - right. now apply IH.
Qed.

Lemma survivors_uniqueIds (l : list Note) :
  uniqueIds l -> uniqueIds (survivors l).
Proof.
  unfold uniqueIds. rewrite survivors_flat_map.
  induction l as [ | n l IH]; cbn [flat_map map]; intros H; [ exact H | ].
  inversion H as [ | i0 l0 Hn Hl]; subst.
  rewrite map_app.
  destruct (keptOf_ids n) as [E | E]; rewrite E; cbn [app].
  - now apply IH.
  - constructor; [ | now apply IH ].
    intros Hin. apply Hn. apply survivors_ids_incl.
    now rewrite survivors_flat_map.
Qed.

Lemma spawnNote_ids (h : Z) (batch : list Note) :
  map id (map (spawnNote h) batch) = map id batch.
Proof.
  rewrite map_map. apply map_ext. intros n.
  now destruct (spawnNote_frame h n).
Qed.

Lemma mapi_from_ids (h : Z) (l : list Note) (k : Z) :
  map id (mapi_from (randomiseNote h) k l) = map id l.
Proof.
  revert k. induction l as [ | n l IH]; intros k; cbn; [ reflexivity | ].
  rewrite IH. f_equal. now destruct (randomiseNote_frame h n k).
Qed.

Lemma uniqueIds_step (a : Action) (s : State) :
  uniqueIds (currentNotes s ++ batchOf a) ->
  uniqueIds (currentNotes (apply a s)).
Proof.
  unfold uniqueIds. destruct a; cbn [batchOf apply];
    rewrite ?app_nil_r; intros H.
  - cbn [ButtonClick_apply currentNotes]. rewrite map_map.
    erewrite map_ext; [ exact H | ].
    intros n. now destruct (pressNote_frame c n).
  - cbn [ButtonRelease_apply currentNotes]. rewrite map_map.
    erewrite map_ext; [ exact H | ].
    intros n. now destruct (releaseNote_frame c n).
  - now apply survivors_uniqueIds.
  - now apply (survivors_uniqueIds (currentNotes s)).
  - unfold NextNote_apply. rewrite tick_currentNotes. cbn [currentNotes].
    apply survivors_uniqueIds. unfold uniqueIds.
    now rewrite map_app, spawnNote_ids, <- map_app.
  - cbn [RandomiseNotes_apply currentNotes]. unfold mapi.
    now rewrite mapi_from_ids.
Qed.

(** X4.  No action makes two live notes share an id: when the ids of the
    live notes and of the notes an action brings in are pairwise distinct,
    the ids of the live notes after the action are pairwise distinct. *)
Theorem ids_stay_unique (a : Action) (s : State) :
  uniqueIds (currentNotes s ++ batchOf a) ->
  uniqueIds (currentNotes (apply a s)).
Proof. exact (uniqueIds_step a s). Qed.


(** ** Every note leaves, and the game ends *)

Lemma tail_term_le (x : Q) :
  (Z.to_nat (Qceiling (inject_Z Constants.BOTTOM_ROW
                       - (x + inject_Z Constants.TICK_UNIT_INCREMENT)))
   <= Z.to_nat (Qceiling (inject_Z Constants.BOTTOM_ROW - x)))%nat.
Proof.
  assert (H : Qceiling (inject_Z Constants.BOTTOM_ROW
                        - (x + inject_Z Constants.TICK_UNIT_INCREMENT))
              <= Qceiling (inject_Z Constants.BOTTOM_ROW - x)).
  { apply Qceiling_resp_le.
    change (inject_Z Constants.TICK_UNIT_INCREMENT) with 1%Q. lra. }
  lia.
Qed.

Lemma tail_term_lt (x : Q) :
  JS.Qltb (x + inject_Z Constants.TICK_UNIT_INCREMENT)
          (inject_Z Constants.BOTTOM_ROW) = true ->
  (Z.to_nat (Qceiling (inject_Z Constants.BOTTOM_ROW
                       - (x + inject_Z Constants.TICK_UNIT_INCREMENT)))
   < Z.to_nat (Qceiling (inject_Z Constants.BOTTOM_ROW - x)))%nat.
Proof.
  intros H. apply Qltb_lt in H.
  change (inject_Z Constants.TICK_UNIT_INCREMENT) with 1%Q in *.
  set (b := inject_Z Constants.BOTTOM_ROW) in *.
  pose proof (Qceiling_lt (b - (x + 1))) as H1.
  pose proof (Qle_ceiling (b - x)) as H2.
  pose proof (Qle_ceiling (b - (x + 1))) as H3.
  set (c' := Qceiling (b - (x + 1))) in *.
  set (c := Qceiling (b - x)) in *.
  unfold Z.sub in H1. rewrite inject_Z_plus in H1.
  change (inject_Z (- (1))) with (- (1))%Q in H1.
  assert (Hlt : (inject_Z c' < inject_Z c)%Q) by lra.
  assert (Hpos : (inject_Z 0 < inject_Z c)%Q)
    by (change (inject_Z 0) with 0%Q; lra).
  rewrite <- Zlt_Qlt in Hlt, Hpos. lia.
Qed.

(** A note that the physics step keeps has strictly less to live. *)
Lemma kept_ticksToLive (n n' : Note) :
  fst (updatePositionForGame n) = Some n' ->
  (ticksToLive n' < ticksToLive n)%nat.
Proof.
  unfold updatePositionForGame, updateNotePosition, ticksToLive.
  destruct n as [i sp v ps c nm ve pi st en [t | ]];
    cbn [tail visual position].
  - pose proof (tail_term_le (tailStart t)) as Hle.
    assert (Hpos : (Z.to_nat (Constants.BOTTOM_ROW
                              - (ps + Constants.TICK_UNIT_INCREMENT))
                    <= Z.to_nat (Constants.BOTTOM_ROW - ps))%nat)
      by (unfold Constants.TICK_UNIT_INCREMENT; lia).
    cbn [updateTail tailStart tailEnd].
    destruct v.
    + destruct (Qeq_bool _ _);
        destruct (JS.Qltb _ _) eqn:Elt; cbn [fst];
        intros E; inversion E; subst n';
        cbn [tail position with_tail with_visual with_position with_dead
             tailStart updateTail];
        apply tail_term_lt in Elt; lia.
    + destruct (Z.eqb_spec (ps + Constants.TICK_UNIT_INCREMENT)
                  Constants.BOTTOM_ROW) as [Eq | Ne].
      * cbn [fst]. intros E; inversion E; subst n'.
        cbn [tail position with_tail with_position tailStart updateTail].
        rewrite Eq, Z.sub_diag.
        assert (0 < Z.to_nat (Constants.BOTTOM_ROW - ps))%nat
          by (unfold Constants.TICK_UNIT_INCREMENT in Eq; lia).
        cbn [Z.to_nat]. lia.
      * destruct (JS.Qltb _ _) eqn:Elt; cbn [fst];
          intros E; inversion E; subst n';
          cbn [tail position with_tail with_position tailStart updateTail];
          apply tail_term_lt in Elt; lia.
  - unfold Constants.TICK_UNIT_INCREMENT.
    destruct (_ <=? _); [ | discriminate ].
    destruct v; destruct (Z.ltb_spec (ps + 1) Constants.BOTTOM_ROW);
      try destruct (_ =? _); cbn [fst];
      intros E; inversion E; subst n';
      cbn [tail position with_position]; lia.
Qed.

Lemma lifetime_bound (l : list Note) (k : nat) :
  (lifetime l <= k)%nat <-> forall n, In n l -> (ticksToLive n < k)%nat.
Proof.
  unfold lifetime. rewrite list_max_le, Forall_forall. split.
  - intros H n Hn. apply (H (S (ticksToLive n))).
    apply in_map_iff. eauto.
  - intros H x Hx. apply in_map_iff in Hx. destruct Hx as [n [<- Hn]].
    now apply H.
Qed.

Lemma lifetime_zero (l : list Note) : lifetime l = 0%nat -> l = [].
Proof.
  intros H. destruct l as [ | n l]; [ reflexivity | ].
  assert (Hb : (lifetime (n :: l) <= 0)%nat) by lia.
  rewrite lifetime_bound in Hb. specialize (Hb n (or_introl eq_refl)). lia.
Qed.

Lemma lifetime_survivors (l : list Note) :
  (lifetime (survivors l) <= Nat.pred (lifetime l))%nat.
Proof.
  apply lifetime_bound. intros n' Hn'.
  destruct (In_survivors _ _ Hn') as [n [Hn Hk]].
  pose proof (kept_ticksToLive _ _ Hk).
  assert (Hb : (lifetime l <= lifetime l)%nat) by lia.
  rewrite lifetime_bound in Hb. specialize (Hb n Hn). lia.
Qed.

Lemma lifetime_map (f : Note -> Note) (l : list Note) :
  (forall n, ticksToLive (f n) = ticksToLive n) ->
  lifetime (map f l) = lifetime l.
Proof.
  intros H. unfold lifetime. rewrite map_map. f_equal.
  apply map_ext. intros n. now rewrite H.
Qed.

Lemma pressNote_ticksToLive (c : Z) (n : Note) :
  ticksToLive (pressNote c n) = ticksToLive n.
Proof. unfold pressNote. now destruct (inHitWindow c n). Qed.

Lemma releaseNote_ticksToLive (c : Z) (n : Note) :
  ticksToLive (releaseNote c n) = ticksToLive n.
Proof.
  unfold releaseNote, ticksToLive. destruct (tail n) as [t | ] eqn:E.
  - destruct (_ && _); cbn; rewrite ?E; reflexivity.
  - now rewrite E.
Qed.

Lemma mapi_from_lifetime (h : Z) (l : list Note) (k : Z) :
  lifetime (mapi_from (randomiseNote h) k l) = lifetime l.
Proof.
  unfold lifetime. revert k.
  induction l as [ | n l IH]; intros k; cbn; [ reflexivity | ].
  rewrite IH. f_equal. f_equal. unfold randomiseNote.
  now destruct (visual n).
Qed.


Lemma apply_allNotesProcessed (a : Action) (s : State) :
  allNotesProcessed s = true -> allNotesProcessed (apply a s) = true.
Proof. destruct a; cbn; auto. Qed.

Lemma ticksToEnd_zero (s : State) :
  ticksToEnd s = 0%nat -> gameEnd s = true.
Proof.
  unfold ticksToEnd. destruct (currentNotes s); [ | lia ].
  destruct (RIPNotes s); [ | lia ].
  destruct (gameEnd s); [ reflexivity | lia ].
Qed.

Lemma ticksToEnd_le (s : State) :
  (ticksToEnd s <= lifetime (currentNotes s) + 2)%nat.
Proof.
  unfold ticksToEnd. destruct (currentNotes s); [ | lia ].
  destruct (RIPNotes s); [ | lia ]. destruct (gameEnd s); lia.
Qed.

Lemma tick_ticksToEnd (s : State) :
  allNotesProcessed s = true ->
  (ticksToEnd (tick s) <= Nat.pred (ticksToEnd s))%nat.
Proof.
  intros Hall. unfold ticksToEnd at 1.
  rewrite tick_currentNotes. cbn [tick RIPNotes gameEnd].
  fold (survivors (currentNotes s)). fold (sounds (currentNotes s)).
  unfold ticksToEnd.
  pose proof (lifetime_survivors (currentNotes s)) as Hl.
  destruct (currentNotes s) as [ | n l] eqn:Ec.
  - cbn [survivors tickNotes fold_left initAccNoteSound newCurrentNotes
         sounds newPlayableNotes List.length].
    rewrite Hall. destruct (RIPNotes s); cbn; lia.
  - assert (lifetime (n :: l) <> 0)%nat
      by (intros E; apply lifetime_zero in E; discriminate).
    destruct (survivors (n :: l)); lia.
Qed.

Lemma input_ticksToEnd (a : Action) (s : State) :
  isTick a = false -> isSpawn a = false ->
  (ticksToEnd (apply a s) <= ticksToEnd s)%nat.
Proof.
  destruct a; try discriminate; intros _ _; cbn [apply]; unfold ticksToEnd.
  - cbn [ButtonClick_apply currentNotes RIPNotes gameEnd].
    rewrite (lifetime_map _ _ (pressNote_ticksToLive c)).
    destruct (currentNotes s); cbn [map]; [ | lia ].
    destruct (RIPNotes s); destruct (gameEnd s); lia.
  - cbn [ButtonRelease_apply currentNotes RIPNotes gameEnd].
    rewrite (lifetime_map _ _ (releaseNote_ticksToLive c)).
    destruct (currentNotes s); cbn [map]; [ | lia ].
    destruct (RIPNotes s); destruct (gameEnd s); lia.
  - cbn [RandomiseNotes_apply currentNotes RIPNotes gameEnd].
    unfold mapi. rewrite mapi_from_lifetime.
    destruct (currentNotes s); cbn [mapi_from]; lia.
Qed.

Lemma step_ticksToEnd (a : Action) (s : State) :
  allNotesProcessed s = true -> isSpawn a = false ->
  (ticksToEnd (apply a s)
   <= ticksToEnd s - (if isTick a then 1 else 0))%nat.
Proof.
  intros Hall Hs. destruct (isTick a) eqn:Et.
  - destruct a; try discriminate; cbn [apply].
    + change (ticksToEnd (TickGame_apply s)) with (ticksToEnd (tick s)).
      pose proof (tick_ticksToEnd s Hall). lia.
    + unfold GameEnd_apply.
      pose proof (tick_ticksToEnd (with_allNotesProcessed s true) eq_refl)
        as H.
      change (ticksToEnd (with_allNotesProcessed s true))
        with (ticksToEnd s) in H. lia.
  - pose proof (input_ticksToEnd a s Et Hs). lia.
Qed.

(** X5.  Once the chart is exhausted the game ends, and input cannot put
    the end off: from a state with [allNotesProcessed] set, any list of
    actions without a spawn that holds at least [lifetime + 2] ticks
    ([TickGame] or [GameEnd]) leaves [gameEnd] set, [lifetime] being the
    bound on the steps the live notes need to fall off the board. *)
Theorem game_ends_after_enough_ticks (actions : list Action) (s : State) :
  allNotesProcessed s = true ->
  forallb (fun a => negb (isSpawn a)) actions = true ->
  (lifetime (currentNotes s) + 2 <= countTicks actions)%nat ->
  gameEnd (fold_left applyAction actions s) = true.
Proof.
  intros Hall Hns Hk. apply ticksToEnd_zero.
  assert (H : (ticksToEnd (fold_left applyAction actions s)
               <= ticksToEnd s - countTicks actions)%nat).
  { clear Hk. revert s Hall.
    induction actions as [ | a l IH]; intros s Hall; cbn [fold_left].
    - cbn. lia.
    - cbn [forallb] in Hns. apply andb_true_iff in Hns.
      destruct Hns as [Ha Hl]. apply negb_true_iff in Ha.
      unfold applyAction at 2.
      specialize (IH Hl (apply a s) (apply_allNotesProcessed a s Hall)).
      pose proof (step_ticksToEnd a s Hall Ha) as Hstep.
      unfold countTicks in *. cbn [filter].
      destruct (isTick a); cbn [List.length]; lia. }
  pose proof (ticksToEnd_le s). lia.
Qed.


(** ** Pressing twice, releasing twice *)

Lemma inHitWindow_pressed (c c' : Z) (n : Note) :
  inHitWindow c' (pressNote c n)
  = if c' =? c then false else inHitWindow c' n.
Proof.
  unfold pressNote. destruct (inHitWindow c n) eqn:E.
  - unfold inHitWindow at 1. cbn [visual with_visual position column].
    rewrite andb_false_r.
    destruct (Z.eqb_spec c' c) as [-> | Hne]; [ reflexivity | ].
    unfold inHitWindow in *.
    apply andb_true_iff in E. destruct E as [E _].
    apply andb_true_iff in E. destruct E as [_ E].
    apply Z.eqb_eq in E.
    replace (column n =? c') with false
      by (symmetry; apply Z.eqb_neq; congruence).
    now rewrite andb_false_r.
  - destruct (Z.eqb_spec c' c) as [-> | Hne]; [ exact E | reflexivity ].
Qed.

Lemma hitsOf_pressed (c c' : Z) (s : State) :
  hitsOf c' (ButtonClick_apply c s)
  = if c' =? c then [] else map (pressNote c) (hitsOf c' s).
Proof.
  unfold hitsOf. cbn [ButtonClick_apply currentNotes].
  induction (currentNotes s) as [ | n l IH]; cbn [map filter].
  - now destruct (c' =? c).
  - rewrite inHitWindow_pressed, IH.
    destruct (c' =? c); [ reflexivity | ].
    now destruct (inHitWindow c' n).
Qed.

Lemma sustainedIn_tailless (c : Z) (l : list Note) :
  (forall n, In n l -> column n = c -> tail n = None) ->
  existsb (sustainedIn c) l = false.
Proof.
  intros H. destruct (existsb (sustainedIn c) l) eqn:E; [ | reflexivity ].
  apply existsb_exists in E. destruct E as [n [Hn Hs]].
  unfold sustainedIn in Hs. apply andb_true_iff in Hs.
  destruct Hs as [Hs Ht]. apply andb_true_iff in Hs. destruct Hs as [Hc _].
  apply Z.eqb_eq in Hc. rewrite (H n Hn Hc) in Ht. discriminate.
Qed.

Lemma press_no_hit_score (c : Z) (s : State) :
  hitsOf c s = [] ->
  - 2 ^ 31 <= scoreGained s < 2 ^ 31 ->
  scoreGained (ButtonClick_apply c s) = scoreGained s
  /\ bonusActive (ButtonClick_apply c s) = bonusActive s.
Proof.
  intros Hh Hr. unfold hitsOf in Hh. split.
  - cbn [ButtonClick_apply scoreGained].
    rewrite press_score, Hh. cbn [accScoreGained hitScore].
    now apply toInt32_inject_Z.
  - cbn [ButtonClick_apply bonusActive].
    rewrite press_specialGained, Hh. cbn. lia.
Qed.

(** X6.  A note is never scored twice.  After [ButtonClick(c)] no note of
    column [c] is left to hit, and the hits open to any other column are
    the same notes as before; a second press of [c] right after the first
    therefore leaves score and bonus pool alone, and when the column holds
    no note with a tail it counts as a wrong press: one synthetic note is
    appended and the combo falls back to the bonus pool. *)
Theorem second_press_scores_nothing (c : Z) (s : State) :
  hitsOf c (ButtonClick_apply c s) = []
  /\ (forall c', c' <> c ->
        hitsOf c' (ButtonClick_apply c s) = hitsOf c' s)
  /\ scoreGained (ButtonClick_apply c (ButtonClick_apply c s))
     = scoreGained (ButtonClick_apply c s)
  /\ bonusActive (ButtonClick_apply c (ButtonClick_apply c s))
     = bonusActive (ButtonClick_apply c s)
  /\ ((forall n, In n (currentNotes s) -> column n = c -> tail n = None) ->
      noteCount (ButtonClick_apply c (ButtonClick_apply c s))
      = bonusActive (ButtonClick_apply c s)
      /\ playableNotes (ButtonClick_apply c (ButtonClick_apply c s))
         = playableNotes (ButtonClick_apply c s)
           ++ [wrongNote (hash (ButtonClick_apply c s))]).
Proof.
  assert (H0 : hitsOf c (ButtonClick_apply c s) = []).
  { rewrite hitsOf_pressed. now rewrite Z.eqb_refl. }
  split; [ exact H0 | ]. split.
  { intros c' Hne. rewrite hitsOf_pressed.
    replace (c' =? c) with false by (symmetry; now apply Z.eqb_neq).
    apply map_id_on. intros n Hn. unfold hitsOf in Hn.
    apply filter_In in Hn. destruct Hn as [_ Hn].
    unfold pressNote. destruct (inHitWindow c n) eqn:E; [ | reflexivity ].
    exfalso. unfold inHitWindow in Hn, E.
    apply andb_true_iff in Hn. destruct Hn as [Hn _].
    apply andb_true_iff in Hn. destruct Hn as [_ Hn].
    apply andb_true_iff in E. destruct E as [E _].
    apply andb_true_iff in E. destruct E as [_ E].
    apply Z.eqb_eq in Hn, E. congruence. }
  assert (Hr : - 2 ^ 31 <= scoreGained (ButtonClick_apply c s) < 2 ^ 31)
    by apply wrap32_range.
  destruct (press_no_hit_score c _ H0 Hr) as [Hs Hb].
  split; [ exact Hs | ]. split; [ exact Hb | ].
  intros Htl.
  set (s1 := ButtonClick_apply c s) in *.
  assert (E1 : existsb (inHitWindow c) (currentNotes s1) = false)
    by (now apply existsb_filter_nil).
  assert (E2 : existsb (sustainedIn c) (currentNotes s1) = false).
  { apply sustainedIn_tailless. intros n Hn Hc.
    unfold s1 in Hn. cbn [ButtonClick_apply currentNotes] in Hn.
    apply in_map_iff in Hn. destruct Hn as [m [<- Hm]].
    destruct (pressNote_frame c m) as [_ ->].
    apply Htl; [ exact Hm | ].
    unfold pressNote in Hc. now destruct (inHitWindow c m). }
  cbn [ButtonClick_apply noteCount playableNotes].
  rewrite checkWrongPress_spec, E1, E2. cbn [negb andb]. auto.
Qed.

Lemma heldTail_released (c : Z) (n : Note) :
  heldTail c (releaseNote c n) = false.
Proof.
  rewrite releaseNote_markDead. destruct (heldTail c n) eqn:E; [ | exact E ].
  unfold heldTail, markDead in *. destruct (tail n); [ | discriminate ].
  cbn. now rewrite andb_false_r.
Qed.

(** X7.  Releasing is idempotent: after [ButtonRelease(c)] no sustain is
    held in column [c], so a second release of [c] right after the first
    changes neither the notes nor the combo nor the score (no second
    penalty). *)
Theorem second_release_changes_nothing (c : Z) (s : State) :
  heldCount c (ButtonRelease_apply c s) = 0%nat
  /\ currentNotes (ButtonRelease_apply c (ButtonRelease_apply c s))
     = currentNotes (ButtonRelease_apply c s)
  /\ noteCount (ButtonRelease_apply c (ButtonRelease_apply c s))
     = noteCount (ButtonRelease_apply c s)
  /\ scoreGained (ButtonRelease_apply c (ButtonRelease_apply c s))
     = scoreGained (ButtonRelease_apply c s).
Proof.
  set (s1 := ButtonRelease_apply c s).
  assert (Hnone : forall n, In n (currentNotes s1) -> heldTail c n = false).
  { intros n Hn. unfold s1 in Hn.
    cbn [ButtonRelease_apply currentNotes] in Hn.
    apply in_map_iff in Hn. destruct Hn as [m [<- _]].
    apply heldTail_released. }
  assert (Hk : filter (heldTail c) (currentNotes s1) = []).
  { apply existsb_filter_nil.
    destruct (existsb (heldTail c) (currentNotes s1)) eqn:E;
      [ | reflexivity ].
    apply existsb_exists in E. destruct E as [n [Hn E]].
    rewrite (Hnone n Hn) in E. discriminate. }
  split; [ unfold heldCount; now rewrite Hk | ].
  split; [ | split ].
  - cbn [ButtonRelease_apply currentNotes]. apply map_id_on.
    intros n Hn. rewrite releaseNote_markDead. now rewrite (Hnone n Hn).
  - cbn [ButtonRelease_apply noteCount]. rewrite release_combo_fold.
    apply existsb_filter_nil in Hk. now rewrite Hk.
  - cbn [ButtonRelease_apply scoreGained].
    assert (Hr : - 2 ^ 31 <= scoreGained s1 < 2 ^ 31) by apply wrap32_range.
    rewrite release_score_fold, Hk. cbn [List.length penalised Nat.iter].
    now apply toInt32_inject_Z.
Qed.


(** ** What the generator's contract gives *)

(** [~~(x * k)] for [x] in [[0,1)] is one of [0 .. k-1]. *)
Lemma toInt32_scaled (x : Q) (k : Z) :
  (0 <= x)%Q -> (x < 1)%Q -> 0 < k < 2 ^ 31 ->
  0 <= JS.toInt32 (x * inject_Z k) < k.
Proof.
  intros H0 H1 Hk.
  assert (Hk' : (0 < inject_Z k)%Q)
    by (change 0%Q with (inject_Z 0); rewrite <- Zlt_Qlt; lia).
  assert (Hlo : (0 <= x * inject_Z k)%Q) by nra.
  assert (Hhi : (x * inject_Z k < inject_Z k)%Q) by nra.
  unfold JS.toInt32. rewrite Qtrunc_floor.
  replace (Qle_bool 0 (x * inject_Z k)) with true
    by (symmetry; now apply Qle_bool_iff).
  assert (F0 : 0 <= Qfloor (x * inject_Z k)).
  { rewrite <- (Qfloor_Z 0). now apply Qfloor_resp_le. }
  assert (F1 : Qfloor (x * inject_Z k) < k).
  { pose proof (Qfloor_le (x * inject_Z k)) as Hf.
    rewrite Zlt_Qlt. lra. }
  rewrite wrap32_small; lia.
Qed.

Lemma kept_note_column (m m' : Note) :
  fst (updatePositionForGame m) = Some m' -> column m' = column m.
Proof.
  unfold updatePositionForGame, updateNotePosition.
  destruct m as [i sp v p c nm ve pi st en [t | ]];
    cbn [tail visual position].
  - destruct v; [ destruct (Qeq_bool _ _) | destruct (_ =? _) ];
      try destruct (JS.Qltb _ _); cbn [fst];
      intros E; inversion E; reflexivity.
  - destruct (_ <=? _); [ | discriminate ].
    destruct v; destruct (_ <? _); try destruct (_ =? _); cbn [fst];
      intros E; inversion E; reflexivity.
Qed.

Lemma survivors_inLanes (l : list Note) : inLanes l -> inLanes (survivors l).
Proof.
  unfold inLanes. rewrite !Forall_forall. intros H m' Hm'.
  destruct (In_survivors _ _ Hm') as [m [Hm Hk]].
  rewrite (kept_note_column _ _ Hk). now apply H.
Qed.

(** X8.  Notes stay in the four lanes: with [RNG.scale] in [[0,1)], when
    the live notes and the notes an action brings in have columns in
    [0 .. 3], so have the live notes after the action; in particular
    [RandomiseNotes] moves a visual note to one of the four lanes. *)
Theorem notes_stay_in_lanes (a : Action) (s : State) :
  scaleInUnit ->
  inLanes (currentNotes s ++ batchOf a) ->
  inLanes (currentNotes (apply a s)).
Proof.
  intros Hscale. unfold inLanes.
  destruct a; cbn [batchOf apply]; rewrite ?app_nil_r; intros H.
  - cbn [ButtonClick_apply currentNotes]. apply Forall_map.
    eapply Forall_impl; [ | exact H ]. intros n Hn. unfold pressNote.
    now destruct (inHitWindow c n).
  - cbn [ButtonRelease_apply currentNotes]. apply Forall_map.
    eapply Forall_impl; [ | exact H ]. intros n Hn. unfold releaseNote.
    destruct (tail n); [ destruct (_ && _) | ]; exact Hn.
  - now apply survivors_inLanes.
  - now apply (survivors_inLanes (currentNotes s)).
  - unfold NextNote_apply. rewrite tick_currentNotes. cbn [currentNotes].
    apply survivors_inLanes. unfold inLanes.
    apply Forall_app in H. destruct H as [H1 H2].
    apply Forall_app. split; [ exact H1 | ].
    apply Forall_map. eapply Forall_impl; [ | exact H2 ].
    intros n Hn. unfold spawnNote. now destruct (_ && _).
  - cbn [RandomiseNotes_apply currentNotes]. unfold mapi.
    apply Forall_forall. intros m' Hm'.
    apply In_mapi_from in Hm'. destruct Hm' as [m [i [Hm ->]]].
    rewrite Forall_forall in H. specialize (H m Hm).
    unfold randomiseNote. destruct (visual m); [ | exact H ].
    cbn [column with_column].
    destruct (Hscale (RNG_hash (hash s + i))) as [H0 H1].
    apply (toInt32_scaled _ 4 H0 H1). lia.
Qed.

(** X9.  The synthetic note of a wrong press is playable: with
    [RNG.scale] in [[0,1)] its instrument is one of the six of
    [instrumentList], its velocity is in [0 .. 89], its pitch in
    [0 .. 69], it starts at 0 and lasts between 0 and 499 ms, and it has
    no tail. *)
Theorem wrong_note_in_range (h : Z) :
  scaleInUnit ->
  In (instrumentName (wrongNote h)) instrumentList
  /\ 0 <= velocity (wrongNote h) < 90
  /\ 0 <= pitch (wrongNote h) < 70
  /\ start (wrongNote h) = 0%Q
  /\ (exists d : Z, end_ (wrongNote h) = inject_Z d /\ 0 <= d < 500)
  /\ tail (wrongNote h) = None.
Proof.
  intros Hscale. destruct (Hscale h) as [H0 H1].
  cbn [wrongNote instrumentName velocity pitch start end_ tail].
  split; [ | split; [ | split; [ | split; [ | split ] ] ] ].
  - pose proof (toInt32_scaled _ 6 H0 H1 ltac:(lia)) as Hi.
    change (inject_Z (Z.of_nat (List.length instrumentList)))
      with (inject_Z 6).
    set (i := JS.toInt32 (RNG_scale h * inject_Z 6)) in *.
    unfold instrumentAt.
    change (Z.of_nat (List.length instrumentList)) with 6.
    replace ((0 <=? i) && (i <? 6)) with true
      by (symmetry; apply andb_true_iff; split;
          [ apply Z.leb_le | apply Z.ltb_lt ]; lia).
    apply nth_In. change (List.length instrumentList) with 6%nat. lia.
  - apply (toInt32_scaled _ 90 H0 H1). lia.
  - apply (toInt32_scaled _ 70 H0 H1). lia.
  - reflexivity.
  - eexists. split; [ reflexivity | ].
    apply (toInt32_scaled _ 500 H0 H1). lia.
  - reflexivity.
Qed.


(** ** Dead tails stay dead *)

Lemma kept_note_dead (m m' : Note) (t' : Tail) :
  fst (updatePositionForGame m) = Some m' -> tail m' = Some t' ->
  (visual m' = true -> JS.truthy (dead t') = false)
  /\ (visual m = false ->
      exists t, tail m = Some t /\ dead t' = dead t).
Proof.
  unfold updatePositionForGame, updateNotePosition.
  destruct m as [i sp v p c nm ve pi st en [t | ]];
    cbn [tail visual position].
  - destruct v; [ destruct (Qeq_bool _ _) | destruct (_ =? _) ];
      try destruct (JS.Qltb _ _); cbn [fst];
      intros E; inversion E; subst m'; cbn;
      intros Et; inversion Et; subst t'; cbn;
      (split; [ auto; discriminate | ]); intros Hv;
      try discriminate; eauto.
  - destruct (_ <=? _); [ | discriminate ].
    destruct v; destruct (_ <? _); try destruct (_ =? _); cbn [fst];
      intros E; inversion E; subst m'; cbn; discriminate.
Qed.

Lemma survivors_noDeadVisual (l : list Note) : noDeadVisual (survivors l).
Proof.
  intros m' t' Hin Hv Ht.
  destruct (In_survivors _ _ Hin) as [m [_ Hk]].
  now destruct (kept_note_dead _ _ _ Hk Ht) as [H _]; apply H.
Qed.

Lemma noDeadVisual_step (a : Action) (s : State) :
  noDeadVisual (currentNotes s) -> noDeadVisual (currentNotes (apply a s)).
Proof.
  intros H. destruct a; cbn [apply].
  - intros m' t' Hin Hv Ht.
    cbn [ButtonClick_apply currentNotes] in Hin.
    apply in_map_iff in Hin. destruct Hin as [m [<- Hm]].
    unfold pressNote in *. destruct (inHitWindow c m); [ discriminate | ].
    now apply (H m t').
  - intros m' t' Hin Hv Ht.
    cbn [ButtonRelease_apply currentNotes] in Hin.
    apply in_map_iff in Hin. destruct Hin as [m [<- Hm]].
    rewrite releaseNote_markDead in *.
    destruct (heldTail c m) eqn:E; [ | now apply (H m t') ].
    unfold heldTail in E. unfold markDead in *.
    destruct (tail m); [ | discriminate ].
    cbn in Hv. rewrite Hv in E. cbn in E. rewrite andb_false_r in E.
    discriminate.
  - apply survivors_noDeadVisual.
  - apply (survivors_noDeadVisual (currentNotes s)).
  - unfold NextNote_apply. rewrite tick_currentNotes.
    apply survivors_noDeadVisual.
  - intros m' t' Hin Hv Ht.
    cbn [RandomiseNotes_apply currentNotes] in Hin. unfold mapi in Hin.
    apply In_mapi_from in Hin. destruct Hin as [m [i [Hm ->]]].
    unfold randomiseNote in *.
    destruct (visual m) eqn:E; [ | congruence ].
    apply (H m t'); auto.
Qed.

Lemma liveTail_kept (l : list Note) (m' : Note) :
  noDeadVisual l -> In m' (survivors l) -> liveTail m' ->
  exists m, In m l /\ id m = id m' /\ liveTail m.
Proof.
  intros Hinv Hin [t' [Ht' Hlive]].
  destruct (In_survivors _ _ Hin) as [m [Hm Hk]].
  exists m. split; [ exact Hm | ].
  destruct (kept_note_frame _ _ Hk) as (Hid & _ & Htl & _).
  split; [ now rewrite Hid | ].
  destruct (kept_note_dead _ _ _ Hk Ht') as [_ Hnv].
  destruct (visual m) eqn:Ev.
  - destruct (tail m) as [t | ] eqn:Et.
    + exists t. split; [ exact Et | ]. now apply (Hinv m t).
    + assert (tail m' = None) by now apply Htl. congruence.
  - destruct (Hnv eq_refl) as [t [Et Ed]].
    exists t. split; [ exact Et | ]. now rewrite <- Ed.
Qed.

(** X10.  A dead tail stays dead.  Along every run no visual note carries
    a dead tail; and from a state where this holds, a note whose tail is
    not dead after an action had a tail that was not dead before it, or
    is a sustain event just spawned: neither the physics step nor a press
    nor a release brings a dead sustain back. *)
Theorem dead_tails_stay_dead :
  (forall actions : list Action, noDeadVisual (currentNotes (run actions)))
  /\ (forall (a : Action) (s : State) (m' : Note),
        noDeadVisual (currentNotes s) ->
        In m' (currentNotes (apply a s)) -> liveTail m' ->
        (exists m, In m (currentNotes s) /\ id m = id m' /\ liveTail m)
        \/ (exists batch n, a = NextNote batch /\ In n batch
                            /\ id n = id m' /\ sustainEvent n)).
Proof.
  split.
  { intros actions. unfold run.
    assert (H0 : noDeadVisual (currentNotes initialState))
      by (intros n t []).
    revert H0. generalize initialState.
    induction actions as [ | a l IH]; intros s Hs; [ exact Hs | ].
    cbn [fold_left]. apply IH. now apply noDeadVisual_step. }
  intros a s m' Hinv Hin Hlive. destruct a; cbn [apply] in Hin.
  - left. cbn [ButtonClick_apply currentNotes] in Hin.
    apply in_map_iff in Hin. destruct Hin as [m [<- Hm]].
    exists m. destruct (pressNote_frame c m) as [Hid Htl].
    unfold liveTail in *. rewrite Htl in Hlive. auto.
  - left. cbn [ButtonRelease_apply currentNotes] in Hin.
    apply in_map_iff in Hin. destruct Hin as [m [<- Hm]].
    exists m. destruct (releaseNote_frame c m) as [Hid _].
    split; [ exact Hm | ]. split; [ now rewrite Hid | ].
    rewrite releaseNote_markDead in Hlive.
    destruct (heldTail c m); [ | exact Hlive ].
    destruct Hlive as [t [Et Ed]]. unfold markDead in Et.
    destruct (tail m) eqn:Etm; [ | congruence ].
    cbn in Et. inversion Et; subst t. discriminate.
  - left. now apply liveTail_kept.
  - left. now apply (liveTail_kept (currentNotes s)).
  - unfold NextNote_apply in Hin. rewrite tick_currentNotes in Hin.
    cbn [currentNotes] in Hin.
    assert (Hinv' : noDeadVisual
                      (currentNotes s ++ map (spawnNote (hash s)) batch)).
    { intros n t Hn Hv Ht. apply in_app_or in Hn. destruct Hn as [Hn | Hn].
      - now apply (Hinv n t).
      - apply in_map_iff in Hn. destruct Hn as [n0 [<- _]].
        unfold spawnNote in Ht. destruct (_ && _); cbn in Ht;
          [ inversion Ht; reflexivity | discriminate ]. }
    destruct (liveTail_kept _ _ Hinv' Hin Hlive) as [m [Hm [Hid Hl]]].
    apply in_app_or in Hm. destruct Hm as [Hm | Hm].
    + left. exists m. auto.
    + right. apply in_map_iff in Hm. destruct Hm as [n [<- Hn]].
      exists batch, n. split; [ reflexivity | ]. split; [ exact Hn | ].
      destruct (spawnNote_frame (hash s) n) as [Ei _].
      split; [ congruence | ].
      destruct (sustainEvent_dec n) as [Hs | Hs]; [ exact Hs | ].
      exfalso. rewrite (spawnNote_plain (hash s) n Hs) in Hl.
      destruct Hl as [t [Et _]]. discriminate.
  - left. cbn [RandomiseNotes_apply currentNotes] in Hin. unfold mapi in Hin.
    apply In_mapi_from in Hin. destruct Hin as [m [i [Hm ->]]].
    exists m. destruct (randomiseNote_frame (hash s) m i) as [Hid Htl].
    unfold liveTail in *. rewrite Htl in Hlive. auto.
Qed.


(** ** The chart scheduler keeps the chart's timing *)

Lemma due_nonneg (d : Q) :
  (0 <= d)%Q -> (if JS.Qltb d 0 then 0%Q else d) = d.
Proof.
  intros H. destruct (JS.Qltb d 0) eqn:E; [ | reflexivity ].
  apply Qltb_lt in E. lra.
Qed.

Lemma scan_on_schedule (groups : list (list Note)) (store : DelayedNotes)
    (previous time : Q) :
  storeStart store = Some previous ->
  ascendingFrom previous groups ->
  snd (scanDelayed store groups) = true
  /\ map group (fst (scanDelayed store groups)) = groups
  /\ Forall2 (fun t g =>
                exists t0, groupStart g = Some t0
                           /\ (t == time + (t0 - previous))%Q)
             (emissionTimes time (fst (scanDelayed store groups))) groups.
Proof.
  revert store previous time.
  induction groups as [ | g rest IH]; intros store previous time Hs Ha.
  - cbn. auto.
  - cbn [ascendingFrom] in Ha.
    destruct g as [ | first g']; cbn [groupStart] in Ha; [ contradiction | ].
    destruct Ha as [Hle Ha].
    cbn [scanDelayed delayStep]. rewrite Hs.
    set (d := {| delayIt := start first - previous;
                 storeStart := Some (start first);
                 group := first :: g' |}).
    assert (Hd : (0 <= delayIt d)%Q) by (cbn; lra).
    specialize (IH d (start first) (time + delayIt d)%Q eq_refl Ha).
    destruct (scanDelayed d rest) as [out ok].
    cbn [fst snd] in *. destruct IH as (Hok & Hg & Ht).
    split; [ exact Hok | ]. split; [ cbn [map]; now rewrite Hg | ].
    cbn [emissionTimes]. rewrite (due_nonneg _ Hd).
    constructor.
    + exists (start first). split; [ reflexivity | ]. cbn. reflexivity.
    + eapply Forall2_impl; [ | exact Ht ].
      intros t g [t0 [Hg0 Ht0]]. exists t0. split; [ exact Hg0 | ].
      rewrite Ht0. cbn. ring.
Qed.

Lemma scan_ok (groups : list (list Note)) (store : DelayedNotes) :
  snd (scanDelayed store groups)
  = forallb (fun g => match g with [] => false | _ => true end) groups.
Proof.
  revert store. induction groups as [ | g rest IH]; intros store;
    [ reflexivity | ].
  destruct g as [ | first g']; [ reflexivity | ].
  cbn [scanDelayed delayStep forallb andb].
  rewrite <- (IH {| delayIt :=
                      match storeStart store with
                      | Some previous => start first - previous
                      | None => 0
                      end;
                    storeStart := Some (start first);
                    group := first :: g' |}).
  now destruct (scanDelayed _ rest).
Qed.

(** X11.  The scheduler reproduces the chart's timing from the gaps.  For
    groups that are not empty and whose start times do not decrease, the
    scan runs to the end and emits the groups unchanged, in order; without
    an initial start the first batch is due at once and every batch is
    due its start time minus the first start time after it; with an
    initial start [x] not after the first start every batch is due its
    start time minus [x].  The scan stops early exactly when a group is
    empty. *)
Theorem scheduler_keeps_timing (groups : list (list Note)) :
  (ascendingChart groups ->
     snd (delayedGroupNotes None groups) = true
     /\ map group (fst (delayedGroupNotes None groups)) = groups
     /\ forall g rest t0, groups = g :: rest -> groupStart g = Some t0 ->
          onSchedule t0
            (emissionTimes 0 (fst (delayedGroupNotes None groups))) groups)
  /\ (forall x : Q, ascendingFrom x groups ->
        snd (delayedGroupNotes (Some x) groups) = true
        /\ map group (fst (delayedGroupNotes (Some x) groups)) = groups
        /\ onSchedule x
             (emissionTimes 0 (fst (delayedGroupNotes (Some x) groups)))
             groups)
  /\ (forall initialStart,
        snd (delayedGroupNotes initialStart groups)
        = forallb (fun g => match g with [] => false | _ => true end)
                  groups).
Proof.
  split; [ | split ].
  - intros Ha. unfold delayedGroupNotes.
    destruct groups as [ | g rest].
    { cbn. repeat split. intros g rest t0 E. discriminate. }
    cbn [ascendingChart] in Ha.
    destruct g as [ | first g']; cbn [groupStart] in Ha; [ contradiction | ].
    cbn [scanDelayed delayStep initialStore storeStart].
    set (d := {| delayIt := 0; storeStart := Some (start first);
                 group := first :: g' |}).
    pose proof (scan_on_schedule rest d (start first) (0 + 0)%Q eq_refl Ha)
      as H.
    destruct (scanDelayed d rest) as [out ok]. cbn [fst snd] in *.
    destruct H as (Hok & Hg & Ht).
    split; [ exact Hok | ]. split; [ cbn [map]; now rewrite Hg | ].
    intros g rest0 t0 E Hg0. inversion E; subst g rest0.
    cbn [groupStart] in Hg0. inversion Hg0; subst t0.
    unfold onSchedule. cbn [emissionTimes delayIt d].
    change (JS.Qltb 0 0) with false. cbv iota.
    constructor.
    + exists (start first). split; [ reflexivity | ]. ring.
    + eapply Forall2_impl; [ | exact Ht ].
      intros t g [t0 [Hg1 Ht0]]. exists t0. split; [ exact Hg1 | ].
      rewrite Ht0. ring.
  - intros x Ha. unfold delayedGroupNotes.
    pose proof (scan_on_schedule groups (initialStore (Some x)) x 0%Q
                  eq_refl Ha) as H.
    destruct H as (Hok & Hg & Ht).
    split; [ exact Hok | ]. split; [ exact Hg | ].
    unfold onSchedule. eapply Forall2_impl; [ | exact Ht ].
    intros t g [t0 [Hg1 Ht0]]. exists t0. split; [ exact Hg1 | ].
    rewrite Ht0. ring.
  - intros initialStart. apply scan_ok.
Qed.


(** ** What is heard *)

Lemma forEachCall_all (f : Note -> option (list AudioCall))
    (l : list Note) :
  (forall n, In n l -> f n <> None) ->
  snd (forEachCall f l) = true
  /\ (forall n calls call, In n l -> f n = Some calls -> In call calls ->
        In call (fst (forEachCall f l)))
  /\ (forall call, In call (fst (forEachCall f l)) ->
        exists n calls, In n l /\ f n = Some calls /\ In call calls).
Proof.
  induction l as [ | m l IH]; intros Hall.
  - cbn. repeat split; try contradiction.
  - cbn [forEachCall].
    destruct (f m) as [cs | ] eqn:E;
      [ | exfalso; apply (Hall m); [ now left | exact E ] ].
    destruct IH as (Hok & Hin & Hout).
    { intros n Hn. apply Hall. now right. }
    destruct (forEachCall f l) as [more ok]. cbn [fst snd] in *.
    split; [ exact Hok | ]. split.
    + intros n calls call [<- | Hn] Ef Hc; apply in_or_app.
      * left. congruence.
      * right. eapply Hin; eauto.
    + intros call Hc. apply in_app_or in Hc. destruct Hc as [Hc | Hc].
      * exists m, cs. split; [ now left | auto ].
      * destruct (Hout call Hc) as [n [calls [Hn H]]].
        exists n, calls. split; [ now right | exact H ].
Qed.

Lemma markDead_deadSustain (c : Z) (n : Note) :
  heldTail c n = true ->
  deadSustain (markDead n) = true
  /\ instrumentName (markDead n) = instrumentName n
  /\ pitch (markDead n) = pitch n.
Proof.
  unfold heldTail, markDead, deadSustain.
  destruct (tail n) as [t | ]; [ | discriminate ].
  rewrite !andb_true_iff, !negb_true_iff. intros [[_ Hv] _].
  cbn. rewrite Hv. auto.
Qed.

Lemma releaseNote_sampler (c : Z) (n : Note) :
  instrumentName (releaseNote c n) = instrumentName n.
Proof.
  unfold releaseNote. destruct (tail n); [ destruct (_ && _) | ];
    reflexivity.
Qed.

(** X12.  A release is heard.  When the sampler of every live note is
    loaded, [suppressNotes] on the state after [ButtonRelease(c)] runs to
    the end, calls [triggerRelease] for every sustain that was held in
    column [c], and calls nothing but the release of consumed notes whose
    tail is dead. *)
Theorem release_silences_held_sustains
    (samples : string -> bool) (c : Z) (s : State) :
  (forall n, In n (currentNotes s) -> samples (instrumentName n) = true) ->
  snd (suppressNotes samples (ButtonRelease_apply c s)) = true
  /\ (forall n, In n (currentNotes s) -> heldTail c n = true ->
        In (triggerRelease (instrumentName n) (pitch n))
           (fst (suppressNotes samples (ButtonRelease_apply c s))))
  /\ (forall call,
        In call (fst (suppressNotes samples (ButtonRelease_apply c s))) ->
        exists n, In n (currentNotes (ButtonRelease_apply c s))
                  /\ deadSustain n = true
                  /\ call = triggerRelease (instrumentName n) (pitch n)).
Proof.
  intros Hs. unfold suppressNotes.
  cbn [ButtonRelease_apply currentNotes].
  set (l := filter deadSustain (map (releaseNote c) (currentNotes s))).
  assert (Hl : forall n, In n l -> samples (instrumentName n) = true).
  { intros n Hn. unfold l in Hn. apply filter_In in Hn.
    destruct Hn as [Hn _]. apply in_map_iff in Hn.
    destruct Hn as [m [<- Hm]]. rewrite releaseNote_sampler. now apply Hs. }
  destruct (forEachCall_all (suppressNote samples) l) as (Hok & Hin & Hout).
  { intros n Hn. unfold suppressNote. rewrite (Hl n Hn). discriminate. }
  split; [ exact Hok | ]. split.
  - intros n Hn Hh.
    destruct (markDead_deadSustain c n Hh) as (Hd & Hi & Hp).
    assert (Hm : In (markDead n) l).
    { unfold l. apply filter_In. split; [ | exact Hd ].
      apply in_map_iff. exists n. split; [ | exact Hn ].
      rewrite releaseNote_markDead. now rewrite Hh. }
    apply (Hin (markDead n) [triggerRelease (instrumentName n) (pitch n)]);
      [ exact Hm | | now left ].
    unfold suppressNote. rewrite (Hl _ Hm), Hi, Hp. reflexivity.
  - intros call Hc. destruct (Hout call Hc) as [n [calls [Hn [Hf Hcall]]]].
    exists n. unfold l in Hn. apply filter_In in Hn. destruct Hn as [Hn Hd].
    split; [ exact Hn | ]. split; [ exact Hd | ].
    unfold suppressNote in Hf. destruct (samples (instrumentName n));
      [ | discriminate ].
    inversion Hf; subst calls. destruct Hcall as [<- | []]. reflexivity.
Qed.

Lemma ticks_currentNotes (k : nat) (s : State) :
  currentNotes (Nat.iter k tick s) = Nat.iter k survivors (currentNotes s).
Proof.
  induction k as [ | k IH]; [ reflexivity | ].
  rewrite !Nat.iter_succ. now rewrite tick_currentNotes, IH.
Qed.

(** A consumed note without tail falls one row per step until its head is
    on the bottom row. *)
Lemma consumed_tap_falls (m : Note) (l : list Note) (k : nat) :
  In m l -> visual m = false -> tail m = None ->
  position m + Z.of_nat k < Constants.BOTTOM_ROW ->
  In (with_position m (position m + Z.of_nat k)) (Nat.iter k survivors l).
Proof.
  intros Hm Hv Ht. induction k as [ | k IH]; intros Hk.
  - cbn [Nat.iter Z.of_nat]. rewrite Z.add_0_r.
    now destruct m.
  - rewrite Nat.iter_succ, survivors_flat_map. apply in_flat_map.
    exists (with_position m (position m + Z.of_nat k)).
    split; [ apply IH; lia | ].
    unfold keptOf. rewrite tailless_step by exact Ht.
    cbn [position with_position].
    replace (position m + Z.of_nat k + 1 <? Constants.BOTTOM_ROW) with true
      by (symmetry; apply Z.ltb_lt; lia).
    cbn [fst]. left. unfold with_position. cbn. f_equal. lia.
Qed.

(** X13.  A tap that is hit sounds when its head reaches the bottom row,
    not when it is pressed.  After [ButtonClick(c)] has hit a note without
    tail at position [p], the note stays among the live notes, consumed
    and one row lower per physics step, and the step number
    [BOTTOM_ROW - p] plays it, on the bottom row. *)
Theorem hit_tap_sounds_at_bottom (c : Z) (s : State) (n : Note) :
  In n (currentNotes s) -> inHitWindow c n = true -> tail n = None ->
  (forall k : nat,
     position n + Z.of_nat k < Constants.BOTTOM_ROW ->
     In (with_position (with_visual n false) (position n + Z.of_nat k))
        (currentNotes (Nat.iter k tick (ButtonClick_apply c s))))
  /\ In (with_position (with_visual n false) Constants.BOTTOM_ROW)
        (playableNotes
           (Nat.iter (Z.to_nat (Constants.BOTTOM_ROW - position n)) tick
              (ButtonClick_apply c s))).
Proof.
  intros Hn Hh Ht.
  set (m := with_visual n false).
  assert (Hm : In m (currentNotes (ButtonClick_apply c s))).
  { cbn [ButtonClick_apply currentNotes]. apply in_map_iff.
    exists n. split; [ | exact Hn ]. unfold pressNote. now rewrite Hh. }
  assert (Hfall : forall k : nat,
            position n + Z.of_nat k < Constants.BOTTOM_ROW ->
            In (with_position m (position n + Z.of_nat k))
               (currentNotes (Nat.iter k tick (ButtonClick_apply c s)))).
  { intros k Hk. rewrite ticks_currentNotes.
    apply (consumed_tap_falls m _ k Hm eq_refl Ht). exact Hk. }
  split; [ exact Hfall | ].
  assert (Hp : position n < Constants.BOTTOM_ROW).
  { unfold inHitWindow in Hh. rewrite !andb_true_iff in Hh.
    destruct Hh as [[[_ Hh] _] _]. now apply Z.ltb_lt. }
  destruct (Z.to_nat (Constants.BOTTOM_ROW - position n)) as [ | k] eqn:Ek;
    [ lia | ].
  rewrite Nat.iter_succ, tick_playableNotes. apply In_sounds.
  exists (with_position m (position n + Z.of_nat k)).
  split; [ apply Hfall; lia | ].
  rewrite tailless_step by exact Ht.
  cbn [position with_position visual with_visual m].
  replace (position n + Z.of_nat k + 1) with Constants.BOTTOM_ROW by lia.
  rewrite Z.ltb_irrefl, Z.eqb_refl. cbn [snd].
  unfold with_position. reflexivity.
Qed.


Lemma forEachCall_stops (f : Note -> option (list AudioCall))
    (before after : list Note) (n : Note) :
  f n = None ->
  forEachCall f (before ++ n :: after)
  = (fst (forEachCall f before), false).
Proof.
  intros Hn. induction before as [ | m l IH]; cbn [app forEachCall].
  - now rewrite Hn.
  - destruct (f m) as [calls | ]; [ | reflexivity ].
    rewrite IH. now destruct (forEachCall f l).
Qed.

Lemma playNotes_forEach (samples : string -> bool) (s : State) :
  playNotes samples s = forEachCall (playNote samples) (playableNotes s).
Proof.
  unfold playNotes. now destruct (playableNotes s).
Qed.

(** X18.  What a state makes audible.  With the sampler of every playable
    note loaded, [playNotes] runs to the end and attacks every playable
    note, a sustain with [triggerAttack] and a timed release after
    [end - start], any other note with [triggerAttackRelease], and calls
    nothing else.  A playable note whose sampler is missing stops the
    loop: it and the notes after it stay silent.  [ButtonRelease] keeps
    [playableNotes], so the state it yields sounds the notes of the state
    before it a second time. *)
Theorem playable_notes_are_heard
    (samples : string -> bool) (c : Z) (s : State) :
  ((forall n, In n (playableNotes s) -> samples (instrumentName n) = true) ->
   snd (playNotes samples s) = true
   /\ (forall n, In n (playableNotes s) ->
         match tail n with
         | Some _ =>
             In (triggerAttack (instrumentName n) (pitch n)
                   (inject_Z (velocity n) / 127))
                (fst (playNotes samples s))
             /\ In (releaseAfter (instrumentName n) (pitch n)
                      (end_ n - start n))
                   (fst (playNotes samples s))
         | None =>
             In (triggerAttackRelease (instrumentName n) (pitch n)
                   ((end_ n - start n) / 1000)
                   (inject_Z (velocity n) / 127))
                (fst (playNotes samples s))
         end)
   /\ (forall call, In call (fst (playNotes samples s)) ->
         exists n calls, In n (playableNotes s)
                         /\ playNote samples n = Some calls
                         /\ In call calls))
  /\ (forall before n after,
        playableNotes s = before ++ n :: after ->
        samples (instrumentName n) = false ->
        playNotes samples s
        = (fst (forEachCall (playNote samples) before), false))
  /\ playNotes samples (ButtonRelease_apply c s) = playNotes samples s.
Proof.
  split; [ | split ].
  - intros Hs. rewrite playNotes_forEach.
    destruct (forEachCall_all (playNote samples) (playableNotes s))
      as (Hok & Hin & Hout).
    { intros n Hn. unfold playNote. rewrite (Hs n Hn).
      destruct (tail n); discriminate. }
    split; [ exact Hok | ]. split; [ | exact Hout ].
    intros n Hn. pose proof (Hin n) as Hc. unfold playNote in Hc.
    rewrite (Hs n Hn) in Hc.
    destruct (tail n).
    + split; eapply Hc; eauto; cbn; auto.
    + eapply Hc; eauto; cbn; auto.
  - intros before n after E Hn. rewrite playNotes_forEach, E.
    apply forEachCall_stops. unfold playNote. now rewrite Hn.
  - rewrite !playNotes_forEach. reflexivity.
Qed.

(** ** What is on the canvas *)

Lemma Element_eqb_eq (e f : Element) : Element_eqb e f = true <-> e = f.
Proof.
  destruct e as [i p], f as [j q]. unfold Element_eqb. cbn [fst snd].
  rewrite andb_true_iff, Z.eqb_eq. split.
  - intros [-> H]. destruct p, q; (discriminate || reflexivity).
  - intros E. inversion E; subst. split; [ reflexivity | now destruct q ].
Qed.

Lemma removeById_filter (e : Element) (svg : list Element) :
  NoDup svg ->
  removeById e svg = filter (fun x => negb (Element_eqb x e)) svg.
Proof.
  induction 1 as [ | x svg Hx Hnd IH]; cbn [removeById filter];
    [ reflexivity | ].
  destruct (Element_eqb x e) eqn:E; cbn [negb].
  - apply Element_eqb_eq in E. subst x. symmetry.
    apply forallb_filter_id. apply forallb_forall.
    intros y Hy. apply negb_true_iff.
    destruct (Element_eqb y e) eqn:E'; [ | reflexivity ].
    apply Element_eqb_eq in E'. now subst y.
  - now rewrite IH.
Qed.

Lemma filter_filter {A : Type} (f g : A -> bool) (l : list A) :
  filter f (filter g l) = filter (fun x => g x && f x) l.
Proof.
  induction l as [ | x l IH]; cbn [filter]; [ reflexivity | ].
  destruct (g x); cbn [filter andb]; [ | exact IH ].
  destruct (f x); now rewrite IH.
Qed.

Lemma removeNote_filter (o : Note) (svg : list Element) :
  NoDup svg ->
  removeNote svg o = filter (fun x => negb (fst x =? id o)) svg.
Proof.
  intros H. unfold removeNote.
  rewrite (removeById_filter (id o, Body)) by exact H.
  rewrite (removeById_filter (id o, Effect)) by now apply NoDup_filter.
  rewrite filter_filter.
  rewrite (removeById_filter (id o, Gloss)) by now apply NoDup_filter.
  rewrite filter_filter.
  rewrite (removeById_filter (id o, TailRect)) by now apply NoDup_filter.
  rewrite filter_filter.
  rewrite (removeById_filter (id o, Star)) by now apply NoDup_filter.
  rewrite filter_filter.
  apply filter_ext. intros [i p]. unfold Element_eqb. cbn [fst snd].
  destruct (i =? id o); destruct p; reflexivity.
Qed.

Lemma removeNotes_filter (rip : list Note) (svg : list Element) :
  NoDup svg ->
  fold_left removeNote rip svg =
  filter (fun x => negb (existsb (fun o => fst x =? id o) rip)) svg.
Proof.
  revert svg. induction rip as [ | o rip IH]; intros svg H;
    cbn [fold_left existsb].
  - symmetry. apply forallb_filter_id. now apply forallb_forall.
  - rewrite IH by (rewrite removeNote_filter by exact H;
                   now apply NoDup_filter).
    rewrite removeNote_filter by exact H. rewrite filter_filter.
    apply filter_ext. intros x. now rewrite negb_orb.
Qed.

Lemma removeNotes_all (rip : list Note) (svg : list Element) :
  NoDup svg ->
  (forall x, In x svg -> In (fst x) (map id rip)) ->
  fold_left removeNote rip svg = [].
Proof.
  intros Hnd Hin. rewrite removeNotes_filter by exact Hnd.
  induction svg as [ | x svg IH]; cbn [filter]; [ reflexivity | ].
  assert (E : existsb (fun o => fst x =? id o) rip = true).
  { apply existsb_exists. specialize (Hin x (or_introl eq_refl)).
    apply in_map_iff in Hin. destruct Hin as [o [Ho Hin]].
    exists o. split; [ exact Hin | apply Z.eqb_eq; congruence ]. }
  rewrite E. cbn [negb]. apply IH.
  - now inversion Hnd.
  - intros y Hy. apply Hin. now right.
Qed.

Lemma renderNote_app (svg : list Element) (n : Note) :
  renderNote svg n = svg ++ renderNote [] n.
Proof.
  unfold renderNote, createRealisticDonutCircle.
  destruct (visual n), (tail n), (special n); cbn [app];
    rewrite <- ?app_assoc, ?app_nil_r; reflexivity.
Qed.

Lemma render_fold (l : list Note) (svg : list Element) :
  fold_left renderNote l svg = svg ++ drawn l.
Proof.
  unfold drawn. revert svg.
  induction l as [ | n l IH]; intros svg; cbn [fold_left].
  - now rewrite app_nil_r.
  - rewrite IH, (IH (renderNote [] n)), (renderNote_app svg n).
    now rewrite app_assoc.
Qed.

Lemma drawn_cons (n : Note) (l : list Note) :
  drawn (n :: l) = renderNote [] n ++ drawn l.
Proof. unfold drawn at 1. cbn [fold_left]. apply render_fold. Qed.

Lemma renderNote_ids (n : Note) (x : Element) :
  In x (renderNote [] n) -> fst x = id n.
Proof.
  unfold renderNote, createRealisticDonutCircle.
  destruct (visual n), (tail n), (special n); cbn;
    intuition (subst; reflexivity).
Qed.

Lemma renderNote_NoDup (n : Note) : NoDup (renderNote [] n).
Proof.
  unfold renderNote, createRealisticDonutCircle.
  destruct (visual n), (tail n), (special n); cbn;
    repeat (constructor; [ cbn; intuition congruence | ]);
    constructor.
Qed.

Lemma drawn_ids (l : list Note) (x : Element) :
  In x (drawn l) -> In (fst x) (map id l).
Proof.
  induction l as [ | n l IH]; [ intros [] | ].
  rewrite drawn_cons, in_app_iff. cbn [map In]. intros [H | H].
  - left. symmetry. now apply renderNote_ids.
  - right. now apply IH.
Qed.

Lemma drawn_NoDup (l : list Note) : uniqueIds l -> NoDup (drawn l).
Proof.
  unfold uniqueIds. induction l as [ | n l IH]; cbn [map]; intros H.
  - constructor.
  - inversion H as [ | i0 l0 Hn Hl]; subst. rewrite drawn_cons.
    apply NoDup_app; [ apply renderNote_NoDup | now apply IH | ].
    intros x Hx Hd. apply Hn.
    rewrite <- (renderNote_ids n x Hx). now apply drawn_ids.
Qed.

Lemma uniqueIds_app_l (l1 l2 : list Note) :
  uniqueIds (l1 ++ l2) -> uniqueIds l1.
Proof.
  unfold uniqueIds. rewrite map_app. apply NoDup_app_remove_r.
Qed.

(** What an action reports as removed names every note that was live
    before it. *)
Lemma report_names_live (a : Action) (s : State) :
  reportCovers s ->
  incl (map id (currentNotes s)) (map id (RIPNotes (apply a s))).
Proof.
  intros J. destruct a; cbn [apply].
  - apply incl_refl.
  - apply incl_refl.
  - apply incl_refl.
  - apply (incl_refl (map id (currentNotes s))).
  - unfold NextNote_apply. cbn [tick RIPNotes currentNotes].
    rewrite map_app. apply incl_appl, incl_refl.
  - exact J.
Qed.

Lemma reportCovers_step (a : Action) (s : State) :
  reportCovers s -> reportCovers (apply a s).
Proof.
  unfold reportCovers. intros J. destruct a; cbn [apply].
  - cbn [ButtonClick_apply currentNotes RIPNotes]. rewrite map_map.
    erewrite map_ext; [ apply incl_refl | ].
    intros n. now destruct (pressNote_frame c n).
  - cbn [ButtonRelease_apply currentNotes RIPNotes]. rewrite map_map.
    erewrite map_ext; [ apply incl_refl | ].
    intros n. now destruct (releaseNote_frame c n).
  - intros i. apply survivors_ids_incl.
  - intros i. apply (survivors_ids_incl (currentNotes s)).
  - unfold NextNote_apply. rewrite tick_currentNotes.
    cbn [tick RIPNotes currentNotes]. intros i. apply survivors_ids_incl.
  - cbn [RandomiseNotes_apply currentNotes RIPNotes]. unfold mapi.
    now rewrite mapi_from_ids.
Qed.

(** One rendering leaves on the canvas what rendering the new live notes on
    an empty canvas gives. *)
Lemma render_step (a : Action) (s : State) :
  reportCovers s -> uniqueIds (currentNotes s) ->
  render (apply a s) (drawn (currentNotes s)) =
  drawn (currentNotes (apply a s)).
Proof.
  intros J Hu. unfold render, removeNotes.
  rewrite removeNotes_all.
  - reflexivity.
  - now apply drawn_NoDup.
  - intros x Hx. apply (report_names_live a s J). now apply drawn_ids.
Qed.

Lemma ended_empty (a : Action) (s : State) :
  gameEnd s = false -> gameEnd (apply a s) = true ->
  currentNotes (apply a s) = [].
Proof.
  intros Hg. destruct a; cbn [apply]; intros E.
  - cbn in E. congruence.
  - cbn in E. congruence.
  - change (gameEnd (tick s) = true) in E.
    change (currentNotes (TickGame_apply s))
      with (currentNotes (tick s)).
    rewrite tick_currentNotes. now apply tick_gameEnd in E.
  - unfold GameEnd_apply in *. rewrite tick_currentNotes.
    now apply tick_gameEnd in E.
  - unfold NextNote_apply in *. rewrite tick_currentNotes.
    now apply tick_gameEnd in E.
  - cbn in E. congruence.
Qed.

Lemma drive_ended (actions : list Action) (s : State) :
  gameEnd s = true -> fold_left driveStep actions s = s.
Proof.
  intros Hg. induction actions as [ | a l IH]; cbn [fold_left];
    [ reflexivity | ].
  unfold driveStep at 2. now rewrite Hg.
Qed.

Lemma renderRun_from (actions : list Action) (s : State) :
  reportCovers s -> uniqueIds (currentNotes s) ->
  freshRun s actions -> gameEnd s = false ->
  renderRun actions s (drawn (currentNotes s)) =
  drawn (currentNotes (fold_left driveStep actions s))
  /\ reportCovers (fold_left driveStep actions s)
  /\ uniqueIds (currentNotes (fold_left driveStep actions s))
  /\ (gameEnd (fold_left driveStep actions s) = true ->
      currentNotes (fold_left driveStep actions s) = []).
Proof.
  revert s. induction actions as [ | a l IH]; intros s J Hu0 Hf Hg.
  - cbn [renderRun fold_left]. split; [ reflexivity | ].
    split; [ exact J | ]. split; [ exact Hu0 | congruence ].
  - cbn [freshRun] in Hf. destruct Hf as [Hu Hf].
    apply uniqueIds_step in Hu.
    cbn [renderRun fold_left]. unfold driveStep at 2 4 6 8 10. rewrite Hg.
    rewrite (render_step a s J Hu0).
    destruct (gameEnd (apply a s)) eqn:Hg'.
    + rewrite drive_ended by exact Hg'.
      split; [ reflexivity | ].
      split; [ now apply reportCovers_step | ].
      split; [ exact Hu | ].
      intros _. now apply ended_empty.
    + apply IH; auto using reportCovers_step.
Qed.

Lemma restart_flat (states : list State) (svg : list Element) :
  restartPress states svg =
  fold_left removeNote (flat_map RIPNotes states) svg.
Proof.
  unfold restartPress, removeNotes. revert svg.
  induction states as [ | s l IH]; intros svg; cbn [fold_left flat_map].
  - reflexivity.
  - now rewrite IH, fold_left_app.
Qed.

Lemma listeners_last (samples : string -> bool) (actions : list Action)
    (s : State) :
  gameEnd s = false -> soundRun samples s actions ->
  actions = []
  \/ In (fold_left driveStep actions s) (listeners samples actions s).
Proof.
  revert s. induction actions as [ | a l IH]; intros s Hg Hs;
    [ now left | right ].
  cbn [soundRun] in Hs. destruct Hs as [Ha Hs].
  cbn [listeners fold_left]. unfold driveStep at 2. rewrite Hg, Ha.
  destruct (gameEnd (apply a s)) eqn:Hg'.
  - left. symmetry. now apply drive_ended.
  - destruct (IH (apply a s) Hg' Hs) as [-> | H]; [ now left | now right ].
Qed.

(** With every sampler loaded no call throws. *)
Lemma audible_loaded (samples : string -> bool) (s : State) :
  (forall name, samples name = true) -> audible samples s = true.
Proof.
  intros H. unfold audible. apply andb_true_iff. split.
  - rewrite playNotes_forEach. apply forEachCall_all.
    intros n _. unfold playNote. rewrite H. destruct (tail n); discriminate.
  - unfold suppressNotes. apply forEachCall_all.
    intros n _. unfold suppressNote. rewrite H. discriminate.
Qed.

Lemma soundRun_loaded (samples : string -> bool) (actions : list Action)
    (s : State) :
  (forall name, samples name = true) -> soundRun samples s actions.
Proof.
  intros H. revert s. induction actions as [ | a l IH]; intros s;
    [ exact I | ].
  cbn [soundRun]. split; [ now apply audible_loaded | apply IH ].
Qed.

(** X14.  Nothing stale stays on the canvas.  Along a game whose batches
    bring fresh ids, the note elements that the subscriber's [render]
    calls leave on the canvas are exactly those that one [render] of the
    last state's live notes puts on an empty canvas; and when the game has
    ended, no note element is left. *)
Theorem canvas_shows_live_notes (actions : list Action) :
  freshRun initialState actions ->
  renderRun actions initialState [] = drawn (currentNotes (drive actions))
  /\ (gameEnd (drive actions) = true ->
      renderRun actions initialState [] = []).
Proof.
  intros Hf.
  destruct (renderRun_from actions initialState) as (Hr & _ & _ & He).
  - intros i Hi. exact Hi.
  - constructor.
  - exact Hf.
  - reflexivity.
  - change (drawn (currentNotes initialState)) with (@nil Element) in Hr.
    split; [ exact Hr | ].
    intros Hg. rewrite Hr. unfold drive in *. now rewrite (He Hg).
Qed.

(** X15.  A press on the restart button clears the canvas.  Along a game
    whose batches bring fresh ids and in which no sampler call throws (so
    that every state the subscriber has seen has its restart listener),
    the [removeNotes] calls of the restart listeners leave no note element
    of the canvas that the [render] calls have drawn. *)
Theorem restart_clears_canvas
    (samples : string -> bool) (actions : list Action) :
  freshRun initialState actions ->
  soundRun samples initialState actions ->
  restartPress (listeners samples actions initialState)
    (renderRun actions initialState []) = [].
Proof.
  intros Hf Hs.
  destruct (renderRun_from actions initialState) as (Hr & J & Hu & _).
  - intros i Hi. exact Hi.
  - constructor.
  - exact Hf.
  - reflexivity.
  - change (drawn (currentNotes initialState)) with (@nil Element) in Hr.
    destruct (listeners_last samples actions initialState eq_refl Hs)
      as [-> | Hin].
    + reflexivity.
    + rewrite Hr, restart_flat. apply removeNotes_all.
      * now apply drawn_NoDup.
      * intros x Hx. apply drawn_ids in Hx. apply J in Hx.
        apply in_map_iff in Hx. destruct Hx as [o [Ho Hx]].
        apply in_map_iff. exists o. split; [ exact Ho | ].
        apply in_flat_map. eauto.
Qed.


(** ** From the chart to the actions *)

Lemma groupInsert_keyed (n : Note) (groups : list (Q * list Note)) :
  keyed groups -> keyed (groupInsert n groups).
Proof.
  unfold keyed. induction 1 as [ | [k g] rest [Hne Hk] Hrest IH];
    cbn [groupInsert].
  - constructor; [ | constructor ]. cbn [fst snd].
    split; [ discriminate | ]. intros m [<- | []]. reflexivity.
  - cbn [fst snd] in *. destruct (Qeq_bool k (start n)) eqn:E.
    + constructor; [ | exact Hrest ]. cbn [fst snd]. split.
      * intros H. apply app_eq_nil in H. destruct H. discriminate.
      * intros m Hm. apply in_app_or in Hm. destruct Hm as [Hm | [<- | []]].
        -- now apply Hk.
        -- apply Qeq_bool_iff in E. now symmetry.
    + constructor; [ | exact IH ]. cbn [fst snd]. auto.
Qed.

Lemma groupInsert_perm (n : Note) (groups : list (Q * list Note)) :
  Permutation (List.concat (map snd (groupInsert n groups)))
              (List.concat (map snd groups) ++ [n]).
Proof.
  induction groups as [ | [k g] rest IH]; cbn [groupInsert].
  - reflexivity.
  - destruct (Qeq_bool k (start n)); cbn [map snd List.concat].
    + rewrite <- !app_assoc. apply Permutation_app_head.
      apply Permutation_app_comm.
    + rewrite <- app_assoc. now apply Permutation_app_head.
Qed.

Lemma groupBy_from (notes : list Note) (groups : list (Q * list Note)) :
  keyed groups ->
  keyed (fold_left (fun gs note => groupInsert note gs) notes groups)
  /\ Permutation
       (List.concat (map snd
          (fold_left (fun gs note => groupInsert note gs) notes groups)))
       (List.concat (map snd groups) ++ notes).
Proof.
  revert groups. induction notes as [ | n l IH]; intros groups Hk;
    cbn [fold_left].
  - rewrite app_nil_r. auto.
  - destruct (IH (groupInsert n groups) (groupInsert_keyed n groups Hk))
      as [Hk' Hp].
    split; [ exact Hk' | ].
    rewrite Hp, (groupInsert_perm n groups), <- app_assoc. reflexivity.
Qed.

Lemma rising_le (k : Q) (g : list Note) (rest : list (Q * list Note))
    (x : Q) :
  rising ((k, g) :: rest) x ->
  (k <= x)%Q /\ (rest <> [] -> (k < x)%Q).
Proof.
  revert k g. induction rest as [ | [k' g'] rest IH]; intros k g H.
  - cbn in H. split; [ exact H | congruence ].
  - cbn [rising] in H. destruct H as [Hlt H].
    destruct (IH k' g' H) as [Hle _].
    split; [ lra | intros _; lra ].
Qed.

Lemma groupInsert_head (n : Note) (k : Q) (g : list Note)
    (rest : list (Q * list Note)) :
  exists g' rest', groupInsert n ((k, g) :: rest) = (k, g') :: rest'.
Proof.
  cbn [groupInsert]. destruct (Qeq_bool k (start n)); eauto.
Qed.

Lemma groupInsert_rising (n : Note) (groups : list (Q * list Note))
    (x : Q) :
  rising groups x -> (x <= start n)%Q ->
  List.concat (map snd (groupInsert n groups))
  = List.concat (map snd groups) ++ [n]
  /\ rising (groupInsert n groups) (start n).
Proof.
  intros Hr Hx. induction groups as [ | [k g] rest IH].
  - cbn. split; [ reflexivity | lra ].
  - destruct (rising_le k g rest x Hr) as [Hle Hlt].
    cbn [groupInsert]. destruct (Qeq_bool k (start n)) eqn:E.
    + apply Qeq_bool_iff in E.
      destruct rest as [ | kg rest].
      * cbn. rewrite !app_nil_r. split; [ reflexivity | lra ].
      * exfalso. assert (k < x)%Q by (apply Hlt; discriminate). lra.
    + assert (Hne : ~ (k == start n)%Q)
        by (intros H; apply Qeq_bool_iff in H; congruence).
      destruct rest as [ | [k' g'] rest].
      * cbn. rewrite !app_nil_r. split; [ reflexivity | ].
        split; [ | lra ].
        destruct (Qlt_le_dec k (start n)) as [H | H]; [ exact H | ].
        exfalso. apply Hne. lra.
      * cbn [rising] in Hr. destruct Hr as [Hkk Hr].
        destruct (IH Hr) as [Hc Hr'].
        split.
        -- cbn [map snd List.concat] in *. rewrite Hc.
           now rewrite !app_assoc.
        -- destruct (groupInsert_head n k' g' rest) as [g2 [rest2 E2]].
           rewrite E2 in *. cbn [rising]. split; [ exact Hkk | exact Hr' ].
Qed.

Lemma groupBy_sorted (notes : list Note) (groups : list (Q * list Note))
    (x : Q) :
  rising groups x -> ascendingStarts x notes ->
  List.concat (map snd
    (fold_left (fun gs note => groupInsert note gs) notes groups))
  = List.concat (map snd groups) ++ notes
  /\ exists y,
       rising (fold_left (fun gs note => groupInsert note gs) notes groups)
         y.
Proof.
  revert groups x. induction notes as [ | n l IH]; intros groups x Hr Ha;
    cbn [fold_left].
  - rewrite app_nil_r. eauto.
  - cbn [ascendingStarts] in Ha. destruct Ha as [Hx Ha].
    destruct (groupInsert_rising n groups x Hr Hx) as [Hc Hr'].
    destruct (IH _ _ Hr' Ha) as [Hc' Hy].
    split; [ | exact Hy ].
    rewrite Hc', Hc, <- app_assoc. reflexivity.
Qed.

Lemma keyed_start (k : Q) (g : list Note) :
  g <> [] -> (forall n, In n g -> (start n == k)%Q) ->
  exists t, groupStart g = Some t /\ (t == k)%Q.
Proof.
  destruct g as [ | first g]; [ congruence | ].
  intros _ H. exists (start first). split; [ reflexivity | ].
  apply H. now left.
Qed.

Lemma rising_ascendingFrom (groups : list (Q * list Note)) (x t : Q) :
  keyed groups -> rising groups x ->
  match groups with
  | [] => True
  | (k, _) :: _ => (t <= k)%Q
  end ->
  ascendingFrom t (map snd groups).
Proof.
  revert t. induction groups as [ | [k g] rest IH]; intros t Hk Hr Ht.
  - exact I.
  - inversion Hk as [ | kg l [Hne Hs] Hk']; subst. cbn [fst snd] in *.
    destruct (keyed_start k g Hne Hs) as [t0 [E0 Ht0]].
    cbn [map snd ascendingFrom]. rewrite E0. split; [ lra | ].
    apply IH; [ exact Hk' | | ].
    + destruct rest as [ | [k' g'] rest]; [ exact I | ].
      now destruct Hr.
    + destruct rest as [ | [k' g'] rest]; [ exact I | ].
      destruct Hr as [Hlt _]. lra.
Qed.

Lemma rising_ascendingChart (groups : list (Q * list Note)) (x : Q) :
  keyed groups -> rising groups x -> ascendingChart (map snd groups).
Proof.
  intros Hk Hr. destruct groups as [ | [k g] rest]; [ exact I | ].
  inversion Hk as [ | kg l [Hne Hs] Hk']; subst. cbn [fst snd] in *.
  destruct (keyed_start k g Hne Hs) as [t0 [E0 Ht0]].
  cbn [map snd ascendingChart]. rewrite E0.
  destruct rest as [ | [k' g'] rest]; [ exact I | ].
  destruct Hr as [Hlt Hr].
  apply (rising_ascendingFrom _ x); [ exact Hk' | exact Hr | lra ].
Qed.

Lemma scan_groups (groups : list (list Note)) (store : DelayedNotes) :
  forallb (fun g => match g with [] => false | _ => true end) groups = true ->
  map group (fst (scanDelayed store groups)) = groups.
Proof.
  revert store. induction groups as [ | g rest IH]; intros store H;
    [ reflexivity | ].
  destruct g as [ | first g']; [ discriminate | ].
  cbn [forallb andb] in H. cbn [scanDelayed delayStep].
  specialize (IH {| delayIt :=
                      match storeStart store with
                      | Some previous => start first - previous
                      | None => 0
                      end;
                    storeStart := Some (start first);
                    group := first :: g' |} H).
  destruct (scanDelayed _ rest) as [out ok]. cbn [fst map group] in *.
  now rewrite IH.
Qed.

Lemma keyed_nonempty (groups : list (Q * list Note)) :
  keyed groups ->
  forallb (fun g => match g with [] => false | _ => true end)
          (map snd groups) = true.
Proof.
  induction 1 as [ | [k g] rest [Hne _] _ IH]; [ reflexivity | ].
  cbn [map snd forallb] in *. rewrite IH.
  destruct g; [ congruence | reflexivity ].
Qed.

Lemma batches_of_groups (groups : list (list Note)) :
  flat_map batchOf (map NextNote groups ++ [GameEnd]) = List.concat groups.
Proof.
  induction groups as [ | g rest IH]; [ reflexivity | ].
  cbn [map app flat_map batchOf List.concat]. now rewrite IH.
Qed.

Lemma filterWhenNotPaused_map {A B : Type} (f : A -> B)
    (spaces : nat -> nat) (i : nat) (l : list A) :
  filterWhenNotPaused spaces i (map f l)
  = map f (filterWhenNotPaused spaces i l).
Proof.
  revert i. induction l as [ | x l IH]; intros i;
    cbn [map filterWhenNotPaused]; [ reflexivity | ].
  destruct (pauseKey (spaces i)); cbn [map]; now rewrite IH.
Qed.

Lemma filterWhenNotPaused_all {A : Type} (spaces : nat -> nat) (i : nat)
    (l : list A) :
  neverPaused spaces -> filterWhenNotPaused spaces i l = l.
Proof.
  intros H. revert i. induction l as [ | x l IH]; intros i;
    cbn [filterWhenNotPaused]; [ reflexivity | ].
  now rewrite H, IH.
Qed.

(** A pause splits the groups into those let through and those held
    back. *)
Lemma pause_splits (spaces : nat -> nat) (i : nat)
    (groups : list (list Note)) :
  Permutation
    (List.concat (filterWhenNotPaused spaces i groups)
     ++ List.concat (heldBack spaces i groups))
    (List.concat groups).
Proof.
  revert i. induction groups as [ | g rest IH]; intros i;
    cbn [filterWhenNotPaused heldBack List.concat]; [ reflexivity | ].
  destruct (pauseKey (spaces i)); cbn [List.concat].
  - rewrite Permutation_app_comm, <- app_assoc.
    apply Permutation_app_head. rewrite Permutation_app_comm. apply IH.
  - rewrite <- app_assoc. apply Permutation_app_head. apply IH.
Qed.

(** X16.  No chart note is spawned twice, and every one is spawned unless
    its batch falls due during a pause.  Whatever the chart, no group of
    [scheduleVisualNotes$] is empty, so the scan of [delayedGroupNotes$]
    never fails: [nextNote$] is one [NextNote] for every group that does
    not fall due during a pause, in order, followed by [GameEnd]; the
    spawned notes together with the notes of the groups held back by a
    pause are the chart's notes, each as often as the chart has it; the
    notes of one group start at the same time.  When no group falls due
    during a pause every chart note is spawned exactly once.  When the
    start times of the chart do not decrease the groups are in ascending
    order of start time, and without a pause the batches taken in order
    are the chart itself. *)
Theorem chart_notes_spawn_once_unless_paused
    (spaces : nat -> nat) (notes : list Note) :
  nextNote spaces notes
  = map NextNote (filterWhenNotPaused spaces 0 (scheduleVisualNotes notes))
    ++ [GameEnd]
  /\ Permutation
       (flat_map batchOf (nextNote spaces notes)
        ++ List.concat (heldBack spaces 0 (scheduleVisualNotes notes)))
       notes
  /\ (forall g a b, In g (scheduleVisualNotes notes) ->
        In a g -> In b g -> (start a == start b)%Q)
  /\ (neverPaused spaces ->
      Permutation (flat_map batchOf (nextNote spaces notes)) notes)
  /\ (sortedByStart notes ->
      ascendingChart (scheduleVisualNotes notes)
      /\ (neverPaused spaces ->
          flat_map batchOf (nextNote spaces notes) = notes)).
Proof.
  destruct (groupBy_from notes [] (Forall_nil _)) as [Hk Hp].
  fold (groupBy notes) in Hk, Hp. cbn [map List.concat app] in Hp.
  pose proof (keyed_nonempty _ Hk) as Hne.
  fold (scheduleVisualNotes notes) in Hne, Hp.
  assert (Hn : nextNote spaces notes
               = map NextNote
                   (filterWhenNotPaused spaces 0 (scheduleVisualNotes notes))
                 ++ [GameEnd]).
  { unfold nextNote, delayedGroupNotes.
    pose proof (scan_ok (scheduleVisualNotes notes) (initialStore None))
      as Hok.
    pose proof (scan_groups (scheduleVisualNotes notes) (initialStore None)
                  Hne) as Hg.
    rewrite Hne in Hok.
    destruct (scanDelayed _ _) as [out ok]. cbn [fst snd] in *.
    subst ok. rewrite <- Hg, filterWhenNotPaused_map, map_map.
    reflexivity. }
  split; [ exact Hn | ].
  rewrite Hn, batches_of_groups.
  split; [ now rewrite pause_splits | ].
  split.
  { intros g a b Hg Ha Hb. unfold scheduleVisualNotes in Hg.
    apply in_map_iff in Hg. destruct Hg as [[k g0] [<- Hg]].
    unfold keyed in Hk. rewrite Forall_forall in Hk.
    destruct (Hk _ Hg) as [_ Hs]. cbn [fst snd] in *.
    rewrite (Hs a Ha), (Hs b Hb). reflexivity. }
  split.
  { intros Hnp. now rewrite filterWhenNotPaused_all. }
  intros Hs. destruct notes as [ | n l].
  { split; [ exact I | ]. intros Hnp.
    now rewrite filterWhenNotPaused_all. }
  cbn [sortedByStart] in Hs.
  destruct (groupBy_sorted (n :: l) [] (start n) I) as [Hc [y Hy]].
  { cbn [ascendingStarts]. split; [ lra | exact Hs ]. }
  fold (groupBy (n :: l)) in Hc, Hy.
  split; [ now apply (rising_ascendingChart _ y) | ].
  intros Hnp. rewrite filterWhenNotPaused_all by exact Hnp. exact Hc.
Qed.

(** ** Fresh ids *)

Lemma NoDup_app_apart {A : Type} (l1 l2 : list A) (x : A) :
  NoDup (l1 ++ l2) -> In x l1 -> In x l2 -> False.
Proof.
  induction l1 as [ | y l1 IH]; cbn [app]; intros H H1 H2; [ easy | ].
  inversion H as [ | y0 l0 Hn Hl]; subst.
  destruct H1 as [-> | H1]; [ | now apply IH ].
  apply Hn, in_or_app. now right.
Qed.

Lemma freshRun_from (actions : list Action) (s : State) :
  NoDup (map id (currentNotes s) ++ map id (flat_map batchOf actions)) ->
  freshRun s actions.
Proof.
  revert s. induction actions as [ | a l IH]; intros s H; [ exact I | ].
  cbn [flat_map] in H. rewrite map_app, app_assoc, <- map_app in H.
  assert (Hu : uniqueIds (currentNotes s ++ batchOf a))
    by (unfold uniqueIds; now apply NoDup_app_remove_r in H).
  cbn [freshRun]. split; [ exact Hu | ].
  apply IH. apply NoDup_app.
  - now apply uniqueIds_step.
  - now apply NoDup_app_remove_l in H.
  - intros i Hi Hl.
    assert (Hin : In i (map id (currentNotes s ++ batchOf a))).
    { destruct a; cbn [apply batchOf] in Hi |- *;
        rewrite ?app_nil_r.
      - cbn [ButtonClick_apply currentNotes] in Hi.
        rewrite map_map in Hi.
        erewrite map_ext in Hi; [ exact Hi | ].
        intros n. now destruct (pressNote_frame c n).
      - cbn [ButtonRelease_apply currentNotes] in Hi.
        rewrite map_map in Hi.
        erewrite map_ext in Hi; [ exact Hi | ].
        intros n. now destruct (releaseNote_frame c n).
      - now apply survivors_ids_incl.
      - now apply (survivors_ids_incl (currentNotes s)).
      - unfold NextNote_apply in Hi. rewrite tick_currentNotes in Hi.
        cbn [currentNotes] in Hi. apply survivors_ids_incl in Hi.
        now rewrite map_app, spawnNote_ids, <- map_app in Hi.
      - cbn [RandomiseNotes_apply currentNotes] in Hi. unfold mapi in Hi.
        now rewrite mapi_from_ids in Hi. }
    exact (NoDup_app_apart _ _ i H Hin Hl).
Qed.

(** X17.  Distinct chart ids keep the live ids distinct.  When the notes
    that the [NextNote] actions of a list bring in have pairwise distinct
    ids, every batch is fresh when it arrives, whatever is done between
    the batches, and no two live notes ever share an id. *)
Theorem distinct_chart_ids_stay_distinct (actions : list Action) :
  uniqueIds (flat_map batchOf actions) ->
  freshRun initialState actions /\ uniqueIds (currentNotes (run actions)).
Proof.
  intros H.
  assert (Hf : freshRun initialState actions) by now apply freshRun_from.
  split; [ exact Hf | ].
  unfold run. clear H.
  assert (H0 : uniqueIds (currentNotes initialState)) by constructor.
  revert Hf H0. generalize initialState.
  induction actions as [ | a l IH]; intros s Hf H0; [ exact H0 | ].
  cbn [freshRun] in Hf. destruct Hf as [Hu Hf].
  cbn [fold_left]. apply IH; [ exact Hf | ].
  now apply uniqueIds_step.
Qed.

End Engine.

(** ** The claims on concrete runs

    The engine is run with the sample generator on the charts and states
    of [Examples]. *)

#[local] Abbreviation rngHash := SampleRNG.hash.
#[local] Abbreviation rngScale := SampleRNG.scale.

(** C1 as stated fails: the reducer accepts a press after the game has
    ended, and the wrong-press note lands in [playableNotes] of a state
    whose [gameEnd] is still set. *)
Lemma C1_press_after_end :
  gameEnd (run rngHash rngScale [GameEnd; ButtonClick 0]) = true
  /\ playableNotes (run rngHash rngScale [GameEnd; ButtonClick 0]) <> [].
Proof. split; [ reflexivity | discriminate ]. Qed.

(** C1, on a whole game with one tap that is never pressed. *)
Lemma C1_one_tap_game :
  reachable rngHash rngScale (drive rngHash rngScale Examples.oneTapGame)
  /\ gameEnd (drive rngHash rngScale Examples.oneTapGame) = true
  /\ drained (drive rngHash rngScale Examples.oneTapGame).
Proof.
  assert (Hr : reachable rngHash rngScale
                 (drive rngHash rngScale Examples.oneTapGame))
    by (apply drive_reachable; vm_compute; reflexivity).
  assert (Hg : gameEnd (drive rngHash rngScale Examples.oneTapGame) = true)
    by (vm_compute; reflexivity).
  split; [ exact Hr | ]. split; [ exact Hg | ].
  exact (C1_gameEnd_means_drained rngHash rngScale _ Hr Hg).
Defined.

(** C2 as stated fails: at combo 10 a normal hit is worth 1.2, and the
    stored score goes from 10 to 11. *)
Lemma C2_combo_ten_truncated :
  hitsOf 0 Examples.comboTen = [Examples.tapInWindow]
  /\ special Examples.tapInWindow = false
  /\ noteCount Examples.comboTen = 10
  /\ scoreGained Examples.comboTen = 10
  /\ scoreGained (ButtonClick_apply rngHash rngScale 0 Examples.comboTen)
     = 11
  /\ ~ (inject_Z
          (scoreGained
             (ButtonClick_apply rngHash rngScale 0 Examples.comboTen))
        == inject_Z (scoreGained Examples.comboTen)
           + (1 + 0.2 * inject_Z (noteCount Examples.comboTen / 10)))%Q.
Proof.
  repeat split; try reflexivity.
  intros E. vm_compute in E. discriminate.
Qed.

(** C2, a single normal hit at combo 0, and three normal hits at combo
    19 and score 19: the doubles add up to 22.999999999999996, and 22 is
    stored. *)
Lemma C2_first_hit :
  hitsOf 0 Examples.comboZero = [Examples.tapInWindow]
  /\ scoreGained (ButtonClick_apply rngHash rngScale 0 Examples.comboZero)
     = scoreGained Examples.comboZero + 1
  /\ List.length (hitsOf 0 Examples.threeTaps) = 3%nat
  /\ scoreGained (ButtonClick_apply rngHash rngScale 0 Examples.threeTaps)
     = 22
  /\ map visual
       (currentNotes
          (ButtonClick_apply rngHash rngScale 0 Examples.threeTaps))
     = [false; false; false].
Proof.
  split; [ reflexivity | ]. split.
  - apply (proj2 (proj2 (proj2 (proj2 (proj2
             (C2_press_scoring rngHash rngScale 0 Examples.comboZero)))))
             Examples.tapInWindow).
    + reflexivity.
    + reflexivity.
    + cbn. lia.
    + cbn. lia.
  - split; [ reflexivity | ]. split.
    + rewrite (proj1 (proj2 (proj2
                 (C2_press_scoring rngHash rngScale 0 Examples.threeTaps)))).
      vm_compute. reflexivity.
    + vm_compute. reflexivity.
Defined.

(** C3 as stated fails: with an empty bonus pool the decay counter is held
    at 0 instead of going up by one. *)
Lemma C3_counter_held_at_zero :
  bonusActive (initialState rngHash) = 0
  /\ tickInterval (initialState rngHash) = 0
  /\ tickInterval (TickGame_apply (initialState rngHash)) = 0
  /\ tickInterval (TickGame_apply (initialState rngHash))
     <> tickInterval (initialState rngHash) + 1.
Proof. repeat split. discriminate. Qed.

(** C3, at the end of a decay cycle. *)
Lemma C3_decay_cycle :
  decayDue Examples.decaying
  /\ bonusActive (TickGame_apply Examples.decaying)
     = bonusActive Examples.decaying - 50
  /\ noteCount (TickGame_apply Examples.decaying)
     = noteCount (tick Examples.decaying) - 50
  /\ tickInterval (TickGame_apply Examples.decaying) = 0.
Proof.
  assert (Hd : decayDue Examples.decaying).
  { unfold decayDue. cbn. repeat split; [ lia | exists 1; reflexivity ]. }
  split; [ exact Hd | ].
  exact (proj1 (C3_bonus_decay Examples.decaying) Hd).
Defined.

(** C4 as stated fails: after a sustain has been hit and released early
    its dead remnant is still in the column; no note is in the hit window
    and no live sustain is held, and yet a press produces no synthetic
    note. *)
Lemma C4_dead_remnant_blocks_wrong_press :
  existsb (inHitWindow 0)
    (currentNotes (run rngHash rngScale Examples.holdAndLetGo)) = false
  /\ existsb (heldTail 0)
       (currentNotes (run rngHash rngScale Examples.holdAndLetGo)) = false
  /\ playableNotes
       (ButtonClick_apply rngHash rngScale 0
          (run rngHash rngScale Examples.holdAndLetGo))
     = playableNotes (run rngHash rngScale Examples.holdAndLetGo).
Proof.
  split; [ vm_compute; reflexivity | ].
  split; vm_compute; reflexivity.
Qed.

(** C4, a press on an empty board. *)
Lemma C4_press_on_empty_board :
  playableNotes (ButtonClick_apply rngHash rngScale 0 (initialState rngHash))
    = playableNotes (initialState rngHash)
      ++ [wrongNote rngScale (hash (initialState rngHash))]
  /\ noteCount (ButtonClick_apply rngHash rngScale 0 (initialState rngHash))
     = bonusActive (initialState rngHash).
Proof.
  apply (proj1 (proj2
           (C4_wrong_press rngHash rngScale 0 (initialState rngHash))));
    intros n [].
Defined.

(** C5 as stated fails: at combo 11 the penalty is 1.2, and the stored
    score goes from 11 to 9. *)
Lemma C5_penalty_truncated :
  heldCount 0 Examples.holding = 1%nat
  /\ noteCount Examples.holding = 11
  /\ scoreGained Examples.holding = 11
  /\ scoreGained (ButtonRelease_apply 0 Examples.holding) = 9
  /\ ~ (inject_Z (scoreGained (ButtonRelease_apply 0 Examples.holding))
        == inject_Z (scoreGained Examples.holding)
           - (1 + 0.2 * inject_Z (noteCount Examples.holding / 10)))%Q.
Proof.
  repeat split; try reflexivity.
  intros E. vm_compute in E. discriminate.
Qed.

(** C5, a release in a column where nothing is held, and the release of
    five sustains at combo 10 and score 40: the doubles go down to
    33.999999999999986, and 33 is stored. *)
Lemma C5_release_five_sustains :
  heldCount 1 Examples.holding = 0%nat
  /\ currentNotes (ButtonRelease_apply 1 Examples.holding)
     = currentNotes Examples.holding
  /\ noteCount (ButtonRelease_apply 1 Examples.holding)
     = noteCount Examples.holding
  /\ scoreGained (ButtonRelease_apply 1 Examples.holding)
     = scoreGained Examples.holding
  /\ heldCount 0 Examples.fiveHeld = 5%nat
  /\ scoreGained (ButtonRelease_apply 0 Examples.fiveHeld) = 33
  /\ noteCount (ButtonRelease_apply 0 Examples.fiveHeld)
     = bonusActive Examples.fiveHeld.
Proof.
  split; [ reflexivity | ].
  destruct (proj1 (proj2 (proj2 (proj2 (proj2
              (C5_release 1 Examples.holding))))) eq_refl)
    as (Hn & Hc & Hs).
  split; [ exact Hn | ]. split; [ exact Hc | ].
  split; [ apply Hs; cbn; lia | ].
  split; [ reflexivity | ]. split.
  - rewrite (proj1 (proj2 (C5_release 0 Examples.fiveHeld))).
    vm_compute. reflexivity.
  - rewrite (proj1 (proj2 (proj2 (proj2
                 (C5_release 0 Examples.fiveHeld))))).
    reflexivity.
Defined.



(** C7, a non-visual note that reaches the bottom row between two other
    notes. *)
Lemma C7_auto_played :
  (exists n',
     moved Constants.TICK_UNIT_INCREMENT Examples.autoPlayed n'
     /\ currentNotes (tick Examples.bottomRow)
        = survivors [Examples.falling] ++ survivors [Examples.missed]
     /\ playableNotes (tick Examples.bottomRow)
        = sounds [Examples.falling] ++ n' :: sounds [Examples.missed])
  /\ map position (currentNotes Examples.bottomRow) = [10; 349; 349]
  /\ map position (currentNotes (tick Examples.bottomRow)) = [11]
  /\ map position (playableNotes (tick Examples.bottomRow)) = [350].
Proof.
  split; [ | repeat split ].
  apply (proj1 (proj2 (proj2
           (C7_tailless_note_step Examples.bottomRow
              [Examples.falling] [Examples.missed] Examples.autoPlayed
              eq_refl eq_refl))));
    reflexivity.
Defined.

(** C8 as stated fails: after [NextNote] the report holds the spawned
    note, which the prior live set (empty) does not. *)
Lemma C8_report_holds_spawned_batch :
  currentNotes (initialState rngHash) = []
  /\ RIPNotes
       (NextNote_apply rngHash rngScale [Examples.tap] (initialState rngHash))
     <> currentNotes (initialState rngHash).
Proof. split; [ reflexivity | discriminate ]. Qed.

(** C10, a visual note one increment above the bottom row after the
    step. *)
Lemma C10_close_call :
  Exists aboutToMiss (currentNotes (tick Examples.closeCall))
  /\ noteCount (tick Examples.closeCall) = bonusActive Examples.closeCall.
Proof.
  assert (He : Exists aboutToMiss (currentNotes (tick Examples.closeCall))).
  { apply Exists_exists. exists (with_position Examples.nearMiss 349).
    split; [ right; left; reflexivity | split; reflexivity ]. }
  split; [ exact He | ].
  exact (proj1 (C10_miss_resets_combo Examples.closeCall) He).
Defined.

(** X2, the visual note of [closeCall] that is about to be missed. *)
Lemma visual_origin_close_call :
  (exists m, In m (currentNotes Examples.closeCall)
             /\ id m = id (with_position Examples.nearMiss 349)
             /\ visual m = true)
  \/ (exists batch n, TickGame = NextNote batch /\ In n batch
                      /\ id n = id (with_position Examples.nearMiss 349)
                      /\ visual n = true).
Proof.
  apply (visual_origin rngHash rngScale TickGame Examples.closeCall
           (with_position Examples.nearMiss 349)).
  - right; left; reflexivity.
  - reflexivity.
Defined.


(** ** Further properties on concrete runs *)

(** The sample generator scales into [[0,1)]. *)
Lemma sample_scaleInUnit : scaleInUnit rngScale.
Proof.
  intros h. unfold SampleRNG.scale, Qle, Qlt. cbn [Qnum Qden].
  assert (H : 0 <= h mod SampleRNG.m < SampleRNG.m)
    by (apply Z.mod_pos_bound; reflexivity).
  change (Z.pos (Z.to_pos SampleRNG.m)) with SampleRNG.m. lia.
Qed.

(** A short game: a sustain and a tap are spawned, the lanes are
    shuffled, a key is pressed and a background note is spawned. *)
#[local] Abbreviation shortGame :=
  [NextNote [Examples.sustain; Examples.tap]; TickGame; RandomiseNotes;
   ButtonClick 0; NextNote [Examples.background]; TickGame].

Lemma shortGame_fresh :
  freshRun rngHash rngScale (initialState rngHash) shortGame.
Proof.
  cbn [freshRun].
  repeat (split; [ unfold uniqueIds; vm_compute;
                   repeat (constructor; [ cbn; intuition discriminate | ]);
                   constructor | ]).
  exact I.
Qed.

(** X4, a sustain spawned beside the two notes of [closeCall]. *)
Lemma ids_stay_unique_spawn :
  uniqueIds (currentNotes Examples.closeCall
             ++ batchOf (NextNote [Examples.sustain]))
  /\ uniqueIds
       (currentNotes
          (apply rngHash rngScale (NextNote [Examples.sustain])
             Examples.closeCall)).
Proof.
  assert (H : uniqueIds (currentNotes Examples.closeCall
                         ++ batchOf (NextNote [Examples.sustain]))).
  { unfold uniqueIds. vm_compute.
    repeat (constructor; [ cbn; intuition discriminate | ]). constructor. }
  split; [ exact H | ].
  exact (ids_stay_unique rngHash rngScale _ _ H).
Defined.

(** X5, the game of one tap from the moment the chart is exhausted. *)
Lemma game_ends_one_tap :
  allNotesProcessed
    (run rngHash rngScale [NextNote [Examples.tap]; GameEnd]) = true
  /\ gameEnd
       (fold_left (applyAction rngHash rngScale)
          (ButtonClick 2 :: repeat TickGame 400)
          (run rngHash rngScale [NextNote [Examples.tap]; GameEnd]))
     = true.
Proof.
  split; [ reflexivity | ].
  apply (game_ends_after_enough_ticks rngHash rngScale).
  - reflexivity.
  - vm_compute. reflexivity.
  - apply Nat.leb_le. vm_compute. reflexivity.
Defined.

(** X8, the lanes of [closeCall] after a shuffle. *)
Lemma notes_stay_in_lanes_shuffle :
  scaleInUnit rngScale
  /\ inLanes (currentNotes Examples.closeCall ++ batchOf RandomiseNotes)
  /\ inLanes
       (currentNotes
          (apply rngHash rngScale RandomiseNotes Examples.closeCall)).
Proof.
  assert (H : inLanes (currentNotes Examples.closeCall
                       ++ batchOf RandomiseNotes)).
  { unfold inLanes. cbn. repeat constructor; cbn; lia. }
  split; [ exact sample_scaleInUnit | ]. split; [ exact H | ].
  exact (notes_stay_in_lanes rngHash rngScale RandomiseNotes
           Examples.closeCall sample_scaleInUnit H).
Defined.

(** X9, the synthetic note drawn from seed 1. *)
Lemma wrong_note_seed_one :
  scaleInUnit rngScale
  /\ In (instrumentName (wrongNote rngScale 1)) instrumentList
  /\ 0 <= velocity (wrongNote rngScale 1) < 90
  /\ 0 <= pitch (wrongNote rngScale 1) < 70
  /\ start (wrongNote rngScale 1) = 0%Q
  /\ (exists d : Z, end_ (wrongNote rngScale 1) = inject_Z d
                    /\ 0 <= d < 500)
  /\ tail (wrongNote rngScale 1) = None.
Proof.
  split; [ exact sample_scaleInUnit | ].
  exact (wrong_note_in_range rngScale 1 sample_scaleInUnit).
Defined.

(** X12, the release of the held sustain of [holding], with every sampler
    loaded. *)
Lemma release_silences_holding :
  (forall n, In n (currentNotes Examples.holding) ->
             (fun _ : string => true) (instrumentName n) = true)
  /\ snd (suppressNotes (fun _ => true)
            (ButtonRelease_apply 0 Examples.holding)) = true
  /\ In (triggerRelease "piano" 60)
        (fst (suppressNotes (fun _ => true)
                (ButtonRelease_apply 0 Examples.holding))).
Proof.
  assert (H : forall n, In n (currentNotes Examples.holding) ->
                        (fun _ : string => true) (instrumentName n) = true)
    by reflexivity.
  split; [ exact H | ].
  destruct (release_silences_held_sustains (fun _ => true) 0
              Examples.holding H) as (Hok & Hin & _).
  split; [ exact Hok | ].
  apply (Hin Examples.heldSustain); [ now left | reflexivity ].
Defined.

(** X13, the tap of [comboZero], hit ten rows above the bottom row. *)
Lemma hit_tap_sounds_ten_steps_later :
  In Examples.tapInWindow (currentNotes Examples.comboZero)
  /\ inHitWindow 0 Examples.tapInWindow = true
  /\ tail Examples.tapInWindow = None
  /\ In (with_position (with_visual Examples.tapInWindow false)
           Constants.BOTTOM_ROW)
        (playableNotes
           (Nat.iter 10 tick
              (ButtonClick_apply rngHash rngScale 0 Examples.comboZero))).
Proof.
  assert (H1 : In Examples.tapInWindow (currentNotes Examples.comboZero))
    by now left.
  split; [ exact H1 | ]. split; [ reflexivity | ]. split; [ reflexivity | ].
  exact (proj2 (hit_tap_sounds_at_bottom rngHash rngScale 0
                  Examples.comboZero Examples.tapInWindow H1
                  eq_refl eq_refl)).
Defined.

(** X14, the canvas after the short game. *)
Lemma canvas_after_short_game :
  freshRun rngHash rngScale (initialState rngHash) shortGame
  /\ renderRun rngHash rngScale shortGame (initialState rngHash) []
     = drawn (currentNotes (drive rngHash rngScale shortGame)).
Proof.
  split; [ exact shortGame_fresh | ].
  exact (proj1 (canvas_shows_live_notes rngHash rngScale shortGame
                  shortGame_fresh)).
Defined.

(** X15, a restart after the short game, with every sampler loaded. *)
Lemma restart_after_short_game :
  freshRun rngHash rngScale (initialState rngHash) shortGame
  /\ soundRun rngHash rngScale (fun _ => true) (initialState rngHash)
       shortGame
  /\ List.length
       (listeners rngHash rngScale (fun _ => true) shortGame
          (initialState rngHash)) = 6%nat
  /\ List.length
       (renderRun rngHash rngScale shortGame (initialState rngHash) [])
     = 7%nat
  /\ restartPress
       (listeners rngHash rngScale (fun _ => true) shortGame
          (initialState rngHash))
       (renderRun rngHash rngScale shortGame (initialState rngHash) [])
     = [].
Proof.
  assert (Hs : soundRun rngHash rngScale (fun _ => true)
                 (initialState rngHash) shortGame)
    by (apply soundRun_loaded; reflexivity).
  split; [ exact shortGame_fresh | ]. split; [ exact Hs | ].
  split; [ vm_compute; reflexivity | ].
  split; [ vm_compute; reflexivity | ].
  exact (restart_clears_canvas rngHash rngScale (fun _ => true) shortGame
           shortGame_fresh Hs).
Defined.

(** X17, the short game. *)
Lemma distinct_ids_short_game :
  uniqueIds (flat_map batchOf shortGame)
  /\ freshRun rngHash rngScale (initialState rngHash) shortGame
  /\ uniqueIds (currentNotes (run rngHash rngScale shortGame)).
Proof.
  assert (H : uniqueIds (flat_map batchOf shortGame)).
  { unfold uniqueIds. vm_compute.
    repeat (constructor; [ cbn; intuition discriminate | ]). constructor. }
  split; [ exact H | ].
  exact (distinct_chart_ids_stay_distinct rngHash rngScale shortGame H).
Defined.


(** ** The arithmetic of doubles, cross-checked

    On the scores from -20 to 59, with the multipliers [1 + 0.2 * k] for
    [k] from 0 to 11, every sum of a chain of six hits, every difference
    of a chain of six penalties and the quotient of every score by 10 is
    the float that the Standard Library's IEEE 754 operations give. *)
Lemma round64_agrees_with_SpecFloat : gridAgrees (-20) 80 12 6 = true.
Proof. vm_compute. reflexivity. Qed.


(** X16, a chart of four notes in three groups; the space bar is pressed
    once before the second group is due and once more before the third:
    the second group is never spawned. *)
#[local] Abbreviation fourNotes :=
  [Examples.chartNote 1 true 0 0 200; Examples.chartNote 2 true 1 1000 1200;
   Examples.chartNote 3 false 2 1000 1200;
   Examples.chartNote 4 true 3 2000 2200].

#[local] Abbreviation pausedOnce :=
  (fun i : nat => match i with O => 0 | 1 => 1 | _ => 2 end)%nat.

Lemma paused_batch_is_dropped :
  map (map id) (scheduleVisualNotes fourNotes) = [[1]; [2; 3]; [4]]
  /\ map (fun a => map id (batchOf a)) (nextNote pausedOnce fourNotes)
     = [[1]; [4]; []]
  /\ map id
       (List.concat (heldBack pausedOnce 0 (scheduleVisualNotes fourNotes)))
     = [2; 3].
Proof.
  split; [ vm_compute; reflexivity | ]. split.
  - rewrite (proj1 (chart_notes_spawn_once_unless_paused pausedOnce
                      fourNotes)).
    vm_compute. reflexivity.
  - vm_compute. reflexivity.
Defined.
